(** * s3backer: the process entry point and the nbd trampoline (main.c)

    A shallow embedding of [main.c]: the command-line scans of [main] and
    [trampoline_to_nbd], the file-scope child table ([child_pids],
    [num_child_pids]) with the four functions that maintain it, and the
    start-up sequence of [main].  Calls into the operating system and into
    the other compilation units of s3backer are answered by an oracle that
    is part of the state; what the program does to the outside world is
    recorded in a trace. *)

From Stdlib Require Import ZArith Lia Ascii String.
From Stdlib Require Strings.Byte.
From stdpp Require Import base list strings gmap.

Local Open Scope string_scope.
Local Open Scope Z_scope.
Local Open Scope nat_scope.
Local Open Scope list_scope.

(** ** C strings *)

Module CString.

(** [*s != '-'] : the first character of [s] is not a dash (the empty
    string starts with its terminating NUL). *)
Definition not_dash (s : string) : bool :=
  match s with
  | String c _ => negb (Ascii.eqb c "-"%char)
  | EmptyString => true
  end.

(** [strcmp(a, b) == 0] *)
Definition streq (a b : string) : bool := String.eqb a b.

(** [strncmp(s, p, strlen(p)) == 0] *)
Definition has_prefix (p s : string) : bool := String.prefix p s.

(** [value = strchr(flag, c)] followed by [*value++ = '\0']: the text
    before the first [c] and the text after it, or [None] when
    [strchr] returns [NULL]. *)
Fixpoint strchr_split (c : ascii) (s : string) : option (string * string) :=
  match s with
  | EmptyString => None
  | String a s' =>
      if Ascii.eqb a c then Some (EmptyString, s')
      else match strchr_split c s' with
           | Some (h, t) => Some (String a h, t)
           | None => None
           end
  end.

End CString.
Import CString.

(** ** The process, its file-scope state and its environment *)

Definition pid_t := Z.

(** The signals of [forward_signals]; no other signal is given a handler
    by this program. *)
Inductive signal := SIGHUP | SIGINT | SIGQUIT | SIGTERM.

Global Instance signal_eq_dec : EqDecision signal.
Proof. solve_decision. Defined.

Inductive log_level := LOG_ERR | LOG_WARNING | LOG_INFO.

Inductive errno_t := ENOENT | EPERM | EACCES | ECHILD | EIO.

Global Instance errno_eq_dec : EqDecision errno_t.
Proof. solve_decision. Defined.

(** The fields of [struct s3b_config] that [main.c] reads. *)
Module Config.
Record s3b_config := {
  nbd : bool;
  erase : bool;
  reset : bool;
  foreground : bool;
  debug : bool;
  read_only : bool;               (* fuse_ops.read_only *)
  mount : string;
  fuse_args : list string         (* fuse_args.argv *)
}.
End Config.
Abbreviation s3b_config := Config.s3b_config.

(** Answers of the environment. *)
Inductive stat_reply :=
| StatOk (st_dev st_ino : Z)        (* 0, with the two fields main.c uses *)
| StatErr (e : errno_t).            (* -1 and errno *)

(** [wait(2)], called without options, gives the pid of a terminated
    child, or -1: with [EINTR] when a signal arrived, with another errno
    otherwise.  A signal is delivered to [handle_signal] when a handler
    was installed for it; the default action of the four signals
    terminates the process. *)
Inductive wait_reply :=
| WaitPid (pid : positive)
| WaitSignal (sig : signal)
| WaitErr (e : errno_t).

(** [usleep(1)]: 0, or -1 when a signal arrived. *)
Inductive usleep_reply :=
| Slept
| SleepSignal (sig : signal).

Record oracle := {
  stat_replies : list stat_reply;            (* successive calls of stat(2) *)
  fork_replies : list (option positive);     (* fork_off(): a pid, or -1 *)
  wait_replies : list wait_reply;
  usleep_replies : list usleep_reply;
  sigaction_ok : signal -> bool;
  kill_ok : pid_t -> bool;
  daemon_ok : bool;
  s3backer_get_config : list string -> bool -> bool -> option s3b_config;
  is_valid_s3b_flag : string -> Z;
  s3backer_erase : Z;
  s3backer_reset : Z;
  s3backer_create_store : bool;              (* false: NULL *)
  fuse_ops_create : bool;                    (* false: NULL *)
  fuse_main : Z
}.

(** What the process does to the outside world, in program order. *)
Inductive event :=
| Stderr (fmt : string)                      (* warnx, errx, err *)
| Usage                                      (* usage() *)
| Log (level : log_level) (fmt : string)     (* config->log, daemon_warnx, daemon_err *)
| SetConfigLog                               (* set_config_log(config, syslog_logger) *)
| Stat (path : string)
| Unlink (path : string)
| GetConfig (argv : list string) (nbd parse_only : bool)
| ForkOff (executable : string) (params : list string)
| Daemon
| Nanosleep
| Sigaction (sig : signal)
| Wait
| Usleep
| Kill (pid : pid_t) (sig : signal)
| Erase
| Reset
| CreateStore
| FuseOpsCreate
| StoreShutdown
| StoreDestroy
| FuseMain (argv : list string)
| FuseOpsDestroy.

Definition MAX_CHILD_PROCESSES : nat := 10.
Definition forward_signals : list signal := [SIGHUP; SIGINT; SIGQUIT; SIGTERM].

(** The state of the process.  [child_pids] and [num_child_pids] are the
    two file-scope variables of the child supervision; [config] is the
    global pointer ([None] is [NULL]).  [num_child_pids] is an [int] in
    the source; it is only ever incremented below the asserted bound and
    decremented under [i < num_child_pids], and it indexes the array, so
    it is a [nat] here. *)
Record world := World {
  child_pids : list pid_t;
  num_child_pids : nat;
  config : option s3b_config;
  handlers : list signal;           (* signals whose action is handle_signal *)
  trace : list event;
  os : oracle
}.

Definition initial_world (o : oracle) : world :=
  {| child_pids := replicate MAX_CHILD_PROCESSES 0%Z; num_child_pids := 0;
     config := None; handlers := []; trace := []; os := o |}.

(** The entries of [child_pids] that are in use. *)
Definition recorded (w : world) : list pid_t :=
  take (num_child_pids w) (child_pids w).

(** How a computation ends. *)
Inductive outcome (A : Type) :=
| Ret (a : A) (w : world)           (* it returns [a] *)
| Exit (status : Z) (w : world)     (* exit(3), through err, errx, daemon_err *)
| Abort (w : world)                 (* a failed assert *)
| Fault (w : world)                 (* undefined behaviour: NULL, out of bounds *)
| Signalled (sig : signal) (w : world)  (* terminated by an unhandled signal *)
| Cut (w : world).                  (* the oracle has no further answer *)
Arguments Ret {A}. Arguments Exit {A}. Arguments Abort {A}.
Arguments Fault {A}. Arguments Signalled {A}. Arguments Cut {A}.

Definition world_of {A} (o : outcome A) : world :=
  match o with
  | Ret _ w | Exit _ w | Abort w | Fault w | Signalled _ w | Cut w => w
  end.

Definition M (A : Type) : Type := world -> outcome A.

Definition ret {A} (a : A) : M A := fun w => Ret a w.

Definition bind {A B} (m : M A) (f : A -> M B) : M B :=
  fun w =>
    match m w with
    | Ret a w' => f a w'
    | Exit s w' => Exit s w'
    | Abort w' => Abort w'
    | Fault w' => Fault w'
    | Signalled s w' => Signalled s w'
    | Cut w' => Cut w'
    end.

Notation "x <- m ;; k" := (bind m (fun x => k))
  (at level 100, m at next level, right associativity).
Notation "m ;;; k" := (bind m (fun _ => k))
  (at level 100, right associativity).

Definition get : M world := fun w => Ret w w.
Definition exit_ {A} (status : Z) : M A := fun w => Exit status w.
Definition abort {A} : M A := fun w => Abort w.
Definition fault {A} : M A := fun w => Fault w.
Definition when (b : bool) (m : M unit) : M unit := if b then m else ret tt.

Definition set_children (pids : list pid_t) (n : nat) : M unit := fun w =>
  Ret tt {| child_pids := pids; num_child_pids := n; config := config w;
            handlers := handlers w; trace := trace w; os := os w |}.

Definition set_config (c : option s3b_config) : M unit := fun w =>
  Ret tt {| child_pids := child_pids w; num_child_pids := num_child_pids w;
            config := c; handlers := handlers w; trace := trace w; os := os w |}.

Definition add_handler (sig : signal) : M unit := fun w =>
  Ret tt {| child_pids := child_pids w; num_child_pids := num_child_pids w;
            config := config w; handlers := sig :: handlers w;
            trace := trace w; os := os w |}.

Definition emit (e : event) : M unit := fun w =>
  Ret tt {| child_pids := child_pids w; num_child_pids := num_child_pids w;
            config := config w; handlers := handlers w;
            trace := trace w ++ [e]; os := os w |}.

Definition set_os (o : oracle) : M unit := fun w =>
  Ret tt {| child_pids := child_pids w; num_child_pids := num_child_pids w;
            config := config w; handlers := handlers w; trace := trace w;
            os := o |}.

(** [config->field]: dereferencing a [NULL] config is a fault. *)
Definition the_config : M s3b_config := fun w =>
  match config w with
  | Some c => Ret c w
  | None => Fault w
  end.

(** libc and util.c reporting: [warnx], [err]/[errx], [daemon_warnx],
    [daemon_err]/[daemon_errx].  An event carries the format string of the
    message, with the C escape for a double quote written as a single
    quote. *)
Definition warnx (fmt : string) : M unit := emit (Stderr fmt).
Definition err {A} (status : Z) (fmt : string) : M A :=
  emit (Stderr fmt) ;;; exit_ status.
Definition daemon_warnx (fmt : string) : M unit := emit (Log LOG_WARNING fmt).
Definition daemon_err {A} (status : Z) (fmt : string) : M A :=
  emit (Log LOG_ERR fmt) ;;; exit_ status.

(** Asking the oracle. *)
Definition with_stat_replies (l : list stat_reply) (o : oracle) : oracle :=
  {| stat_replies := l; fork_replies := fork_replies o;
     wait_replies := wait_replies o; usleep_replies := usleep_replies o;
     sigaction_ok := sigaction_ok o; kill_ok := kill_ok o;
     daemon_ok := daemon_ok o; s3backer_get_config := s3backer_get_config o;
     is_valid_s3b_flag := is_valid_s3b_flag o;
     s3backer_erase := s3backer_erase o; s3backer_reset := s3backer_reset o;
     s3backer_create_store := s3backer_create_store o;
     fuse_ops_create := fuse_ops_create o; fuse_main := fuse_main o |}.

Definition with_fork_replies (l : list (option positive)) (o : oracle) : oracle :=
  {| stat_replies := stat_replies o; fork_replies := l;
     wait_replies := wait_replies o; usleep_replies := usleep_replies o;
     sigaction_ok := sigaction_ok o; kill_ok := kill_ok o;
     daemon_ok := daemon_ok o; s3backer_get_config := s3backer_get_config o;
     is_valid_s3b_flag := is_valid_s3b_flag o;
     s3backer_erase := s3backer_erase o; s3backer_reset := s3backer_reset o;
     s3backer_create_store := s3backer_create_store o;
     fuse_ops_create := fuse_ops_create o; fuse_main := fuse_main o |}.

Definition with_wait_replies (l : list wait_reply) (o : oracle) : oracle :=
  {| stat_replies := stat_replies o; fork_replies := fork_replies o;
     wait_replies := l; usleep_replies := usleep_replies o;
     sigaction_ok := sigaction_ok o; kill_ok := kill_ok o;
     daemon_ok := daemon_ok o; s3backer_get_config := s3backer_get_config o;
     is_valid_s3b_flag := is_valid_s3b_flag o;
     s3backer_erase := s3backer_erase o; s3backer_reset := s3backer_reset o;
     s3backer_create_store := s3backer_create_store o;
     fuse_ops_create := fuse_ops_create o; fuse_main := fuse_main o |}.

Definition with_usleep_replies (l : list usleep_reply) (o : oracle) : oracle :=
  {| stat_replies := stat_replies o; fork_replies := fork_replies o;
     wait_replies := wait_replies o; usleep_replies := l;
     sigaction_ok := sigaction_ok o; kill_ok := kill_ok o;
     daemon_ok := daemon_ok o; s3backer_get_config := s3backer_get_config o;
     is_valid_s3b_flag := is_valid_s3b_flag o;
     s3backer_erase := s3backer_erase o; s3backer_reset := s3backer_reset o;
     s3backer_create_store := s3backer_create_store o;
     fuse_ops_create := fuse_ops_create o; fuse_main := fuse_main o |}.

(** [stat(path, &sb)] *)
Definition stat (path : string) : M stat_reply :=
  emit (Stat path) ;;;
  w <- get ;;
  match stat_replies (os w) with
  | [] => fun w => Cut w
  | r :: rs => set_os (with_stat_replies rs (os w)) ;;; ret r
  end.

(** [fork_off(executable, params->strings)] *)
Definition fork_off (executable : string) (params : list string)
  : M (option positive) :=
  emit (ForkOff executable params) ;;;
  w <- get ;;
  match fork_replies (os w) with
  | [] => fun w => Cut w
  | r :: rs => set_os (with_fork_replies rs (os w)) ;;; ret r
  end.

(** [wait(&wstatus)] *)
Definition wait : M wait_reply :=
  emit Wait ;;;
  w <- get ;;
  match wait_replies (os w) with
  | [] => fun w => Cut w
  | r :: rs => set_os (with_wait_replies rs (os w)) ;;; ret r
  end.

(** [usleep(1)] *)
Definition usleep : M usleep_reply :=
  emit Usleep ;;;
  w <- get ;;
  match usleep_replies (os w) with
  | [] => fun w => Cut w
  | r :: rs => set_os (with_usleep_replies rs (os w)) ;;; ret r
  end.

(** ** The child table (main.c, lines 418-523) *)

(** [handle_signal] *)
Definition handle_signal (sig : signal) : M unit :=
  c <- the_config ;;
  when (Config.debug c) (daemon_warnx "got signal %d").

(** Delivery of [sig] while the process is blocked in a system call. *)
Definition deliver (sig : signal) : M unit :=
  w <- get ;;
  if decide (sig ∈ handlers w) then handle_signal sig
  else fun w => Signalled sig w.

(** [start_child_process] *)
Definition start_child_process (executable : string) (params : list string)
  : M pid_t :=
  c <- the_config ;;
  when (Config.debug c)
    (daemon_warnx "executing %s with these parameters:" ;;;
     foldr (fun _ k => daemon_warnx "  [%02d] '%s'" ;;; k) (ret tt) params) ;;;
  w <- get ;;
  if negb (num_child_pids w <? MAX_CHILD_PROCESSES) then abort else
  r <- fork_off executable params ;;
  match r with
  | None => daemon_err 1 "%s"
  | Some p =>
      let pid := Z.pos p in
      w <- get ;;
      (if num_child_pids w <? length (child_pids w)
       then set_children (<[num_child_pids w := pid]> (child_pids w))
                         (S (num_child_pids w))
       else fault) ;;;
      when (Config.debug c) (daemon_warnx "started %s as process %d") ;;;
      ret pid
  end.

(** [memmove(a + dst, a + src, n * sizeof a[0])] inside one array. *)
Definition memmove {A} (a : list A) (dst src n : nat) : list A :=
  take dst a ++ take n (drop src a) ++ drop (dst + n) a.

(** [record_child_exited]: the loop from index [i] on. *)
Fixpoint record_child_exited_from (fuel i : nat) (pid : pid_t) : M unit :=
  match fuel with
  | O => ret tt
  | S fuel' =>
      w <- get ;;
      if i <? num_child_pids w then
        if decide (child_pids w !!! i = pid) then
          c <- the_config ;;
          when (Config.debug c) (daemon_warnx "reaped child %d") ;;;
          let n := num_child_pids w - 1 in
          set_children (memmove (child_pids w) i (i + 1) (n - i)) n
        else record_child_exited_from fuel' (i + 1) pid
      else ret tt
  end.

Definition record_child_exited (pid : pid_t) : M unit :=
  w <- get ;;
  record_child_exited_from (S (num_child_pids w)) 0 pid.

(** The body of [while (1) if (usleep(1) == -1) return -1;], on the
    answers [usleep] is going to get. *)
Fixpoint sleep_until_signal (fuel : nat) : M pid_t :=
  match fuel with
  | O => fun w => Cut w
  | S fuel' =>
      r <- usleep ;;
      match r with
      | Slept => sleep_until_signal fuel'
      | SleepSignal sig =>
          deliver sig ;;;
          c <- the_config ;;
          when (Config.debug c) (daemon_warnx "rec'd signal during sleep") ;;;
          ret (-1)%Z
      end
  end.

(** [wait_for_child_to_exit] *)
Definition wait_for_child_to_exit (sleep_if_none : bool) : M pid_t :=
  w <- get ;;
  if num_child_pids w =? 0 then
    if negb sleep_if_none then ret 0%Z
    else sleep_until_signal (S (length (usleep_replies (os w))))
  else
    r <- wait ;;
    match r with
    | WaitSignal sig =>
        deliver sig ;;;
        c <- the_config ;;
        when (Config.debug c) (daemon_warnx "rec'd signal during wait") ;;;
        ret (-1)%Z
    | WaitErr _ => daemon_err 1 "waitpid"
    | WaitPid p =>
        record_child_exited (Z.pos p) ;;;
        ret (Z.pos p)
    end.

(** [kill_remaining_children]: the loop from index [i] on. *)
Fixpoint kill_remaining_children_from (fuel i : nat) (except : pid_t) : M unit :=
  match fuel with
  | O => ret tt
  | S fuel' =>
      w <- get ;;
      if i <? num_child_pids w then
        let pid := child_pids w !!! i in
        (if decide (pid = except) then ret tt
         else
           c <- the_config ;;
           when (Config.debug c) (daemon_warnx "killing child %d") ;;;
           emit (Kill pid SIGTERM) ;;;
           when (negb (kill_ok (os w) pid) && Config.debug c)
             (daemon_warnx "kill(%d, %d)")) ;;;
        kill_remaining_children_from fuel' (i + 1) except
      else ret tt
  end.

Definition kill_remaining_children (except : pid_t) : M unit :=
  w <- get ;;
  kill_remaining_children_from (S (num_child_pids w)) 0 except.

(** ** Build-time constants

    The macros of [config.h] and [nbdkit.h] that [main.c] uses, and the
    sizes of [dev_t] and [ino_t]. *)
Record build := {
  NBDKIT : bool;                          (* #if NBDKIT *)
  PACKAGE : string;
  NBDKIT_EXECUTABLE : string;
  NBD_CLIENT_EXECUTABLE : string;
  S3B_NBD_DIR : string;
  NBD_S3B_PARAM_PREFIX : string;
  NBD_BUCKET_PARAMETER_NAME : string;
  sizeof_dev_t : nat;
  sizeof_ino_t : nat
}.

Definition NBD_CLIENT_BLOCK_SIZE : string := "4096".
Definition NBDKIT_STARTUP_WAIT_PAUSE : Z := 50.
Definition MAX_NBDKIT_STARTUP_WAIT_MILLIS : Z := 1000.

(** ** String arrays and formatting (util.c, libc) *)

Definition string_array := list string.

(** [add_string(array, fmt, ...)] appends the formatted string; it
    returns -1 ([None]) only when [realloc] or [vasprintf] finds no
    memory, which the model has without bound. *)
Definition add_string (a : string_array) (s : string) : option string_array :=
  Some (a ++ [s]).

Definition hex_digit (d : Z) : ascii :=
  match d with
  | 0%Z => "0" | 1%Z => "1" | 2%Z => "2" | 3%Z => "3" | 4%Z => "4"
  | 5%Z => "5" | 6%Z => "6" | 7%Z => "7" | 8%Z => "8" | 9%Z => "9"
  | 10%Z => "a" | 11%Z => "b" | 12%Z => "c" | 13%Z => "d" | 14%Z => "e"
  | _ => "f"
  end%char.

(** ["%0*jx"] with width [width], for a value below [16 ^ width]. *)
Fixpoint hex_fixed (width : nat) (n : Z) : string :=
  match width with
  | O => ""
  | S k => hex_fixed k (n / 16) +:+ String (hex_digit (n mod 16)) ""
  end.

Definition tolower (c : ascii) : ascii :=
  let n := nat_of_ascii c in
  if (65 <=? n) && (n <=? 90) then ascii_of_nat (n + 32) else c.

(** [strcasecmp(a, b) == 0] *)
Fixpoint strcaseeq (a b : string) : bool :=
  match a, b with
  | EmptyString, EmptyString => true
  | String x a', String y b' => Ascii.eqb (tolower x) (tolower y) && strcaseeq a' b'
  | _, _ => false
  end.

(** ** The command line (main.c, lines 84-93 and 180-222) *)

(** The loop of [main] that looks for the [--nbd] flag, on
    [argv[i], ..., argv[argc - 1]]; its value is the final [nbd]. *)
Fixpoint look_for_nbd (params : list string) : bool :=
  match params with
  | [] => false
  | param :: rest =>
      if not_dash param || streq param "--" then false
      else if streq param "--nbd" then true
      else look_for_nbd rest
  end.

(** A function of the source has returned [r], or goes on with [a]. *)
Inductive early (A : Type) :=
| Return (r : Z)
| Continue (a : A).
Arguments Return {A}. Arguments Continue {A}.

(** What the first loop of [trampoline_to_nbd] leaves behind: [argv] as
    [x_kept ++ x_rest] with [i = length x_kept] and
    [argc = length (x_kept ++ x_rest)], and the two collected lists. *)
Record extracted := {
  x_kept : list string;
  x_rest : list string;
  x_nbd_flags : string_array;
  x_nbd_params : string_array
}.

(** The first loop of [trampoline_to_nbd].  [kept] is [argv[0 .. i-1]]
    and [todo] is [argv[i .. argc-1]]: squishing [argv[i]] drops the head
    of [todo] and leaves [i] where it is, [continue] without squishing
    moves the head of [todo] to the end of [kept]. *)
Fixpoint extract_nbd_flags (kept todo : list string)
    (nbd_flags nbd_params : string_array) : M (early extracted) :=
  match todo with
  | [] => ret (Continue {| x_kept := kept; x_rest := [];
                           x_nbd_flags := nbd_flags; x_nbd_params := nbd_params |})
  | flag :: rest =>
      if not_dash flag then
        ret (Continue {| x_kept := kept; x_rest := todo;
                         x_nbd_flags := nbd_flags; x_nbd_params := nbd_params |})
      else if streq flag "--" then
        ret (Continue {| x_kept := kept ++ [flag]; x_rest := rest;
                         x_nbd_flags := nbd_flags; x_nbd_params := nbd_params |})
      else if negb (has_prefix "--nbd" flag) then
        extract_nbd_flags (kept ++ [flag]) rest nbd_flags nbd_params
      else if streq flag "--nbd" then
        extract_nbd_flags kept rest nbd_flags nbd_params
      else
        match strchr_split "=" flag with
        | None => warnx "invalid flag '%s'" ;;; ret (Return 2%Z)
        | Some (name, value) =>
            if streq name "--nbd-flag" then
              match add_string nbd_flags value with
              | None => err 1 "add_string"
              | Some nbd_flags' =>
                  extract_nbd_flags kept rest nbd_flags' nbd_params
              end
            else if streq name "--nbd-param" then
              match add_string nbd_params value with
              | None => err 1 "add_string"
              | Some nbd_params' =>
                  extract_nbd_flags kept rest nbd_flags nbd_params'
              end
            else warnx "invalid flag '%s'" ;;; ret (Return 2%Z)
        end
  end.

(** [switch (argc - i)]: the bucket and the device, or [return 2]. *)
Definition two_remaining (x : extracted) : early (string * string) :=
  match x_rest x with
  | [bucket_param; device_param] => Continue (bucket_param, device_param)
  | _ => Return 2%Z
  end.

Section Program.

Context (B : build).

(** [add_string] whose failure is reported through [fail]. *)
Definition add (fail : M string_array) (s : string) (a : string_array)
  : M string_array :=
  match add_string a s with
  | Some a' => ret a'
  | None => fail
  end.

(** The loop that turns the remaining s3backer flags into nbdkit plugin
    parameters (lines 268-312), on [argv[i], ..., argv[argc - 1]]. *)
Fixpoint add_s3b_params (params : list string) (command_line : string_array)
  : M (early string_array) :=
  match params with
  | [] => ret (Continue command_line)
  | param :: rest =>
      if not_dash param || streq param "--" then ret (Continue command_line)
      else if streq param "-f" || streq param "-d" then
        add_s3b_params rest command_line
      else
        match param with
        | String _ (String "-" param2) =>
            let (name, value) :=
              match strchr_split "=" param2 with
              | Some (n, v) => (n, Some v)
              | None => (param2, None)
              end in
            w <- get ;;
            let valid := is_valid_s3b_flag (os w) name in
            let go :=
              command_line' <-
                add (err 1 "add_string")
                    (NBD_S3B_PARAM_PREFIX B +:+ name +:+ "=" +:+ default "true" value)
                    command_line ;;
              add_s3b_params rest command_line' in
            if (valid =? 1)%Z then
              match value with
              | Some v =>
                  if negb (strcaseeq v "true") then
                    warnx "boolean flag '--%s' value must be 'true'" ;;;
                    ret (Return 2%Z)
                  else go
              | None => go
              end
            else if (valid =? 2)%Z then
              match value with
              | None =>
                  warnx "flag '--%s' requires a value" ;;; ret (Return 2%Z)
              | Some _ => go
              end
            else warnx "invalid flag '--%s'" ;;; ret (Return 2%Z)
        | _ => warnx "invalid flag '%s'" ;;; ret (Return 2%Z)
        end
  end.

(** The loop that waits for the socket file (lines 346-358); its value
    is [file_created]. *)
Fixpoint wait_for_socket (fuel : nat) (elapsed_millis : Z)
    (unix_socket : string) : M bool :=
  match fuel with
  | O => ret false
  | S fuel' =>
      if (elapsed_millis <=? MAX_NBDKIT_STARTUP_WAIT_MILLIS)%Z then
        r <- stat unix_socket ;;
        match r with
        | StatOk _ _ => ret true
        | StatErr ENOENT =>
            emit Nanosleep ;;;
            wait_for_socket fuel'
              (elapsed_millis + NBDKIT_STARTUP_WAIT_PAUSE)%Z unix_socket
        | StatErr _ => daemon_err 1 "%s"
        end
      else ret false
  end.

(** The loop of lines 386-392; its value is the final [exit_pid]. *)
Fixpoint supervise (fuel : nat) (client_pid : pid_t) : M pid_t :=
  match fuel with
  | O => fun w => Cut w
  | S fuel' =>
      c <- the_config ;;
      exit_pid <- wait_for_child_to_exit (negb (Config.foreground c)) ;;
      if (exit_pid =? client_pid)%Z then supervise fuel' (-2)%Z
      else ret exit_pid
  end.

(** The loop of lines 406-409. *)
Fixpoint wait_for_all (fuel : nat) : M unit :=
  match fuel with
  | O => fun w => Cut w
  | S fuel' =>
      r <- wait_for_child_to_exit false ;;
      if (r =? 0)%Z then ret tt else wait_for_all fuel'
  end.

(** Lines 377-383: [handle_signal] becomes the action of each of the
    [forward_signals]. *)
Fixpoint install_handlers (sigs : list signal) : M unit :=
  match sigs with
  | [] => ret tt
  | sig :: rest =>
      emit (Sigaction sig) ;;;
      w <- get ;;
      (if sigaction_ok (os w) sig then add_handler sig
       else daemon_err 1 "sigaction") ;;;
      install_handlers rest
  end.

(** Lines 394-415: the clean-up after the supervision loop. *)
Definition clean_up (device_param unix_socket : string) : M Z :=
  command_line <- add (daemon_err 1 "add_string") (NBD_CLIENT_EXECUTABLE B) [] ;;
  command_line <- add (daemon_err 1 "add_string") "-d" command_line ;;
  command_line <- add (daemon_err 1 "add_string") device_param command_line ;;
  client_pid <- start_child_process (NBD_CLIENT_EXECUTABLE B) command_line ;;
  kill_remaining_children client_pid ;;;
  w <- get ;;
  wait_for_all (S (length (wait_replies (os w)))) ;;;
  emit (Unlink unix_socket) ;;;
  ret 0%Z.

(** Lines 377-415: from the installation of the signal handlers to the
    end of [trampoline_to_nbd]. *)
Definition supervise_children (client_pid : pid_t)
    (device_param unix_socket : string) : M Z :=
  install_handlers forward_signals ;;;
  w <- get ;;
  supervise (S (length (wait_replies (os w)))) client_pid ;;;
  clean_up device_param unix_socket.

(** Lines 224-375: from the [stat] of the device to the start of
    [nbd-client]. *)
Definition start_servers (x : extracted) (bucket_param device_param : string)
  : M (early (pid_t * string)) :=
  let argv := x_kept x ++ x_rest x in
  sb <- stat device_param ;;
  match sb with
  | StatErr _ => err 1 "%s"
  | StatOk st_dev st_ino =>
      let unix_socket :=
        S3B_NBD_DIR B +:+ "/" +:+ hex_fixed (sizeof_dev_t B * 2) st_dev
          +:+ "_" +:+ hex_fixed (sizeof_ino_t B * 2) st_ino in
      emit (Unlink unix_socket) ;;;
      sb <- stat unix_socket ;;
      match sb with
      | StatErr EPERM | StatErr EACCES =>
          err 1 "must be run as root when the '--nbd' flag is used"
      | StatErr ENOENT | StatOk _ _ => ret tt
      | StatErr _ => err 1 "%s"
      end ;;;
      emit (GetConfig argv true true) ;;;
      w <- get ;;
      set_config (s3backer_get_config (os w) argv true true) ;;;
      w <- get ;;
      match config w with
      | None => ret (Return 1%Z)
      | Some c =>
          let fail := err 1 "add_string" in
          command_line <- add fail (NBDKIT_EXECUTABLE B) [] ;;
          command_line <-
            (if Config.debug c then add fail "--verbose" command_line
             else ret command_line) ;;
          command_line <-
            (if Config.foreground c then add fail "--foreground" command_line
             else ret command_line) ;;
          command_line <-
            (if Config.read_only c then add fail "--read-only" command_line
             else ret command_line) ;;
          command_line <- add fail "--filter=exitlast" command_line ;;
          command_line <- add fail "--unix" command_line ;;
          command_line <- add fail unix_socket command_line ;;
          command_line <-
            foldl (fun m s => a <- m ;; add fail s a) (ret command_line)
                  (x_nbd_flags x) ;;
          command_line <- add fail (PACKAGE B) command_line ;;
          r <- add_s3b_params (drop 1 argv) command_line ;;
          match r with
          | Return r => ret (Return r)
          | Continue command_line =>
              command_line <-
                add fail (NBD_BUCKET_PARAMETER_NAME B +:+ "=" +:+ bucket_param)
                    command_line ;;
              command_line <-
                foldl (fun m s => a <- m ;; add fail s a) (ret command_line)
                      (x_nbd_params x) ;;
              server_pid <- start_child_process (NBDKIT_EXECUTABLE B) command_line ;;
              (if negb (Config.foreground c) then
                 exit_pid <- wait_for_child_to_exit false ;;
                 if negb (exit_pid =? server_pid)%Z then
                   if (exit_pid =? -1)%Z then err 1 "got signal during setup"
                   else err 1 "wait() returned %d"
                 else ret tt
               else ret tt) ;;;
              (if negb (Config.foreground c) then
                 warnx "connecting %s to %s" ;;;
                 emit Daemon ;;;
                 w <- get ;;
                 (if daemon_ok (os w) then ret tt else err 1 "daemon") ;;;
                 emit SetConfigLog
               else ret tt) ;;;
              file_created <- wait_for_socket 22 0%Z unix_socket ;;
              (if negb file_created then
                 daemon_err 1 "%s failed to start within %lums"
               else ret tt) ;;;
              let fail := daemon_err 1 "add_string" in
              command_line <- add fail (NBD_CLIENT_EXECUTABLE B) [] ;;
              command_line <- add fail "-unix" command_line ;;
              command_line <- add fail unix_socket command_line ;;
              command_line <- add fail "-block-size" command_line ;;
              command_line <- add fail NBD_CLIENT_BLOCK_SIZE command_line ;;
              command_line <- add fail "-nofork" command_line ;;
              command_line <-
                (if Config.read_only c then add fail "-readonly" command_line
                 else ret command_line) ;;
              command_line <- add fail device_param command_line ;;
              client_pid <- start_child_process (NBD_CLIENT_EXECUTABLE B) command_line ;;
              ret (Continue (client_pid, unix_socket))
          end
      end
  end.

(** [trampoline_to_nbd(argc, argv)], with [argc = length argv]. *)
Definition trampoline_to_nbd (argv : list string) : M Z :=
  r <- extract_nbd_flags (take 1 argv) (drop 1 argv) [] [] ;;
  match r with
  | Return r => ret r
  | Continue x =>
      match two_remaining x with
      | Return r => ret r
      | Continue (bucket_param, device_param) =>
          r <- start_servers x bucket_param device_param ;;
          match r with
          | Return r => ret r
          | Continue (client_pid, unix_socket) =>
              supervise_children client_pid device_param unix_socket
          end
      end
  end.

(** [main(argc, argv)], with [argc = length argv]. *)
Definition main (argv : list string) : M Z :=
  let nbd := look_for_nbd (drop 1 argv) in
  if nbd then
    if NBDKIT B then
      i <- trampoline_to_nbd argv ;;
      if (i =? 2)%Z then emit Usage ;;; ret 1%Z else ret i
    else err 1 "invalid flag '--nbd': %s was not built with NBD support"
  else
    emit (GetConfig argv false false) ;;;
    w <- get ;;
    set_config (s3backer_get_config (os w) argv false false) ;;;
    w <- get ;;
    match config w with
    | None => ret 1%Z
    | Some c =>
        if Config.nbd c then
          err 1 "the '--nbd' flag is not supported in config files (must be on the command line)"
        else if Config.erase c then
          emit Erase ;;;
          if negb (s3backer_erase (os w) =? 0)%Z then ret 1%Z else ret 0%Z
        else if Config.reset c then
          emit Reset ;;;
          if negb (s3backer_reset (os w) =? 0)%Z then ret 1%Z else ret 0%Z
        else
          emit CreateStore ;;;
          (if s3backer_create_store (os w) then ret tt
           else err 1 "error creating s3backer_store") ;;;
          when (negb (Config.foreground c)) (emit SetConfigLog) ;;;
          emit FuseOpsCreate ;;;
          if negb (fuse_ops_create (os w)) then
            emit StoreShutdown ;;;
            emit StoreDestroy ;;;
            ret 1%Z
          else
            emit (Log LOG_INFO "s3backer process %lu for %s started") ;;;
            emit (FuseMain (Config.fuse_args c)) ;;;
            if negb (fuse_main (os w) =? 0)%Z then
              emit (Log LOG_ERR "error starting FUSE") ;;;
              emit FuseOpsDestroy ;;;
              ret 1%Z
            else ret 0%Z
    end.

End Program.

(** * The layered block store

    Modelled from the spec: the four layers of the store, whose sources
    ([block_cache.c], [zero_cache.c], [ec_protect.c], [http_io.c]) are not
    part of [main.c].  The model follows sections 3, 4 and 7 of the
    specification: a block cache with the six entry states of section 4.1,
    a zero cache with its bitmap (4.2), the eventual-consistency protection
    that remembers what was last written (4.3), and the HTTP layer with its
    retries and its integrity check (4.4), over a bucket whose reads may
    lag behind its writes.  Calls are atomic; what the worker threads and
    the passing of time do between two calls is a list of internal steps.
    Compression and encryption, which are optional, are not configured;
    the bounds [cache_size] and [max_dirty], which only make a caller
    wait, are left out. *)

Module Store.

Definition block := list Byte.byte.

#[export] Instance byte_eq_dec : EqDecision Byte.byte := Byte.byte_eq_dec.

(** Modelled from the spec: the error kinds of section 7; the header that
    declares them is missing. *)
Inductive error :=
| NOT_FOUND | NOT_MODIFIED | INTEGRITY | AUTH | TRANSIENT | IO | CONFIG
| OVERFLOW.

#[export] Instance error_eq_dec : EqDecision error.
Proof. solve_decision. Defined.

Inductive result (A : Type) :=
| Ok (a : A)
| Err (e : error).
Arguments Ok {A}. Arguments Err {A}.

(** Modelled from the spec: [http_io.c] is missing.  An object of the
    bucket (section 3): the payload and the content hash kept in its
    metadata. *)
Record object := { body : block; etag : block }.

(** Modelled from the spec: [block_cache.c] is missing.  Section 4.1,
    entry state machine, each state with the data it holds; [Writing2]
    holds the payload in flight and the newer one. *)
Inductive entry :=
| Clean (d : block)
| Dirty (d : block)
| Writing (d : block)
| Writing2 (inflight d : block)
| Reading
| Reading2 (d : block).

#[export] Instance entry_eq_dec : EqDecision entry.
Proof. solve_decision. Defined.

(** Modelled from the spec: [http_io.c] is missing.  What becomes of one
    HTTP attempt (section 4.4, retries). *)
Inductive transport :=
| Delivered                 (* the request reaches the object store *)
| Retriable                 (* 5xx, 408, 429, connection error, timeout *)
| Refused                   (* another failure of the transport *)
| Denied.                   (* the object store rejects the credentials *)

(** Modelled from the spec: the state of the four missing layers.
    [latest] is what the bucket converges to; while
    [stale !! i] is [Some old], a GET of [i] still observes [old].  [net]
    scripts the coming HTTP attempts; when it is empty requests are
    delivered. *)
Record store := {
  cache : gmap nat entry;
  zero_bits : gset nat;
  ec : gmap nat block;
  latest : gmap nat object;
  stale : gmap nat (option object);
  net : list transport
}.

Definition set_cache (f : gmap nat entry -> gmap nat entry) (s : store) : store :=
  {| cache := f (cache s); zero_bits := zero_bits s; ec := ec s;
     latest := latest s; stale := stale s; net := net s |}.

Definition set_zero_bits (f : gset nat -> gset nat) (s : store) : store :=
  {| cache := cache s; zero_bits := f (zero_bits s); ec := ec s;
     latest := latest s; stale := stale s; net := net s |}.

Definition set_ec (f : gmap nat block -> gmap nat block) (s : store) : store :=
  {| cache := cache s; zero_bits := zero_bits s; ec := f (ec s);
     latest := latest s; stale := stale s; net := net s |}.

Definition set_bucket (l : gmap nat object) (st : gmap nat (option object))
    (s : store) : store :=
  {| cache := cache s; zero_bits := zero_bits s; ec := ec s;
     latest := l; stale := st; net := net s |}.

Definition set_net (n : list transport) (s : store) : store :=
  {| cache := cache s; zero_bits := zero_bits s; ec := ec s;
     latest := latest s; stale := stale s; net := n |}.

Section Layers.

(** The block size [B], the content hash, and the bound on retries. *)
Context (block_size : nat) (md5 : block -> block) (max_retries : nat).

Definition zeros : block := replicate block_size Byte.x00.
Definition is_zero (x : block) : bool := bool_decide (x = zeros).

(** ** HTTP I/O (section 4.4) *)

(** Modelled from the spec: [http_io.c] is missing.  What a GET of block
    [i] observes (section 3, eventual consistency). *)
Definition observed (i : nat) (s : store) : option object :=
  match stale s !! i with
  | Some old => old
  | None => latest s !! i
  end.

(** Modelled from the spec: [http_io.c] is missing.  Step 3 of the read
    pipeline of section 4.4: hash and length. *)
Definition intact (o : object) : bool :=
  bool_decide (md5 (body o) = etag o) && (length (body o) =? block_size).

(** Modelled from the spec: [http_io.c] is missing.  The answer to a GET
    that is delivered: 404 is [NOT_FOUND], a mismatch is [INTEGRITY]. *)
Definition get_object (i : nat) (s : store) : result block * store :=
  match observed i s with
  | None => (Err NOT_FOUND, s)
  | Some o => if intact o then (Ok (body o), s) else (Err INTEGRITY, s)
  end.

(** Modelled from the spec: [http_io.c] is missing.  A PUT that is
    delivered; a GET may observe the old object until the key settles. *)
Definition put_object (i : nat) (x : block) (s : store) : result unit * store :=
  (Ok tt, set_bucket (<[i := {| body := x; etag := md5 x |}]> (latest s))
                     (<[i := observed i s]> (stale s)) s).

(** Modelled from the spec: [http_io.c] is missing.  A DELETE that is
    delivered. *)
Definition delete_object (i : nat) (s : store) : result unit * store :=
  (Ok tt, set_bucket (delete i (latest s)) (<[i := observed i s]> (stale s)) s).

(** Modelled from the spec: [http_io.c] is missing.  One attempt: a
    retriable failure is [TRANSIENT]. *)
Definition http_once {A} (perform : store -> result A * store) (s : store)
  : result A * store :=
  match net s with
  | [] | Delivered :: _ => perform (set_net (tail (net s)) s)
  | Retriable :: _ => (Err TRANSIENT, set_net (tail (net s)) s)
  | Refused :: _ => (Err IO, set_net (tail (net s)) s)
  | Denied :: _ => (Err AUTH, set_net (tail (net s)) s)
  end.

(** Modelled from the spec: [http_io.c] is missing.  Retries (sections
    4.4 and 7): a transient failure is tried again, up to the bound, and
    is an [IO] failure after exhaustion. *)
Fixpoint http_retry {A} (retries : nat) (perform : store -> result A * store)
    (s : store) : result A * store :=
  match http_once perform s with
  | (Err TRANSIENT, s1) =>
      match retries with
      | O => (Err IO, s1)
      | S n => http_retry n perform s1
      end
  | r => r
  end.

(** Modelled from the spec: [http_io.c] is missing.  The read of the HTTP
    layer. *)
Definition http_read (i : nat) (s : store) : result block * store :=
  http_retry max_retries (get_object i) s.

(** Modelled from the spec: [http_io.c] is missing.  The write of the
    HTTP layer; an all-zero write is a DELETE of the key. *)
Definition http_write (i : nat) (x : block) (s : store) : result unit * store :=
  http_retry max_retries
    (if is_zero x then delete_object i else put_object i x) s.

(** ** EC protect (section 4.3) *)

(** Modelled from the spec: [ec_protect.c] is missing.  A read within the
    window is served from the remembered copy. *)
Definition ec_read (i : nat) (s : store) : result block * store :=
  match ec s !! i with
  | Some d => (Ok d, s)
  | None => http_read i s
  end.

(** Modelled from the spec: [ec_protect.c] is missing.  A write that
    succeeds is remembered. *)
Definition ec_write (i : nat) (x : block) (s : store) : result unit * store :=
  match http_write i x s with
  | (Ok _, s1) => (Ok tt, set_ec (insert i x) s1)
  | (Err e, s1) => (Err e, s1)
  end.

(** ** Zero cache (section 4.2) *)

(** Modelled from the spec: [zero_cache.c] is missing.  A set bit answers
    with zeros without calling downstream; an absent
    object is an all-zero block (section 7: [NOT_FOUND] is treated as zero
    and is not surfaced above the zero cache). *)
Definition zc_read (i : nat) (s : store) : result block * store :=
  if decide (i ∈ zero_bits s) then (Ok zeros, s)
  else match ec_read i s with
       | (Err NOT_FOUND, s1) => (Ok zeros, s1)
       | r => r
       end.

(** Modelled from the spec: [zero_cache.c] is missing.  An all-zero
    payload is a DELETE downstream and sets the bit on success; another payload clears the bit and is delegated. *)
Definition zc_write (i : nat) (x : block) (s : store) : result unit * store :=
  if is_zero x then
    match ec_write i x s with
    | (Ok _, s1) => (Ok tt, set_zero_bits (union {[i]}) s1)
    | (Err e, s1) => (Err e, s1)
    end
  else ec_write i x (set_zero_bits (fun b => b ∖ {[i]}) s).

(** ** Block cache (section 4.1) *)

(** Modelled from the spec: [block_cache.c] is missing.  The completion
    of the read in flight for [i].  With no newer data
    ([Reading]) the entry becomes [Clean], or is dropped when the fetch
    fails; with newer data [d] ([Reading2]) the fetched bytes are
    discarded and the entry becomes [Dirty]. *)
Definition complete_read (i : nat) (newer : option block) (s : store)
  : result block * store :=
  match newer with
  | None =>
      match zc_read i s with
      | (Ok d, s1) => (Ok d, set_cache (insert i (Clean d)) s1)
      | (Err e, s1) => (Err e, set_cache (delete i) s1)
      end
  | Some d => (Ok d, set_cache (insert i (Dirty d)) (snd (zc_read i s)))
  end.

(** Modelled from the spec: [block_cache.c] is missing.  [read(idx)]:
    data of a present entry at once; a caller that finds a
    read in flight waits for its completion; a miss inserts [Reading] and
    fetches. *)
Definition bc_read (i : nat) (s : store) : result block * store :=
  match cache s !! i with
  | Some (Clean d) | Some (Dirty d) | Some (Writing d) | Some (Writing2 _ d) =>
      (Ok d, s)
  | Some Reading => complete_read i None s
  | Some (Reading2 d) => complete_read i (Some d) s
  | None => complete_read i None (set_cache (insert i Reading) s)
  end.

(** Modelled from the spec: [block_cache.c] is missing.  [write(idx)],
    not synchronous: the entry becomes [Dirty]; a write
    during [Writing] gives [Writing2], a write during a read in flight
    gives [Reading2]. *)
Definition bc_write (i : nat) (x : block) (s : store) : result unit * store :=
  let e := match cache s !! i with
           | Some (Writing d) => Writing2 d x
           | Some (Writing2 inflight _) => Writing2 inflight x
           | Some Reading | Some (Reading2 _) => Reading2 x
           | Some (Clean _) | Some (Dirty _) | None => Dirty x
           end in
  (Ok tt, set_cache (insert i e) s).

(** Modelled from the spec: [block_cache.c] is missing.  The propagation
    of [d] for entry [i]: [Clean] on success, back to
    [Dirty] on failure. *)
Definition propagate (i : nat) (d : block) (s : store) : result unit * store :=
  match zc_write i d s with
  | (Ok _, s1) => (Ok tt, set_cache (insert i (Clean d)) s1)
  | (Err e, s1) => (Err e, set_cache (insert i (Dirty d)) s1)
  end.

(** Modelled from the spec: the worker threads of [block_cache.c] and the
    timers of [ec_protect.c] are missing.  What happens between two
    calls. *)
Inductive step :=
| StartWrite (i : nat)       (* a worker takes the dirty entry *)
| CompleteWrite (i : nat)    (* the write in flight ends *)
| StartRead (i : nat)        (* read-ahead *)
| CompleteRead (i : nat)     (* the read in flight ends *)
| Evict (i : nat)            (* a clean entry is evicted *)
| Expire (i : nat)           (* min_write_delay has passed for an entry *)
| Settle (i : nat)           (* the bucket has converged for a key *)
| Fail (t : transport)       (* the transport will fail once more *)
| ReadOp (i : nat)           (* a call of read *)
| WriteOp (i : nat) (x : block).  (* a call of write *)

(** Modelled from the spec: the effect of a step.  The expiry of an
    entry of EC protect (section 4.3) and the convergence of the bucket for
    a key (section 3) are separate steps, in either order. *)
Definition do_step (st : step) (s : store) : store :=
  match st with
  | StartWrite i =>
      match cache s !! i with
      | Some (Dirty d) => set_cache (insert i (Writing d)) s
      | _ => s
      end
  | CompleteWrite i =>
      match cache s !! i with
      | Some (Writing d) => snd (propagate i d s)
      | Some (Writing2 inflight d) =>
          set_cache (insert i (Dirty d)) (snd (zc_write i inflight s))
      | _ => s
      end
  | StartRead i =>
      match cache s !! i with
      | None => set_cache (insert i Reading) s
      | _ => s
      end
  | CompleteRead i =>
      match cache s !! i with
      | Some Reading => snd (complete_read i None s)
      | Some (Reading2 d) => snd (complete_read i (Some d) s)
      | _ => s
      end
  | Evict i =>
      match cache s !! i with
      | Some (Clean _) => set_cache (delete i) s
      | _ => s
      end
  | Expire i => set_ec (delete i) s
  | Settle i => set_bucket (latest s) (delete i (stale s)) s
  | Fail t => set_net (net s ++ [t]) s
  | ReadOp i => snd (bc_read i s)
  | WriteOp i x => snd (bc_write i x s)
  end.

(** Modelled from the spec: a schedule of steps, run in order. *)
Definition run (steps : list step) (s : store) : store :=
  foldl (fun s st => do_step st s) s steps.

(** Modelled from the spec: [block_cache.c] is missing.  [flush()] is a
    fence (sections 3 and 5): it returns once the deferred write is
    propagated.  A propagation that fails leaves the entry [Dirty] and is
    made again; every failure uses up at least one of the failures the
    transport has in store, so that [length (net s)] further attempts are
    enough. *)
Fixpoint propagate_until (fuel : nat) (i : nat) (d : block) (s : store) : store :=
  match propagate i d s with
  | (Ok _, s1) => s1
  | (Err _, s1) =>
      match fuel with
      | O => s1
      | S fuel' => propagate_until fuel' i d s1
      end
  end.

(** Modelled from the spec: [flush()] for the entry of block [i]: a write
    or a read in flight is awaited first, then the data of the entry is
    propagated. *)
Definition flush_entry (i : nat) (s : store) : store :=
  match cache s !! i with
  | Some (Dirty d) | Some (Writing d) => propagate_until (length (net s)) i d s
  | Some (Writing2 inflight d) =>
      let s1 := snd (zc_write i inflight s) in
      propagate_until (length (net s1)) i d s1
  | Some (Reading2 d) =>
      let s1 := snd (zc_read i s) in
      propagate_until (length (net s1)) i d s1
  | Some (Clean _) | Some Reading | None => s
  end.

(** Modelled from the spec: [block_cache.c] is missing.  [flush()] over
    the whole cache. *)
Definition bc_flush (s : store) : result unit * store :=
  (Ok tt, foldl (fun s i => flush_entry i s) s (elements (dom (cache s)))).

End Layers.

End Store.

(** ** Vocabulary of the statements *)

Ltac run := unfold bind, get, ret, when, the_config, daemon_warnx, emit,
  set_children; simpl.

(** What [record_child_exited] does to the table, whatever it logs. *)
Definition first_removed (pid : pid_t) (w w' : world) : Prop :=
  exists k,
    recorded w !! k = Some pid /\
    (forall j, j < k -> recorded w !! j <> Some pid) /\
    recorded w' = take k (recorded w) ++ drop (S k) (recorded w) /\
    S (num_child_pids w') = num_child_pids w.

Definition table_unchanged (w w' : world) : Prop :=
  child_pids w' = child_pids w /\ num_child_pids w' = num_child_pids w.

Definition same_process (w w' : world) : Prop :=
  config w' = config w /\ handlers w' = handlers w /\
  length (child_pids w') = length (child_pids w).

(** The tail of an interrupted call: the handler runs, the debug message
    is written, and the call returns -1. *)
Definition interrupted_tail (sig : signal) (fmt : string) : M pid_t :=
  deliver sig ;;;
  c <- the_config ;;
  when (Config.debug c) (daemon_warnx fmt) ;;;
  ret (-1)%Z.

(** The answers [usleep] gets: [k] uninterrupted sleeps, then [sig]. *)
Definition sleep_interrupted (sig : signal) (w : world) : Prop :=
  exists k rest,
    usleep_replies (os w) = replicate k Slept ++ SleepSignal sig :: rest.

(** What interrupts [wait_for_child_to_exit]: with no child recorded and
    [sleep_if_none] set, a signal during one of the sleeps; with children
    recorded, a signal during [wait]. *)
Definition interrupted_by (sig : signal) (sleep_if_none : bool) (w : world)
  : Prop :=
  (num_child_pids w = 0 /\ sleep_if_none = true /\ sleep_interrupted sig w) \/
  (num_child_pids w <> 0 /\
   exists rest, wait_replies (os w) = WaitSignal sig :: rest).

(** The table after [pid] was reaped. *)
Definition reaped (pid : pid_t) (w w' : world) : Prop :=
  (pid ∈ recorded w -> first_removed pid w w') /\
  ((pid ∉ recorded w) -> table_unchanged w w').

(** An argument that lets the flag scans go on: it begins with a dash and
    is not ["--"]. *)
Definition is_flag (param : string) : Prop :=
  not_dash param = false /\ param <> "--".

(** Position [k] of [argv] is reached by the flag scans, which start at
    position 1 and stop at the first argument that does not begin with a
    dash or that is ["--"]. *)
Definition leading (argv : list string) (k : nat) : Prop :=
  1 <= k /\
  forall j, 1 <= j < k -> exists param, argv !! j = Some param /\ is_flag param.

(** The two accepted forms of a flag that begins with ["--nbd"] and is
    not ["--nbd"] itself. *)
Definition nbd_form (flag : string) : Prop :=
  exists value,
    flag = "--nbd-flag=" +:+ value \/ flag = "--nbd-param=" +:+ value.

Definition bad_nbd_flag (flag : string) : Prop :=
  has_prefix "--nbd" flag = true /\ flag <> "--nbd" /\ ~ nbd_form flag.

(** The positional parameters: what follows the leading flags, and the
    ["--"] that ends them when there is one. *)
Fixpoint positional (params : list string) : list string :=
  match params with
  | [] => []
  | param :: rest =>
      if not_dash param then params
      else if streq param "--" then rest
      else positional rest
  end.

(** A message to the user: on standard error or through the logger. *)
Definition is_message (e : event) : bool :=
  match e with
  | Stderr _ | Usage | Log _ _ => true
  | _ => false
  end.

(** [main] gets as far as creating the store: no [--nbd] on the command
    line, a configuration [c], and neither [--erase] nor [--reset]. *)
Definition reaches_startup (argv : list string) (o : oracle) (c : s3b_config)
  : Prop :=
  look_for_nbd (drop 1 argv) = false /\
  s3backer_get_config o argv false false = Some c /\
  Config.nbd c = false /\ Config.erase c = false /\ Config.reset c = false.

(** The three start-up failures. *)
Inductive startup_failure (o : oracle) : Prop :=
| create_store_failed :
    s3backer_create_store o = false -> startup_failure o
| fuse_ops_create_failed :
    s3backer_create_store o = true -> fuse_ops_create o = false ->
    startup_failure o
| fuse_main_failed :
    s3backer_create_store o = true -> fuse_ops_create o = true ->
    fuse_main o <> 0%Z -> startup_failure o.

(** The exit status of the process, when the run ends with one. *)
Definition exit_status (out : outcome Z) : option Z :=
  match out with
  | Ret s _ | Exit s _ => Some s
  | _ => None
  end.

(** The statement that every start-up failure makes [main] itself emit a
    message and end with a nonzero status. *)
Definition startup_failures_logged (B : build) : Prop :=
  forall argv o c,
    reaches_startup argv o c -> startup_failure o ->
    let out := main B argv (initial_world o) in
    (exists e, e ∈ trace (world_of out) /\ is_message e = true) /\
    (exists s, exit_status out = Some s /\ s <> 0%Z).

(** ** Assertions about runs *)

(** [hoare P m Q E]: started in a state of [P], [m] neither fails an
    assertion nor faults; when it returns [a] the state satisfies [Q a];
    when the run ends in another way (exit, fatal signal, cut) the state
    satisfies [E]. *)
Definition hoare {A} (P : world -> Prop) (m : M A) (Q : A -> world -> Prop)
    (E : world -> Prop) : Prop :=
  forall w, P w ->
    match m w with
    | Ret a w' => Q a w'
    | Abort _ | Fault _ => False
    | Exit _ w' | Signalled _ w' | Cut w' => E w'
    end.

(** The child table and the configuration are the same in both states. *)
Definition same_table (w w' : world) : Prop :=
  child_pids w' = child_pids w /\ num_child_pids w' = num_child_pids w /\
  config w' = config w.

(** [quiet C m]: started in a state of [C], [m] neither fails an
    assertion nor faults, and however it ends it leaves the child table
    and the configuration alone. *)
Definition quiet {A} (C : world -> Prop) (m : M A) : Prop :=
  forall w, C w ->
    match m w with
    | Abort _ | Fault _ => False
    | out => same_table w (world_of out)
    end.

Definition any_state (w : world) : Prop := True.
Definition has_config (w : world) : Prop := is_Some (config w).

(** At most [n] children are recorded, in an array of
    [MAX_CHILD_PROCESSES] entries. *)
Definition table_within (n : nat) (w : world) : Prop :=
  num_child_pids w <= n /\ length (child_pids w) = MAX_CHILD_PROCESSES.

Definition configured_within (n : nat) (w : world) : Prop :=
  table_within n w /\ has_config w.

(** The run neither failed an assertion nor faulted. *)
Definition sound_run {A} (out : outcome A) : bool :=
  match out with
  | Abort _ | Fault _ => false
  | _ => true
  end.

(** A sound run that ends with at most three children recorded in an
    array of [MAX_CHILD_PROCESSES] entries. *)
Definition three_children_run {A} (out : outcome A) : Prop :=
  sound_run out = true /\
  num_child_pids (world_of out) <= 3 /\
  length (child_pids (world_of out)) = MAX_CHILD_PROCESSES.

(** What [kill_remaining_children] does for the children [pids]: nothing
    for [except], and for every other one a [kill] with [SIGTERM],
    between the two debugging messages. *)
Definition kill_events (c : s3b_config) (o : oracle) (except : pid_t)
    (pids : list pid_t) : list event :=
  pids ≫= fun pid =>
    if decide (pid = except) then []
    else (if Config.debug c then [Log LOG_WARNING "killing child %d"] else [])
         ++ [Kill pid SIGTERM]
         ++ (if negb (kill_ok o pid) && Config.debug c
             then [Log LOG_WARNING "kill(%d, %d)"] else []).

(** The command line of the clean-up [nbd-client]. *)
Definition clean_up_command (B : build) (device_param : string) : string_array :=
  [NBD_CLIENT_EXECUTABLE B; "-d"; device_param].

(** The rest of [clean_up] after [kill_remaining_children]. *)
Definition wait_and_unlink (unix_socket : string) : M Z :=
  w <- get ;;
  wait_for_all (S (length (wait_replies (os w)))) ;;;
  emit (Unlink unix_socket) ;;;
  ret 0%Z.

(** The process once [handle_signal] is the action of each of the
    [forward_signals] (lines 377-383). *)
Definition installed (w : world) : world :=
  {| child_pids := child_pids w; num_child_pids := num_child_pids w;
     config := config w; handlers := rev forward_signals ++ handlers w;
     trace := trace w ++ map Sigaction forward_signals; os := os w |}.

(** What a wait of the supervision loop adds to the trace: the calls of
    [wait] and [usleep] and the messages logged around them. *)
Definition waiting_event (e : event) : bool :=
  match e with
  | Wait | Usleep | Log _ _ => true
  | _ => false
  end.

(** What ends the supervision loop (lines 386-392), in terms of what
    [wait] and [usleep] are going to answer: one of the forwarded signals
    interrupts the wait; a child other than [client_pid] exits; or
    [nbd-client] exits first, which leaves [client_pid = -2], and one of
    these things happens afterwards. *)
Inductive loop_trigger (c : s3b_config) : pid_t -> world -> Prop :=
| signal_arrives client_pid w sig :
    sig ∈ forward_signals ->
    interrupted_by sig (negb (Config.foreground c)) w ->
    loop_trigger c client_pid w
| other_child_exits client_pid w p rest :
    num_child_pids w <> 0 ->
    wait_replies (os w) = WaitPid p :: rest ->
    Z.pos p <> client_pid ->
    loop_trigger c client_pid w
| client_exits_first client_pid w p rest w1 :
    num_child_pids w <> 0 ->
    wait_replies (os w) = WaitPid p :: rest ->
    Z.pos p = client_pid ->
    wait_for_child_to_exit (negb (Config.foreground c)) w = Ret (Z.pos p) w1 ->
    loop_trigger c (-2)%Z w1 ->
    loop_trigger c client_pid w.

(** The state in which the supervision loop of [supervise_children] ends,
    when every [sigaction] succeeds. *)
Definition loop_end (client_pid : pid_t) (w : world) : world :=
  world_of (supervise (S (length (wait_replies (os w)))) client_pid (installed w)).

(** Forwarding as a property of every run: with both servers running and
    the handlers installed, whatever ends the loop gets [SIGTERM] sent to
    every child recorded at that point, the clean-up [nbd-client] apart
    (when there is one: the pid [fork_off] returns for it). *)
Definition forwards_whenever (B : build) : Prop :=
  forall (client_pid : pid_t) (device_param unix_socket : string)
         (w : world) (c : s3b_config),
    config w = Some c -> table_within 2 w -> (0 < client_pid)%Z ->
    (forall sig, sig ∈ forward_signals -> sigaction_ok (os w) sig = true) ->
    loop_trigger c client_pid (installed w) ->
    forall pid,
      pid ∈ recorded (loop_end client_pid w) ->
      (forall q rest,
         fork_replies (os (loop_end client_pid w)) = Some q :: rest ->
         pid <> Z.pos q) ->
      Kill pid SIGTERM
      ∈ trace (world_of (supervise_children B client_pid device_param
                           unix_socket w)).

(** ** The store as a map from indices to blocks *)

Module StoreSpec.
Import Store.

Section Contents.

Context (block_size : nat) (md5 : block -> block) (max_retries : nat).

Definition object_content (o : option object) : block :=
  match o with
  | Some o => body o
  | None => zeros block_size
  end.

(** What the layers below the zero cache hold for block [i]. *)
Definition lower_content (i : nat) (s : store) : block :=
  match ec s !! i with
  | Some d => d
  | None => object_content (latest s !! i)
  end.

(** What the zero cache and the layers below it hold for block [i]. *)
Definition zc_content (i : nat) (s : store) : block :=
  if decide (i ∈ zero_bits s) then zeros block_size else lower_content i s.

(** The data an entry holds. *)
Definition entry_data (e : entry) : option block :=
  match e with
  | Clean d | Dirty d | Writing d | Writing2 _ d | Reading2 d => Some d
  | Reading => None
  end.

(** The content of block [i]: the data of its cache entry when it has
    some, what lies below otherwise. *)
Definition content (i : nat) (s : store) : block :=
  match cache s !! i ≫= entry_data with
  | Some d => d
  | None => zc_content i s
  end.

(** The states the layers keep themselves in. *)
Record wf (s : store) : Prop := {
  wf_settled : forall i, ec s !! i = None -> stale s !! i = None;
  wf_intact : forall i o, latest s !! i = Some o ->
                intact block_size md5 o = true;
  wf_remembered : forall i d, ec s !! i = Some d ->
                    object_content (latest s !! i) = d;
  wf_clean : forall i d, cache s !! i = Some (Clean d) -> zc_content i s = d;
  wf_length : forall i e d, cache s !! i = Some e -> entry_data e = Some d ->
                length d = block_size;
  wf_inflight : forall i inflight d, cache s !! i = Some (Writing2 inflight d) ->
                  length inflight = block_size;
  wf_zero_bit : forall i, i ∈ zero_bits s -> latest s !! i = None;
  wf_nonzero : forall i o, latest s !! i = Some o -> body o <> zeros block_size
}.

(** A step between a [write] of block [i] and the [read] that follows
    it: anything but another [write] of [i]; payloads have the block
    size. *)
Definition allowed (i : nat) (st : step) : Prop :=
  match st with
  | WriteOp j y => j <> i /\ length y = block_size
  | _ => True
  end.

(** The layers below the cache hold the same for every block but [i]. *)
Definition same_but (i : nat) (s s' : store) : Prop :=
  forall j, j <> i ->
    (j ∈ zero_bits s' <-> j ∈ zero_bits s) /\
    ec s' !! j = ec s !! j /\
    latest s' !! j = latest s !! j /\
    stale s' !! j = stale s !! j.

(** A step whose payload, when it has one, has the block size. *)
Definition well_sized (st : step) : Prop :=
  match st with
  | WriteOp _ y => length y = block_size
  | _ => True
  end.

(** A step that comes in time: an entry of EC protect expires only once
    the bucket has converged for its key, that is, [min_write_delay]
    outlasts the convergence. *)
Definition timely_step (st : step) (s : store) : Prop :=
  match st with
  | Expire j => stale s !! j = None
  | _ => True
  end.

(** A schedule every step of which comes in time, from [s] on. *)
Fixpoint timely (steps : list step) (s : store) : Prop :=
  match steps with
  | [] => True
  | st :: rest =>
      timely_step st s /\ timely rest (do_step block_size md5 max_retries st s)
  end.

(** Read-after-write as a property of every schedule: whatever happens
    between the [write] of [x] and the [read], except another write of the
    block, the [read] returns [x]. *)
Definition reads_back : Prop :=
  forall (i : nat) (x : block) (s : store) (steps : list step),
    wf s -> length x = block_size -> Forall (allowed i) steps ->
    fst (bc_read block_size md5 max_retries i
           (run block_size md5 max_retries steps
              (snd (bc_write i x s))))
    = Ok x.

(** A [read] of block [i] has to wait for a fetch: the block has no
    entry, or its entry is being read. *)
Definition fetching (i : nat) (s : store) : Prop :=
  cache s !! i = None \/ cache s !! i = Some Reading \/
  exists d, cache s !! i = Some (Reading2 d).

(** The surfacing of [INTEGRITY] as a property of every state: when the
    fetch a [read] waits for fails the integrity check, the [read] returns
    [INTEGRITY]. *)
Definition integrity_surfaces : Prop :=
  forall (i : nat) (s : store),
    fetching i s ->
    fst (zc_read block_size md5 max_retries i s) = Err INTEGRITY ->
    fst (bc_read block_size md5 max_retries i s) = Err INTEGRITY.

(** The zero cache knows that block [i] is zero, the bucket holds no
    object for it, and its entry, if any, waits for no write. *)
Definition zero_known (i : nat) (s : store) : Prop :=
  (cache s !! i = None \/ cache s !! i = Some Reading \/
   cache s !! i = Some (Clean (zeros block_size))) /\
  i ∈ zero_bits s /\ latest s !! i = None.

(** Block [i] from a write of zeros to its next write: its entry holds
    zeros that are still to be propagated, or the zeros have reached the
    zero cache and the bucket. *)
Definition zero_written (i : nat) (s : store) : Prop :=
  cache s !! i = Some (Dirty (zeros block_size)) \/
  cache s !! i = Some (Writing (zeros block_size)) \/
  (exists inflight, cache s !! i = Some (Writing2 inflight (zeros block_size))) \/
  cache s !! i = Some (Reading2 (zeros block_size)) \/
  zero_known i s.

(** Nothing has changed for block [i]: its entry, its bit, its object. *)
Definition untouched (i : nat) (s s' : store) : Prop :=
  cache s' !! i = cache s !! i /\
  (i ∈ zero_bits s' <-> i ∈ zero_bits s) /\
  latest s' !! i = latest s !! i.

(** A transport failure that the HTTP layer returns. *)
Definition transport_failure (e : error) : Prop := e = IO \/ e = AUTH.

(** The errors a read of the HTTP layer and of EC protect can return. *)
Definition read_error_below (e : error) : Prop :=
  e = NOT_FOUND \/ e = INTEGRITY \/ transport_failure e.

(** The errors a read of the zero cache and of the block cache can
    return. *)
Definition read_error_above (e : error) : Prop :=
  e = INTEGRITY \/ transport_failure e.

(** A store whose bucket holds one corrupted object, for block 5. *)
Definition corrupted_store : store :=
  {| cache := ∅; zero_bits := ∅; ec := ∅;
     latest := {[5 := {| body := [Byte.x01]; etag := [] |}]};
     stale := ∅; net := [] |}.

(** A store of blocks of two bytes, with the identity as content hash:
    the bucket holds an object for block 5, and nothing is cached. *)
Definition stored_store : store :=
  {| cache := ∅; zero_bits := ∅; ec := ∅;
     latest := {[5 := {| body := [Byte.x09; Byte.x09];
                         etag := [Byte.x09; Byte.x09] |}]};
     stale := ∅; net := [] |}.

(** The empty store: nothing cached, nothing stored, every block zero. *)
Definition empty_store : store :=
  {| cache := ∅; zero_bits := ∅; ec := ∅; latest := ∅; stale := ∅; net := [] |}.

End Contents.

End StoreSpec.

(** ** Sample data *)

Module Sample.

Definition B : build :=
  {| NBDKIT := true; PACKAGE := "s3backer";
     NBDKIT_EXECUTABLE := "nbdkit"; NBD_CLIENT_EXECUTABLE := "nbd-client";
     S3B_NBD_DIR := "/run/s3backer-nbd"; NBD_S3B_PARAM_PREFIX := "s3b_";
     NBD_BUCKET_PARAMETER_NAME := "bucket";
     sizeof_dev_t := 8; sizeof_ino_t := 8 |}.

Definition c : s3b_config :=
  {| Config.nbd := false; Config.erase := false; Config.reset := false;
     Config.foreground := true; Config.debug := false;
     Config.read_only := false; Config.mount := "/mnt";
     Config.fuse_args := ["s3backer"; "/mnt"] |}.

(** An environment in which the store is created and [fuse_ops_create]
    fails. *)
Definition o : oracle :=
  {| stat_replies := [StatOk 5 77; StatErr ENOENT; StatOk 5 78];
     fork_replies := [Some 100%positive; Some 101%positive; Some 102%positive];
     wait_replies := [WaitPid 101; WaitSignal SIGTERM; WaitPid 102; WaitPid 100];
     usleep_replies := [Slept; SleepSignal SIGINT];
     sigaction_ok := fun _ => true; kill_ok := fun _ => true;
     daemon_ok := true;
     s3backer_get_config := fun _ _ _ => Some c;
     is_valid_s3b_flag := fun s => if streq s "blockSize" then 2%Z else 0%Z;
     s3backer_erase := 0; s3backer_reset := 0;
     s3backer_create_store := true; fuse_ops_create := false;
     fuse_main := 0 |}.

Definition argv : list string := ["s3backer"; "bucket"; "/mnt"].

(** A process with three children recorded and every handler in place. *)
Definition w : world :=
  {| child_pids := [100; 101; 102; 0; 0; 0; 0; 0; 0; 0]%Z;
     num_child_pids := 3; config := Some c;
     handlers := forward_signals; trace := []; os := o |}.

Definition nbd_argv : list string :=
  ["s3backer"; "--nbd"; "--blockSize=4k"; "--nbd-bogus"; "bucket"; "/dev/nbd0"].

(** Both servers run, [nbdkit] as 100 and [nbd-client] as 101, and no
    handler is installed yet.  [nbd-client] is going to exit first, then
    [SIGTERM] arrives; the clean-up client is started as 102. *)
Definition serving : world :=
  {| child_pids := [100; 101; 0; 0; 0; 0; 0; 0; 0; 0]%Z;
     num_child_pids := 2; config := Some c;
     handlers := []; trace := [];
     os := with_fork_replies [Some 102%positive] o |}.

(** The same servers; [SIGTERM] arrives at once, and the clean-up client
    cannot be started. *)
Definition serving_fork_fails : world :=
  {| child_pids := [100; 101; 0; 0; 0; 0; 0; 0; 0; 0]%Z;
     num_child_pids := 2; config := Some c;
     handlers := []; trace := [];
     os := with_wait_replies [WaitSignal SIGTERM] (with_fork_replies [None] o) |}.

End Sample.

(** ** Vocabulary of the further properties *)

(** [w] after the events [ext]. *)
Definition with_trace (w : world) (ext : list event) : world :=
  {| child_pids := child_pids w; num_child_pids := num_child_pids w;
     config := config w; handlers := handlers w;
     trace := trace w ++ ext; os := os w |}.

(** The messages written under [config->debug]. *)
Definition debug_log (c : s3b_config) (fmts : list string) : list event :=
  if Config.debug c then map (Log LOG_WARNING) fmts else [].

(** The messages of [start_child_process] before it forks: the
    executable, then one line for every parameter. *)
Definition executing_log (c : s3b_config) (params : list string) : list event :=
  debug_log c ("executing %s with these parameters:"
               :: replicate (length params) "  [%02d] '%s'").

(** The signals sent by the events [evs], in order. *)
Definition kills (evs : list event) : list (pid_t * signal) :=
  omap (fun e => match e with
                 | Kill pid sig => Some (pid, sig)
                 | _ => None
                 end) evs.

(** One poll of the socket file that finds nothing: the [stat] and the
    pause that follows it. *)
Definition poll (unix_socket : string) : list event :=
  [Stat unix_socket; Nanosleep].

(** The number of polls [wait_for_socket] makes at most: one for every
    multiple of [NBDKIT_STARTUP_WAIT_PAUSE] from 0 to
    [MAX_NBDKIT_STARTUP_WAIT_MILLIS]. *)
Definition max_polls : nat :=
  Z.to_nat (MAX_NBDKIT_STARTUP_WAIT_MILLIS / NBDKIT_STARTUP_WAIT_PAUSE + 1).

(** The events of the nbd mode: everything but the creation and the use
    of the backing store and of FUSE. *)
Definition nbd_side (e : event) : bool :=
  match e with
  | Erase | Reset | CreateStore | FuseOpsCreate | StoreShutdown
  | StoreDestroy | FuseMain _ | FuseOpsDestroy => false
  | _ => true
  end.

(** The events of the FUSE mode: no process is started, awaited or
    signalled, no file is looked at or removed, no handler is installed. *)
Definition fuse_side (e : event) : bool :=
  match e with
  | Usage | Stat _ | Unlink _ | ForkOff _ _ | Daemon | Nanosleep
  | Sigaction _ | Wait | Usleep | Kill _ _ => false
  | _ => true
  end.

Definition any_value {A} (a : A) : Prop := True.

(** [confined ok Q m]: whatever the state [m] starts in, the events it
    adds to the trace all satisfy [ok]; a value it returns satisfies [Q];
    a status it exits with is 1. *)
Definition confined {A} (ok : event -> bool) (Q : A -> Prop) (m : M A) : Prop :=
  forall w,
    (exists ext,
       trace (world_of (m w)) = trace w ++ ext /\ forallb ok ext = true) /\
    match m w with
    | Ret a _ => Q a
    | Exit status _ => status = 1%Z
    | _ => True
    end.

(** An early return of [trampoline_to_nbd] before it looks at the
    device: the usage code. *)
Definition usage_or_go {A} (r : early A) : Prop :=
  match r with
  | Return r => r = 2%Z
  | Continue _ => True
  end.

(** An early return of [start_servers]: no configuration (1) or the usage
    code (2). *)
Definition failure_or_go {A} (r : early A) : Prop :=
  match r with
  | Return r => r = 1%Z \/ r = 2%Z
  | Continue _ => True
  end.

(** A command line that reaches the trampoline and lets it succeed. *)
Definition nbd_run_argv : list string :=
  ["s3backer"; "--nbd"; "bucket"; "/dev/nbd0"].

(** The flags the scans go through: the arguments up to the first one
    that does not begin with a dash or that is ["--"]. *)
Fixpoint leading_flags (params : list string) : list string :=
  match params with
  | [] => []
  | param :: rest =>
      if not_dash param || streq param "--" then []
      else param :: leading_flags rest
  end.

(** [s] without its prefix [p], when it has this prefix. *)
Fixpoint strip_prefix (p s : string) : option string :=
  match p, s with
  | EmptyString, _ => Some s
  | String a p', String b s' =>
      if Ascii.eqb a b then strip_prefix p' s' else None
  | String _ _, EmptyString => None
  end.

(** A flag without its first two characters. *)
Definition flag_text (param : string) : string :=
  match param with
  | String _ (String _ text) => text
  | _ => ""
  end.

(** The nbdkit plugin parameter for an s3backer flag: ["--foo=bar"]
    becomes ["s3b_foo=bar"] and ["--foo"] becomes ["s3b_foo=true"] (with
    [NBD_S3B_PARAM_PREFIX] for ["s3b_"]). *)
Definition nbdkit_param (B : build) (param : string) : string :=
  NBD_S3B_PARAM_PREFIX B +:+
  (if decide (strchr_split "=" (flag_text param) = None)
   then flag_text param +:+ "=true"
   else flag_text param).

(** The flags that become plugin parameters: all but ["-f"] and ["-d"]. *)
Definition s3b_flags (params : list string) : list string :=
  filter (fun param => param <> "-f" /\ param <> "-d") (leading_flags params).

(** A flag the trampoline passes on: it begins with two dashes, and
    [is_valid_s3b_flag] knows its name as a boolean flag (1), then with no
    value or the value ["true"] in any case, or as a flag with a value
    (2), then with a value. *)
Definition accepted (o : oracle) (param : string) : bool :=
  match param with
  | String _ (String "-" text) =>
      match strchr_split "=" text with
      | Some (name, value) =>
          (is_valid_s3b_flag o name =? 1)%Z && strcaseeq value "true"
          || (is_valid_s3b_flag o name =? 2)%Z
      | None => (is_valid_s3b_flag o text =? 1)%Z
      end
  | _ => false
  end.

(** The events of the nbd mode that start no process. *)
Definition no_fork (e : event) : bool :=
  match e with
  | ForkOff _ _ => false
  | _ => nbd_side e
  end.

(** The processes started by the events [evs], in order: the executable
    and the command line of each. *)
Definition forks (evs : list event) : list (string * list string) :=
  omap (fun e => match e with
                 | ForkOff executable params => Some (executable, params)
                 | _ => None
                 end) evs.

(** From [w] to [w'] the trace has grown, and the processes [fs] were
    started. *)
Definition grows (w w' : world) (fs : list (string * list string)) : Prop :=
  exists ext, trace w' = trace w ++ ext /\ forks ext = fs.

(** The name of the socket file (line 229): the directory, then the
    device number and the inode number of the block device, each in
    hexadecimal with two digits a byte. *)
Definition unix_socket_name (B : build) (st_dev st_ino : Z) : string :=
  S3B_NBD_DIR B +:+ "/" +:+ hex_fixed (sizeof_dev_t B * 2) st_dev
    +:+ "_" +:+ hex_fixed (sizeof_ino_t B * 2) st_ino.

(** The command line of [nbdkit] (lines 247-323). *)
Definition nbdkit_command (B : build) (c : s3b_config) (x : extracted)
    (bucket_param unix_socket : string) : string_array :=
  [NBDKIT_EXECUTABLE B]
  ++ (if Config.debug c then ["--verbose"] else [])
  ++ (if Config.foreground c then ["--foreground"] else [])
  ++ (if Config.read_only c then ["--read-only"] else [])
  ++ ["--filter=exitlast"; "--unix"; unix_socket]
  ++ x_nbd_flags x
  ++ [PACKAGE B]
  ++ map (nbdkit_param B) (s3b_flags (drop 1 (x_kept x ++ x_rest x)))
  ++ [NBD_BUCKET_PARAMETER_NAME B +:+ "=" +:+ bucket_param]
  ++ x_nbd_params x.

(** The command line of [nbd-client] (lines 362-371). *)
Definition nbd_client_command (B : build) (c : s3b_config)
    (device_param unix_socket : string) : string_array :=
  [NBD_CLIENT_EXECUTABLE B; "-unix"; unix_socket; "-block-size";
   NBD_CLIENT_BLOCK_SIZE; "-nofork"]
  ++ (if Config.read_only c then ["-readonly"] else [])
  ++ [device_param].

(** The three things [main] can do to the bucket: erase it, reset its
    mounted flag, create the store that serves it. *)
Definition store_action (e : event) : bool :=
  match e with
  | Erase | Reset | CreateStore => true
  | _ => false
  end.

(** The status of a maintenance run: 0 when the operation returned 0. *)
Definition maintenance_status (r : Z) : Z := if (r =? 0)%Z then 0%Z else 1%Z.

(** A configured process with no child yet. *)
Definition configured : world :=
  {| child_pids := replicate MAX_CHILD_PROCESSES 0%Z; num_child_pids := 0;
     config := Some Sample.c; handlers := []; trace := []; os := Sample.o |}.

(** A command line with flags of every kind. *)
Definition flags_argv : list string :=
  ["s3backer"; "--nbd"; "--nbd-flag=-v"; "--blockSize=4k"; "--nbd-param=x=1";
   "bucket"; "/dev/nbd0"].

(** * Properties *)

(** ** C strings *)

Lemma streq_true a b : streq a b = true <-> a = b.
Proof. unfold streq. apply String.eqb_eq. Qed.

Lemma streq_false a b : streq a b = false <-> a <> b.
Proof. unfold streq. apply String.eqb_neq. Qed.

Lemma strchr_split_Some c s h t :
  strchr_split c s = Some (h, t) -> s = h +:+ String c t.
Proof.
  revert h t. induction s as [|a s IH]; intros h t; simpl; [discriminate|].
  destruct (Ascii.eqb a c) eqn:E.
  - apply Ascii.eqb_eq in E. intros [= <- <-]. now subst.
  - destruct (strchr_split c s) as [[h' t']|]; [|discriminate].
    intros [= <- <-].
    change (String a s = String a (h' +:+ String c t')).
    now rewrite <- (IH _ _ eq_refl).
Qed.

(** ** The child table *)

Lemma memmove_recorded {A} (a : list A) (i n : nat) :
  i < n -> n <= length a ->
  take (n - 1) (memmove a i (i + 1) (n - 1 - i))
  = take i (take n a) ++ drop (S i) (take n a).
Proof.
  intros Hi Hn. unfold memmove.
  rewrite take_take, Nat.min_l by lia.
  rewrite skipn_firstn_comm.
  replace (i + 1) with (S i) by lia.
  replace (n - 1 - i) with (n - S i) by lia.
  rewrite app_assoc, take_app_le.
  - apply take_ge. rewrite length_app, !length_take, length_drop. lia.
  - rewrite length_app, !length_take, length_drop. lia.
Qed.

Lemma length_memmove {A} (a : list A) (i n : nat) :
  i < n -> n <= length a ->
  length (memmove a i (i + 1) (n - 1 - i)) = length a.
Proof.
  intros Hi Hn. unfold memmove.
  rewrite !length_app, !length_take, !length_drop. lia.
Qed.

Lemma recorded_lookup (w : world) (i : nat) :
  i < num_child_pids w -> num_child_pids w <= length (child_pids w) ->
  recorded w !! i = Some (child_pids w !!! i).
Proof.
  intros Hi Hn. unfold recorded. rewrite lookup_take_lt by lia.
  apply list_lookup_lookup_total_lt. lia.
Qed.

Lemma record_child_exited_from_spec (fuel i : nat) (pid : pid_t) (w : world) :
  is_Some (config w) ->
  num_child_pids w <= length (child_pids w) ->
  num_child_pids w < fuel + i ->
  (forall j, j < i -> recorded w !! j <> Some pid) ->
  exists w',
    record_child_exited_from fuel i pid w = Ret tt w' /\
    same_process w w' /\ os w' = os w /\
    (first_removed pid w w' \/
     ((pid ∉ recorded w) /\ table_unchanged w w' /\ trace w' = trace w)).
Proof.
  intros [c Hc] Hn. revert i.
  assert (Hdone : forall i, num_child_pids w <= i ->
            (forall j, j < i -> recorded w !! j <> Some pid) ->
            pid ∉ recorded w).
  { intros i Hi Hbefore Hin. apply list_elem_of_lookup in Hin as [j Hj].
    assert (j < num_child_pids w).
    { unfold recorded in Hj. apply lookup_take_Some in Hj. lia. }
    apply (Hbefore j); [lia|assumption]. }
  induction fuel as [|fuel IH]; intros i Hfuel Hbefore.
  { eexists. split; [reflexivity|]. split; [repeat split|].
    split; [reflexivity|].
    right. split; [|repeat split]. apply (Hdone i); [lia|assumption]. }
  simpl. run.
  destruct (i <? num_child_pids w) eqn:Hi.
  - apply Nat.ltb_lt in Hi.
    pose proof (recorded_lookup w i Hi Hn) as Hlook.
    destruct (decide (child_pids w !!! i = pid)) as [Heq|Hne].
    + rewrite Hc. simpl.
      destruct (Config.debug c); simpl;
        (eexists; split; [reflexivity|]; simpl; split;
         [ repeat split; simpl; try assumption; rewrite length_memmove; lia
         | split; [reflexivity|];
           left; exists i; rewrite Hlook, Heq;
           repeat split; [assumption| |simpl; lia];
           unfold recorded at 1; simpl;
           rewrite memmove_recorded by lia; reflexivity ]).
    + apply IH; [lia|].
      intros j Hj. destruct (decide (j = i)) as [->|].
      * rewrite Hlook. congruence.
      * apply Hbefore. lia.
  - apply Nat.ltb_ge in Hi. eexists. split; [reflexivity|].
    split; [repeat split|]. split; [reflexivity|].
    right. split; [|repeat split].
    apply (Hdone i); [lia|assumption].
Qed.

Lemma record_child_exited_reaped (pid : pid_t) (w : world) :
  is_Some (config w) ->
  num_child_pids w <= length (child_pids w) ->
  exists w',
    record_child_exited pid w = Ret tt w' /\
    same_process w w' /\ os w' = os w /\ reaped pid w w'.
Proof.
  intros Hc Hn.
  destruct (record_child_exited_from_spec (S (num_child_pids w)) 0 pid w Hc Hn)
    as (w' & Hrun & Hs & Hos & Hcase); [lia|intros j Hj; lia|].
  exists w'. repeat split; try apply Hs; try assumption.
  - intros Hin. destruct Hcase as [Hrem|(Hnot & _)]; [exact Hrem|contradiction].
  - destruct Hcase as [Hrem|(_ & Htab & _)]; [|apply Htab].
    destruct Hrem as (k & Hk & _). exfalso. apply H, list_elem_of_lookup. eauto.
  - destruct Hcase as [Hrem|(_ & Htab & _)]; [|apply Htab].
    destruct Hrem as (k & Hk & _). exfalso. apply H, list_elem_of_lookup. eauto.
Qed.

(** C8. [record_child_exited] removes the first occurrence of [pid] from
    the recorded part of [child_pids], moving the later entries down one
    position in order and decrementing [num_child_pids]; when [pid] is not
    recorded the array and the count are left as they were. *)
Theorem record_child_exited_removes_first (pid : pid_t) (w : world) :
  is_Some (config w) ->
  num_child_pids w <= length (child_pids w) ->
  exists w',
    record_child_exited pid w = Ret tt w' /\
    (pid ∈ recorded w ->
     exists k,
       recorded w !! k = Some pid /\
       (forall j, j < k -> recorded w !! j <> Some pid) /\
       recorded w' = take k (recorded w) ++ drop (S k) (recorded w) /\
       S (num_child_pids w') = num_child_pids w) /\
    ((pid ∉ recorded w) ->
     child_pids w' = child_pids w /\ num_child_pids w' = num_child_pids w).
Proof.
  intros Hc Hn.
  destruct (record_child_exited_from_spec (S (num_child_pids w)) 0 pid w Hc Hn)
    as (w' & Hrun & _ & _ & Hcase); [lia|intros j Hj; lia|].
  exists w'. split; [exact Hrun|].
  destruct Hcase as [Hrem|(Hnot & Htab & _)].
  - split; [intros _; exact Hrem|].
    intros Hnot. destruct Hrem as (k & Hk & _).
    exfalso. apply Hnot. apply list_elem_of_lookup. eauto.
  - split; [intros Hin; contradiction|intros _; exact Htab].
Qed.

(** *** Blocking calls *)

Lemma usleep_eq (w : world) :
  usleep w =
  match usleep_replies (os w) with
  | [] => Cut {| child_pids := child_pids w; num_child_pids := num_child_pids w;
                 config := config w; handlers := handlers w;
                 trace := trace w ++ [Usleep]; os := os w |}
  | r :: rs => Ret r {| child_pids := child_pids w;
                        num_child_pids := num_child_pids w;
                        config := config w; handlers := handlers w;
                        trace := trace w ++ [Usleep];
                        os := with_usleep_replies rs (os w) |}
  end.
Proof. unfold usleep. run. destruct (usleep_replies (os w)); reflexivity. Qed.

Lemma wait_eq (w : world) :
  wait w =
  match wait_replies (os w) with
  | [] => Cut {| child_pids := child_pids w; num_child_pids := num_child_pids w;
                 config := config w; handlers := handlers w;
                 trace := trace w ++ [Wait]; os := os w |}
  | r :: rs => Ret r {| child_pids := child_pids w;
                        num_child_pids := num_child_pids w;
                        config := config w; handlers := handlers w;
                        trace := trace w ++ [Wait];
                        os := with_wait_replies rs (os w) |}
  end.
Proof. unfold wait. run. destruct (wait_replies (os w)); reflexivity. Qed.

Lemma interrupted_tail_Ret sig fmt w r w' :
  interrupted_tail sig fmt w = Ret r w' ->
  r = (-1)%Z /\ sig ∈ handlers w /\ is_Some (config w) /\
  table_unchanged w w' /\ same_process w w' /\ os w' = os w.
Proof.
  unfold interrupted_tail, deliver, handle_signal. run.
  destruct (decide (sig ∈ handlers w)) as [Hin|]; [|discriminate].
  destruct (config w) as [c|] eqn:Hc; simpl; [|discriminate].
  destruct (Config.debug c) eqn:Hd; simpl; rewrite ?Hc; simpl;
    rewrite ?Hd; simpl;
    intros [= <- <-]; simpl; rewrite ?Hc; repeat split; eauto.
Qed.

Lemma interrupted_tail_total sig fmt w :
  sig ∈ handlers w -> is_Some (config w) ->
  exists w', interrupted_tail sig fmt w = Ret (-1)%Z w'.
Proof.
  intros Hin [c Hc]. unfold interrupted_tail, deliver, handle_signal. run.
  destruct (decide (sig ∈ handlers w)); [|contradiction].
  rewrite Hc. simpl.
  destruct (Config.debug c) eqn:Hd; simpl; rewrite ?Hc; simpl;
    rewrite ?Hd; simpl; eauto.
Qed.

Lemma sleep_until_signal_Ret fuel w r w' :
  sleep_until_signal fuel w = Ret r w' ->
  r = (-1)%Z /\
  (exists sig, sleep_interrupted sig w /\ sig ∈ handlers w) /\
  is_Some (config w) /\ table_unchanged w w' /\ same_process w w'.
Proof.
  revert w. induction fuel as [|fuel IH]; intros w; [discriminate|].
  simpl. unfold bind at 1. rewrite usleep_eq.
  destruct (usleep_replies (os w)) as [|[|sig] rs] eqn:Hrs; [discriminate| |].
  - intros H.
    apply IH in H as (-> & (sig & (k & rest & Hk) & Hin) & Hc & Ht & Hs).
    simpl in *. split; [reflexivity|]. split.
    + exists sig. split; [|assumption]. exists (S k), rest. simpl. now subst rs.
    + repeat split; try apply Hc; try apply Ht; apply Hs.
  - intros H. apply interrupted_tail_Ret in H as (-> & Hin & Hc & Ht & Hs & _).
    simpl in *. split; [reflexivity|]. split.
    + exists sig. split; [|assumption]. now exists 0, rs.
    + repeat split; try apply Hc; try apply Ht; apply Hs.
Qed.

Lemma sleep_until_signal_total fuel sig k rest w :
  usleep_replies (os w) = replicate k Slept ++ SleepSignal sig :: rest ->
  sig ∈ handlers w -> is_Some (config w) -> k < fuel ->
  exists w', sleep_until_signal fuel w = Ret (-1)%Z w'.
Proof.
  revert fuel w.
  induction k as [|k IH]; intros fuel w Hk Hin Hc Hfuel;
    (destruct fuel as [|fuel]; [lia|]);
    simpl; unfold bind at 1; rewrite usleep_eq, Hk; simpl.
  - apply (interrupted_tail_total sig "rec'd signal during sleep"); assumption.
  - apply IH; simpl; try assumption; try reflexivity. lia.
Qed.


Lemma wait_for_child_to_exit_wait (sleep_if_none : bool) (w : world) :
  num_child_pids w <> 0 ->
  wait_for_child_to_exit sleep_if_none w =
  (r <- wait ;;
   match r with
   | WaitSignal sig => interrupted_tail sig "rec'd signal during wait"
   | WaitErr _ => daemon_err 1 "waitpid"
   | WaitPid p => record_child_exited (Z.pos p) ;;; ret (Z.pos p)
   end) w.
Proof.
  intros Hn. unfold wait_for_child_to_exit. unfold bind at 1. unfold get.
  destruct (num_child_pids w =? 0) eqn:E; [apply Nat.eqb_eq in E; lia|].
  reflexivity.
Qed.

Lemma wait_for_child_to_exit_sleep (sleep_if_none : bool) (w : world) :
  num_child_pids w = 0 ->
  wait_for_child_to_exit sleep_if_none w =
  if sleep_if_none
  then sleep_until_signal (S (length (usleep_replies (os w)))) w
  else Ret 0%Z w.
Proof.
  intros Hn. unfold wait_for_child_to_exit. unfold bind at 1. unfold get.
  rewrite Hn. simpl Nat.eqb. cbv iota. now destruct sleep_if_none.
Qed.

(** The three ways [wait_for_child_to_exit] returns, as one case analysis. *)
Lemma wait_for_child_to_exit_Ret (sleep_if_none : bool) (w : world) r w' :
  is_Some (config w) ->
  num_child_pids w <= length (child_pids w) ->
  wait_for_child_to_exit sleep_if_none w = Ret r w' ->
  (r = 0%Z /\ num_child_pids w = 0 /\ sleep_if_none = false /\ w' = w) \/
  (r = (-1)%Z /\ table_unchanged w w' /\ same_process w w' /\
   exists sig, interrupted_by sig sleep_if_none w /\ sig ∈ handlers w) \/
  (exists p rest,
     r = Z.pos p /\ num_child_pids w <> 0 /\
     wait_replies (os w) = WaitPid p :: rest /\
     os w' = with_wait_replies rest (os w) /\
     same_process w w' /\ reaped (Z.pos p) w w').
Proof.
  intros Hc Hn.
  destruct (decide (num_child_pids w = 0)) as [Hz|Hnz].
  - rewrite wait_for_child_to_exit_sleep by assumption.
    destruct sleep_if_none.
    + intros H. apply sleep_until_signal_Ret in H
        as (-> & (sig & Hsl & Hin) & _ & Ht & Hs).
      right; left. repeat split; try apply Ht; try apply Hs.
      exists sig. split; [|assumption]. left. auto.
    + intros [= <- <-]. left. auto.
  - rewrite wait_for_child_to_exit_wait by assumption.
    unfold bind at 1. rewrite wait_eq.
    destruct (wait_replies (os w)) as [|[p|sig|e] rest] eqn:Hr; try discriminate.
    + set (w1 := {| child_pids := child_pids w |}).
      destruct (record_child_exited_reaped (Z.pos p) w1) as
        (w2 & Hrun & Hs & Hos & Hreap); [exact Hc|exact Hn|].
      unfold bind. rewrite Hrun. intros [= <- <-].
      right; right. exists p, rest.
      split; [reflexivity|]. split; [assumption|]. split; [reflexivity|].
      split; [exact Hos|]. split; [exact Hs|exact Hreap].
    + intros H. apply interrupted_tail_Ret in H as (-> & Hin & _ & Ht & Hs & _).
      right; left. repeat split; try apply Ht; try apply Hs.
      exists sig. split; [|assumption]. right. eauto.
Qed.

Lemma wait_for_child_to_exit_signal (sleep_if_none : bool) (w : world) sig :
  is_Some (config w) ->
  interrupted_by sig sleep_if_none w -> sig ∈ handlers w ->
  exists w', wait_for_child_to_exit sleep_if_none w = Ret (-1)%Z w'.
Proof.
  intros Hc [(Hz & -> & k & rest & Hk)|(Hnz & rest & Hr)] Hin.
  - rewrite wait_for_child_to_exit_sleep by assumption.
    apply (sleep_until_signal_total _ sig k rest); try assumption.
    rewrite Hk, length_app, length_replicate. lia.
  - rewrite wait_for_child_to_exit_wait by assumption.
    unfold bind at 1. rewrite wait_eq, Hr.
    apply interrupted_tail_total; assumption.
Qed.

Lemma wait_for_child_to_exit_pid (sleep_if_none : bool) (w : world) p rest :
  is_Some (config w) ->
  num_child_pids w <= length (child_pids w) ->
  num_child_pids w <> 0 -> wait_replies (os w) = WaitPid p :: rest ->
  exists w', wait_for_child_to_exit sleep_if_none w = Ret (Z.pos p) w'.
Proof.
  intros Hc Hn Hnz Hr.
  rewrite wait_for_child_to_exit_wait by assumption.
  unfold bind at 1. rewrite wait_eq, Hr.
  set (w1 := {| child_pids := child_pids w |}).
  destruct (record_child_exited_reaped (Z.pos p) w1) as (w2 & Hrun & _);
    [exact Hc|exact Hn|].
  unfold bind. rewrite Hrun. eauto.
Qed.

(** C10. [wait_for_child_to_exit] returns 0 exactly when no child is
    recorded and [sleep_if_none] is false; it returns -1 exactly when a
    signal interrupts its sleep (no child recorded, [sleep_if_none] true)
    or its [wait]; any other value it returns is the pid of an exited
    child, which [record_child_exited] has then removed from the recorded
    list.  Each of the three returns does happen when its condition holds. *)
Theorem wait_for_child_to_exit_returns (sleep_if_none : bool) (w : world) :
  is_Some (config w) ->
  num_child_pids w <= length (child_pids w) ->
  (num_child_pids w = 0 /\ sleep_if_none = false ->
   wait_for_child_to_exit sleep_if_none w = Ret 0%Z w) /\
  (forall sig,
     interrupted_by sig sleep_if_none w -> sig ∈ handlers w ->
     exists w', wait_for_child_to_exit sleep_if_none w = Ret (-1)%Z w') /\
  (forall p rest,
     num_child_pids w <> 0 -> wait_replies (os w) = WaitPid p :: rest ->
     exists w', wait_for_child_to_exit sleep_if_none w = Ret (Z.pos p) w') /\
  (forall r w',
     wait_for_child_to_exit sleep_if_none w = Ret r w' ->
     (r = 0%Z <-> num_child_pids w = 0 /\ sleep_if_none = false) /\
     (r = (-1)%Z <-> exists sig, interrupted_by sig sleep_if_none w) /\
     (r <> 0%Z -> r <> (-1)%Z ->
      exists p rest,
        r = Z.pos p /\ wait_replies (os w) = WaitPid p :: rest /\
        reaped (Z.pos p) w w')).
Proof.
  intros Hc Hn. split; [|split; [|split]].
  - intros [Hz ->]. now rewrite wait_for_child_to_exit_sleep.
  - intros sig Hint Hin. now apply (wait_for_child_to_exit_signal _ _ sig).
  - intros p rest Hnz Hr. now apply (wait_for_child_to_exit_pid _ _ p rest).
  - intros r w' Hrun.
    apply wait_for_child_to_exit_Ret in Hrun
      as [(-> & Hz & -> & ->)|[(-> & _ & _ & sig & Hint & _)|
          (p & rest & -> & Hnz & Hr & _ & _ & Hreap)]]; try assumption.
    + split; [tauto|]. split; [|congruence].
      split; [discriminate|]. intros [sig [(_ & ? & _)|(? & _)]]; congruence.
    + split; [|split; [|congruence]].
      * split; [discriminate|]. intros [Hz ->].
        destruct Hint as [(_ & ? & _)|(? & _)]; congruence.
      * split; eauto.
    + split; [|split].
      * split; [discriminate|]. intros [? _]. contradiction.
      * split; [discriminate|].
        intros [sig [(? & _)|(_ & rest' & Hr')]]; congruence.
      * intros _ _. eauto.
Qed.

(** ** The command line *)

Lemma has_prefix_app (p s : string) :
  has_prefix p s = true -> exists t, s = p +:+ t.
Proof.
  unfold has_prefix. revert s. induction p as [|a p IH]; intros s; simpl.
  - intros _. now exists s.
  - destruct s as [|b s]; simpl; [discriminate|].
    destruct (Ascii.ascii_dec a b) as [Heq|]; [subst b|discriminate].
    intros H. apply IH in H as [t ->]. now exists t.
Qed.

Lemma leading_split (argv : list string) (k : nat) (flag : string) :
  leading argv k -> argv !! k = Some flag ->
  exists pre post,
    drop 1 argv = pre ++ flag :: post /\ Forall is_flag pre /\
    length pre = k - 1.
Proof.
  intros [Hk Hlead] Hflag.
  exists (take (k - 1) (drop 1 argv)), (drop k (drop 1 argv)).
  assert (Hlen : k < length argv) by (apply lookup_lt_Some in Hflag; lia).
  split; [|split].
  - rewrite <- (take_drop_middle (drop 1 argv) (k - 1) flag) at 1.
    + do 3 f_equal. lia.
    + rewrite lookup_drop. replace (1 + (k - 1)) with k by lia. assumption.
  - apply Forall_forall. intros p Hp.
    apply list_elem_of_lookup in Hp as [j Hj].
    apply lookup_take_Some in Hj as [Hj Hlt].
    rewrite lookup_drop in Hj.
    destruct (Hlead (1 + j)) as (p' & Hp' & Hfl); [lia|].
    congruence.
  - rewrite length_take, length_drop. lia.
Qed.

Lemma extract_nbd_flags_cases (kept todo : list string) nbd_flags nbd_params w :
  (exists w', extract_nbd_flags kept todo nbd_flags nbd_params w
              = Ret (Return 2%Z) w') \/
  (exists x, extract_nbd_flags kept todo nbd_flags nbd_params w
             = Ret (Continue x) w /\
             x_rest x = positional todo).
Proof.
  revert kept nbd_flags nbd_params.
  induction todo as [|flag rest IH]; intros kept nbd_flags nbd_params; simpl.
  - right. eexists. split; reflexivity.
  - destruct (not_dash flag); [right; eexists; split; reflexivity|].
    destruct (streq flag "--"); [right; eexists; split; reflexivity|].
    destruct (has_prefix "--nbd" flag); simpl; [|apply IH].
    destruct (streq flag "--nbd"); [apply IH|].
    destruct (strchr_split "=" flag) as [[name value]|];
      [|left; eexists; reflexivity].
    destruct (streq name "--nbd-flag"); [apply IH|].
    destruct (streq name "--nbd-param"); [apply IH|].
    left; eexists; reflexivity.
Qed.

Lemma is_flag_scan (flag : string) :
  is_flag flag -> not_dash flag = false /\ streq flag "--" = false.
Proof. intros [H1 H2]. split; [assumption|]. now apply streq_false. Qed.

Lemma bad_nbd_flag_is_flag (flag : string) : bad_nbd_flag flag -> is_flag flag.
Proof.
  intros (Hp & _ & _). apply has_prefix_app in Hp as [t ->].
  split; [reflexivity|discriminate].
Qed.

Lemma extract_nbd_flags_bad (pre post kept : list string) (flag : string)
    nbd_flags nbd_params w :
  Forall is_flag pre -> bad_nbd_flag flag ->
  exists w', extract_nbd_flags kept (pre ++ flag :: post) nbd_flags nbd_params w
             = Ret (Return 2%Z) w'.
Proof.
  intros Hpre Hbad. revert kept nbd_flags nbd_params.
  induction Hpre as [|a pre Ha Hpre IH]; intros kept nbd_flags nbd_params; simpl.
  - destruct (is_flag_scan flag (bad_nbd_flag_is_flag flag Hbad)) as [-> ->].
    destruct Hbad as (Hp & Hne & Hform). rewrite Hp. simpl.
    apply streq_false in Hne. rewrite Hne.
    destruct (strchr_split "=" flag) as [[name value]|] eqn:Hsplit;
      [|eexists; reflexivity].
    apply strchr_split_Some in Hsplit.
    destruct (streq name "--nbd-flag") eqn:E1.
    { apply streq_true in E1. subst name. exfalso. apply Hform.
      exists value. left. subst flag. reflexivity. }
    destruct (streq name "--nbd-param") eqn:E2.
    { apply streq_true in E2. subst name. exfalso. apply Hform.
      exists value. right. subst flag. reflexivity. }
    eexists; reflexivity.
  - destruct (is_flag_scan a Ha) as [-> ->].
    destruct (has_prefix "--nbd" a); simpl; [|apply IH].
    destruct (streq a "--nbd"); [apply IH|].
    destruct (strchr_split "=" a) as [[name value]|]; [|eexists; reflexivity].
    destruct (streq name "--nbd-flag"); [apply IH|].
    destruct (streq name "--nbd-param"); [apply IH|].
    eexists; reflexivity.
Qed.

Lemma look_for_nbd_true (params : list string) :
  look_for_nbd params = true <->
  exists pre post, params = pre ++ "--nbd" :: post /\ Forall is_flag pre.
Proof.
  induction params as [|param rest IH]; simpl.
  - split; [discriminate|]. intros (pre & post & H & _).
    destruct pre; discriminate.
  - destruct (not_dash param) eqn:Hd; simpl.
    { split; [discriminate|]. intros ([|a pre] & post & [= -> ->] & Hpre).
      - discriminate.
      - apply Forall_cons in Hpre as [[? _] _]. congruence. }
    destruct (streq param "--") eqn:Hdd.
    { split; [discriminate|]. apply streq_true in Hdd. subst param.
      intros ([|a pre] & post & [= <- ->] & Hpre).
      apply Forall_cons in Hpre as [[_ ?] _]. congruence. }
    destruct (streq param "--nbd") eqn:Hn.
    { split; [intros _|reflexivity]. apply streq_true in Hn. subst param.
      exists [], rest. split; [reflexivity|constructor]. }
    rewrite IH. apply streq_false in Hn, Hdd. split.
    + intros (pre & post & -> & Hpre). exists (param :: pre), post.
      split; [reflexivity|]. constructor; [split|]; assumption.
    + intros ([|a pre] & post & [= -> ->] & Hpre); [congruence|].
      apply Forall_cons in Hpre as [_ Hpre]. eauto.
Qed.

Lemma leading_join (argv pre post : list string) (flag : string) :
  drop 1 argv = pre ++ flag :: post -> Forall is_flag pre ->
  leading argv (S (length pre)) /\ argv !! S (length pre) = Some flag.
Proof.
  destruct argv as [|a0 params]; simpl; [destruct pre; discriminate|].
  rewrite drop_0. intros -> Hpre. split.
  - split; [lia|]. intros j Hj. destruct j as [|j]; [lia|]. simpl.
    destruct (pre !! j) as [p|] eqn:Hp.
    + exists p. rewrite lookup_app_l by (apply lookup_lt_Some in Hp; lia).
      split; [assumption|].
      eapply Forall_forall; [exact Hpre|]. apply list_elem_of_lookup. eauto.
    + apply lookup_ge_None in Hp. lia.
  - simpl. rewrite lookup_app_r by lia.
    now replace (length pre - length pre) with 0 by lia.
Qed.

Lemma two_remaining_usage (x : extracted) :
  length (x_rest x) <> 2 -> two_remaining x = Return 2%Z.
Proof.
  unfold two_remaining. destruct (x_rest x) as [|a [|b [|c l]]]; simpl;
    intros H; try reflexivity. lia.
Qed.

(** C9. [main] sets [nbd] exactly when the scan from position 1, which
    stops at the first argument that does not begin with a dash or that is
    ["--"], meets an argument that is ["--nbd"]; and [trampoline_to_nbd]
    returns 2 when a leading flag that begins with ["--nbd"] is neither
    ["--nbd"] nor of the form ["--nbd-flag=value"] or
    ["--nbd-param=value"], and when the positional parameters are not
    exactly two. *)
Theorem nbd_flag_scans (B : build) (argv : list string) (w : world) :
  (look_for_nbd (drop 1 argv) = true <->
   exists k, leading argv k /\ argv !! k = Some "--nbd") /\
  ((exists k flag,
      leading argv k /\ argv !! k = Some flag /\ bad_nbd_flag flag) \/
   length (positional (drop 1 argv)) <> 2 ->
   exists w', trampoline_to_nbd B argv w = Ret 2%Z w').
Proof.
  split.
  - rewrite look_for_nbd_true. split.
    + intros (pre & post & Hsplit & Hpre).
      exists (S (length pre)). now apply (leading_join argv pre post).
    + intros (k & Hlead & Hk).
      destruct (leading_split argv k _ Hlead Hk) as (pre & post & ? & ? & _).
      eauto.
  - intros Hcase. unfold trampoline_to_nbd. unfold bind at 1.
    destruct (extract_nbd_flags_cases (take 1 argv) (drop 1 argv) [] [] w)
      as [[w' Hret]|(x & Hret & Hrest)].
    { rewrite Hret. eauto. }
    destruct Hcase as [(k & flag & Hlead & Hk & Hbad)|Hlen].
    + destruct (leading_split argv k _ Hlead Hk) as (pre & post & Hs & Hpre & _).
      rewrite Hs in *.
      destruct (extract_nbd_flags_bad pre post (take 1 argv) flag [] [] w
                  Hpre Hbad) as [w' Hbadret].
      rewrite Hbadret. eauto.
    + rewrite Hret. rewrite two_remaining_usage by (now rewrite Hrest). eauto.
Qed.

(** ** Start-up failures of [main] *)

Lemma main_startup (B : build) (argv : list string) (o : oracle) (c : s3b_config) :
  reaches_startup argv o c ->
  main B argv (initial_world o) =
  (emit CreateStore ;;;
   (if s3backer_create_store o then ret tt
    else err 1 "error creating s3backer_store") ;;;
   when (negb (Config.foreground c)) (emit SetConfigLog) ;;;
   emit FuseOpsCreate ;;;
   if negb (fuse_ops_create o) then
     emit StoreShutdown ;;; emit StoreDestroy ;;; ret 1%Z
   else
     emit (Log LOG_INFO "s3backer process %lu for %s started") ;;;
     emit (FuseMain (Config.fuse_args c)) ;;;
     if negb (fuse_main o =? 0)%Z then
       emit (Log LOG_ERR "error starting FUSE") ;;;
       emit FuseOpsDestroy ;;; ret 1%Z
     else ret 0%Z)
    {| child_pids := replicate MAX_CHILD_PROCESSES 0%Z; num_child_pids := 0;
       config := Some c; handlers := [];
       trace := [GetConfig argv false false]; os := o |}.
Proof.
  intros (Hnbd & Hcfg & Hn & He & Hr). unfold main. rewrite Hnbd.
  unfold bind at 1. unfold emit at 1. unfold initial_world.
  unfold bind at 1. unfold get at 1.
  unfold bind at 1. unfold set_config at 1. cbn [os]. rewrite Hcfg.
  unfold bind at 1. unfold get at 1. cbn [config]. rewrite Hn, He, Hr.
  reflexivity.
Qed.

(** C5, as stated, fails: when [fuse_ops_create] returns [NULL], [main]
    shuts the store down and returns 1 without emitting any message. *)
Lemma startup_failures_logged_fails : ~ startup_failures_logged Sample.B.
Proof.
  intros H.
  destruct (H Sample.argv Sample.o Sample.c) as [(e & Hin & Hmsg) _].
  - repeat split.
  - apply fuse_ops_create_failed; reflexivity.
  - vm_compute in Hin.
    repeat (apply elem_of_cons in Hin as [->|Hin]; [discriminate|]).
    inversion Hin.
Qed.

(** C5, amended.  When [s3backer_create_store] returns [NULL], [main]
    writes a message with [err] and the process exits with status 1; when
    [fuse_main] returns nonzero, [main] logs an error through the
    configured logger, calls [fuse_ops_destroy] and returns 1; when
    [fuse_ops_create] returns [NULL], [main] invokes the store's
    [shutdown] and then its [destroy] and returns 1, and emits no message
    of its own. *)
Theorem main_startup_failures (B : build) (argv : list string) (o : oracle)
    (c : s3b_config) :
  reaches_startup argv o c ->
  let out := main B argv (initial_world o) in
  let before := [GetConfig argv false false; CreateStore] ++
                (if Config.foreground c then [] else [SetConfigLog]) ++
                [FuseOpsCreate] in
  (s3backer_create_store o = false ->
   exists w', out = Exit 1%Z w' /\
     trace w' = [GetConfig argv false false; CreateStore;
                 Stderr "error creating s3backer_store"]) /\
  (s3backer_create_store o = true -> fuse_ops_create o = false ->
   exists w', out = Ret 1%Z w' /\
     trace w' = before ++ [StoreShutdown; StoreDestroy] /\
     forall e, e ∈ trace w' -> is_message e = false) /\
  (s3backer_create_store o = true -> fuse_ops_create o = true ->
   fuse_main o <> 0%Z ->
   exists w', out = Ret 1%Z w' /\
     trace w' = before ++
       [Log LOG_INFO "s3backer process %lu for %s started";
        FuseMain (Config.fuse_args c);
        Log LOG_ERR "error starting FUSE"; FuseOpsDestroy]).
Proof.
  intros Hstart out before. subst out before.
  rewrite (main_startup B argv o c Hstart).
  split; [|split].
  - intros ->. eexists. split; reflexivity.
  - intros -> ->. destruct (Config.foreground c); simpl;
      (eexists; split; [reflexivity|]; split; [reflexivity|]);
      simpl; intros e Hin;
      repeat (apply elem_of_cons in Hin as [->|Hin]; [reflexivity|]);
      inversion Hin.
  - intros -> -> Hne. apply Z.eqb_neq in Hne.
    destruct (Config.foreground c); simpl; unfold bind; simpl; rewrite Hne;
      simpl; (eexists; split; reflexivity).
Qed.

Lemma main_startup_failures_witness :
  exists w', main Sample.B Sample.argv (initial_world Sample.o) = Ret 1%Z w' /\
    trace w' = [GetConfig Sample.argv false false; CreateStore; FuseOpsCreate;
                StoreShutdown; StoreDestroy] /\
    forall e, e ∈ trace w' -> is_message e = false.
Proof.
  refine (proj1 (proj2
    (main_startup_failures Sample.B Sample.argv Sample.o Sample.c _)) _ _).
  - repeat split.
  - reflexivity.
  - reflexivity.
Defined.

(** ** Rules for runs *)

Lemma hoare_ret {A} (P : world -> Prop) (a : A) Q E :
  (forall w, P w -> Q a w) -> hoare P (ret a) Q E.
Proof. intros H w Hw. now apply H. Qed.

Lemma hoare_bind {A B} (P : world -> Prop) (m : M A) (f : A -> M B) Q R E :
  hoare P m Q E -> (forall a, hoare (Q a) (f a) R E) -> hoare P (bind m f) R E.
Proof.
  intros Hm Hf w Hw. specialize (Hm w Hw). unfold bind.
  destruct (m w); try assumption. now apply Hf.
Qed.

Lemma hoare_weaken {A} (P P' : world -> Prop) (m : M A) (Q Q' : A -> world -> Prop)
    (E E' : world -> Prop) :
  hoare P m Q E -> (forall w, P' w -> P w) -> (forall a w, Q a w -> Q' a w) ->
  (forall w, E w -> E' w) -> hoare P' m Q' E'.
Proof.
  intros Hm HP HQ HE w Hw. specialize (Hm w (HP w Hw)).
  destruct (m w); auto.
Qed.

Lemma same_table_refl w : same_table w w.
Proof. repeat split. Qed.

Lemma same_table_trans w1 w2 w3 :
  same_table w1 w2 -> same_table w2 w3 -> same_table w1 w3.
Proof. unfold same_table. intros (-> & -> & ->) (-> & -> & ->). auto. Qed.

Lemma has_config_same_table w w' : same_table w w' -> has_config w -> has_config w'.
Proof. unfold has_config. intros (_ & _ & ->). auto. Qed.

Lemma quiet_any {A} (C : world -> Prop) (m : M A) : quiet any_state m -> quiet C m.
Proof. intros H w _. now apply H. Qed.

Lemma quiet_ret {A} C (a : A) : quiet C (ret a).
Proof. intros w _. apply same_table_refl. Qed.

Lemma quiet_bind_any {A B} (m : M A) (f : A -> M B) :
  quiet any_state m -> (forall a, quiet any_state (f a)) ->
  quiet any_state (bind m f).
Proof.
  intros Hm Hf w Hw. specialize (Hm w Hw). unfold bind.
  destruct (m w) as [a w'| | | | |]; try assumption.
  specialize (Hf a w' I).
  destruct (f a w'); try assumption; simpl in *; eapply same_table_trans; eauto.
Qed.

Lemma quiet_bind {A B} (m : M A) (f : A -> M B) :
  quiet has_config m -> (forall a, quiet has_config (f a)) ->
  quiet has_config (bind m f).
Proof.
  intros Hm Hf w Hw. specialize (Hm w Hw). unfold bind.
  destruct (m w) as [a w'| | | | |]; try assumption. simpl in Hm.
  specialize (Hf a w' (has_config_same_table _ _ Hm Hw)).
  destruct (f a w'); try assumption; simpl in *; eapply same_table_trans; eauto.
Qed.

Lemma quiet_get C : quiet C get.
Proof. intros w _. apply same_table_refl. Qed.

Lemma quiet_emit C e : quiet C (emit e).
Proof. intros w _. repeat split. Qed.

Lemma quiet_exit {A} C s : quiet C (@exit_ A s).
Proof. intros w _. repeat split. Qed.

Lemma quiet_cut {A} C : quiet C (fun w => @Cut A w).
Proof. intros w _. repeat split. Qed.

Lemma quiet_signalled {A} C sig : quiet C (fun w => @Signalled A sig w).
Proof. intros w _. repeat split. Qed.

Lemma quiet_set_os C o : quiet C (set_os o).
Proof. intros w _. repeat split. Qed.

Lemma quiet_add_handler C sig : quiet C (add_handler sig).
Proof. intros w _. repeat split. Qed.

Lemma quiet_the_config : quiet has_config the_config.
Proof.
  intros w [c Hc]. unfold the_config. rewrite Hc. apply same_table_refl.
Qed.

Lemma quiet_when C b m : quiet C m -> quiet C (when b m).
Proof. intros H. destruct b; [exact H|apply quiet_ret]. Qed.

Create HintDb quiet.
#[export] Hint Resolve quiet_ret quiet_get quiet_emit quiet_exit quiet_cut
  quiet_signalled quiet_set_os quiet_add_handler quiet_the_config
  quiet_when : quiet.

(** Steps through a computation, one bind at a time, splitting on every
    test it meets. *)
Ltac quiet_step :=
  match goal with
  | |- quiet any_state (bind _ _) => apply quiet_bind_any; [|intros ?]
  | |- quiet has_config (bind _ _) => apply quiet_bind; [|intros ?]
  | |- quiet _ (if ?b then _ else _) => destruct b eqn:?
  | |- quiet _ (match ?x with _ => _ end) => destruct x eqn:?
  | |- quiet _ (let (_, _) := ?x in _) => destruct x eqn:?
  | |- quiet _ (when _ _) => apply quiet_when
  | |- quiet has_config _ => solve [auto with quiet | apply quiet_any; auto with quiet]
  | |- quiet _ _ => solve [auto with quiet]
  end.
Ltac quiet_auto := solve [repeat quiet_step].

Lemma quiet_warnx C fmt : quiet C (warnx fmt).
Proof. apply quiet_emit. Qed.

Lemma quiet_daemon_warnx C fmt : quiet C (daemon_warnx fmt).
Proof. apply quiet_emit. Qed.

Lemma quiet_err {A} fmt s : quiet any_state (@err A s fmt).
Proof. unfold err. quiet_auto. Qed.

Lemma quiet_daemon_err {A} fmt s : quiet any_state (@daemon_err A s fmt).
Proof. unfold daemon_err. quiet_auto. Qed.

Lemma quiet_stat path : quiet any_state (stat path).
Proof. unfold stat. quiet_auto. Qed.

Lemma quiet_fork_off e p : quiet any_state (fork_off e p).
Proof. unfold fork_off. quiet_auto. Qed.

Lemma quiet_wait : quiet any_state wait.
Proof. unfold wait. quiet_auto. Qed.

Lemma quiet_usleep : quiet any_state usleep.
Proof. unfold usleep. quiet_auto. Qed.

#[export] Hint Resolve quiet_warnx quiet_daemon_warnx quiet_err
  quiet_daemon_err quiet_stat quiet_fork_off quiet_wait quiet_usleep : quiet.

Lemma quiet_add fail s a : quiet any_state fail -> quiet any_state (add fail s a).
Proof. intros H. unfold add. quiet_auto. Qed.

#[export] Hint Resolve quiet_add : quiet.

Lemma quiet_handle_signal sig : quiet has_config (handle_signal sig).
Proof. unfold handle_signal. quiet_auto. Qed.

#[export] Hint Resolve quiet_handle_signal : quiet.

Lemma quiet_deliver sig : quiet has_config (deliver sig).
Proof. unfold deliver. quiet_auto. Qed.

#[export] Hint Resolve quiet_deliver : quiet.

Lemma quiet_sleep_until_signal fuel : quiet has_config (sleep_until_signal fuel).
Proof. induction fuel; simpl; quiet_auto. Qed.

Lemma quiet_extract_nbd_flags kept todo nbd_flags nbd_params :
  quiet any_state (extract_nbd_flags kept todo nbd_flags nbd_params).
Proof.
  revert kept nbd_flags nbd_params.
  induction todo as [|flag rest IH]; intros kept nbd_flags nbd_params; simpl;
    quiet_auto.
Qed.

Lemma quiet_add_s3b_params B params command_line :
  quiet any_state (add_s3b_params B params command_line).
Proof.
  revert command_line.
  induction params as [|param rest IH]; intros command_line; simpl;
    quiet_auto.
Qed.

Lemma quiet_wait_for_socket fuel elapsed unix_socket :
  quiet any_state (wait_for_socket fuel elapsed unix_socket).
Proof. revert elapsed. induction fuel; intros elapsed; simpl; quiet_auto. Qed.

Lemma quiet_install_handlers sigs : quiet any_state (install_handlers sigs).
Proof. induction sigs; simpl; quiet_auto. Qed.

Lemma quiet_add_all fail (l : list string) (m : M string_array) :
  quiet any_state fail -> quiet any_state m ->
  quiet any_state (foldl (fun m s => a <- m ;; add fail s a) m l).
Proof.
  intros Hfail. revert m. induction l as [|s l IH]; intros m Hm; simpl.
  - exact Hm.
  - apply IH. quiet_auto.
Qed.

Lemma quiet_debug_params (params : list string) :
  quiet any_state
    (foldr (fun _ k => daemon_warnx "  [%02d] '%s'" ;;; k) (ret tt) params).
Proof. induction params; simpl; quiet_auto. Qed.

Lemma quiet_kill_remaining_children_from fuel i except :
  quiet has_config (kill_remaining_children_from fuel i except).
Proof. revert i. induction fuel; intros i; simpl; quiet_auto. Qed.

Lemma quiet_kill_remaining_children except :
  quiet has_config (kill_remaining_children except).
Proof.
  unfold kill_remaining_children. apply quiet_bind; [quiet_auto|intros w].
  apply quiet_kill_remaining_children_from.
Qed.

#[export] Hint Resolve quiet_sleep_until_signal quiet_extract_nbd_flags
  quiet_add_s3b_params quiet_wait_for_socket quiet_install_handlers
  quiet_add_all quiet_debug_params quiet_kill_remaining_children : quiet.

(** *** The bound on the child table *)

Lemma table_within_same_table n w w' :
  same_table w w' -> table_within n w -> table_within n w'.
Proof. unfold table_within. intros (-> & -> & _). auto. Qed.

Lemma table_within_le n k w : n <= k -> table_within n w -> table_within k w.
Proof. unfold table_within. intros ? [? ?]. split; [lia|assumption]. Qed.

Lemma hoare_quiet n {A} (m : M A) :
  quiet has_config m -> n <= 3 ->
  hoare (configured_within n) m (fun _ => configured_within n) (table_within 3).
Proof.
  intros Hq Hn w [Ht Hc]. specialize (Hq w Hc).
  destruct (m w); try assumption; simpl in Hq;
    try (apply (table_within_le n); [assumption|]);
    try (split; [|eapply has_config_same_table; eassumption]);
    eapply table_within_same_table; eassumption.
Qed.

Lemma hoare_quiet_any n {A} (m : M A) :
  quiet any_state m -> n <= 3 ->
  hoare (table_within n) m (fun _ => table_within n) (table_within 3).
Proof.
  intros Hq Hn w Ht. specialize (Hq w I).
  destruct (m w); try assumption; simpl in Hq;
    try (apply (table_within_le n); [assumption|]);
    eapply table_within_same_table; eassumption.
Qed.

Lemma hoare_get_bind {B} (P : world -> Prop) (k : world -> M B) Q E :
  (forall w0, P w0 -> hoare P (k w0) Q E) -> hoare P (w <- get ;; k w) Q E.
Proof. intros H w Hw. unfold bind, get. now apply H. Qed.

Lemma hoare_no_return {A} (P : world -> Prop) (m : M A) Q E :
  quiet any_state m -> (forall w a w', m w <> Ret a w') ->
  (forall w w', same_table w w' -> P w -> E w') -> hoare P m Q E.
Proof.
  intros Hq Hno HE w Hw. specialize (Hq w I). specialize (Hno w).
  destruct (m w) as [a w'| | | | |]; try assumption;
    try (eapply HE; eassumption).
  now destruct (Hno a w').
Qed.

Lemma daemon_err_no_return {A} s fmt w a w' : @daemon_err A s fmt w <> Ret a w'.
Proof. discriminate. Qed.

Lemma err_no_return {A} s fmt w a w' : @err A s fmt w <> Ret a w'.
Proof. discriminate. Qed.

Lemma configured_within_exit n w w' :
  n <= 3 -> same_table w w' -> configured_within n w -> table_within 3 w'.
Proof.
  intros Hn Hs [Ht _]. apply (table_within_le n); [assumption|].
  eapply table_within_same_table; eassumption.
Qed.

Lemma hoare_start_child_process n executable params :
  n < 3 ->
  hoare (configured_within n) (start_child_process executable params)
        (fun _ => configured_within (S n)) (table_within 3).
Proof.
  intros Hn. unfold start_child_process.
  eapply hoare_bind; [apply hoare_quiet; [quiet_auto|lia]|intros c; cbv beta].
  eapply hoare_bind; [apply hoare_quiet; [quiet_auto|lia]|intros ?; cbv beta].
  apply hoare_get_bind. intros w0 [[Hnum Hlen] _].
  assert (Hlt : (num_child_pids w0 <? MAX_CHILD_PROCESSES) = true).
  { apply Nat.ltb_lt. unfold MAX_CHILD_PROCESSES. lia. }
  rewrite Hlt. simpl negb. cbv iota.
  eapply hoare_bind; [apply hoare_quiet; [quiet_auto|lia]|intros [p|]; cbv beta].
  - apply hoare_get_bind. intros w1 [[Hnum1 Hlen1] _].
    assert (Hin : (num_child_pids w1 <? length (child_pids w1)) = true).
    { apply Nat.ltb_lt. rewrite Hlen1. unfold MAX_CHILD_PROCESSES. lia. }
    rewrite Hin.
    eapply hoare_bind with (Q := fun _ => configured_within (S n)).
    + intros w [_ Hc]. simpl. split; [split|exact Hc]; simpl.
      * lia.
      * now rewrite length_insert.
    + intros ?; cbv beta.
      eapply hoare_bind; [apply hoare_quiet; [quiet_auto|lia]|intros ?; cbv beta].
      apply hoare_ret. auto.
  - apply hoare_no_return; [quiet_auto|apply daemon_err_no_return|].
    intros w w'. apply configured_within_exit. lia.
Qed.

Lemma hoare_record_child_exited_from n fuel i pid :
  n <= 3 ->
  hoare (configured_within n) (record_child_exited_from fuel i pid)
        (fun _ => configured_within n) (table_within 3).
Proof.
  intros Hn. revert i. induction fuel as [|fuel IH]; intros i; simpl.
  - apply hoare_ret. auto.
  - apply hoare_get_bind. intros w0 [[Hnum Hlen] _].
    destruct (i <? num_child_pids w0) eqn:Hi; [|apply hoare_ret; auto].
    apply Nat.ltb_lt in Hi.
    destruct (decide (child_pids w0 !!! i = pid)); [|apply IH].
    eapply hoare_bind; [apply hoare_quiet; [quiet_auto|lia]|intros c; cbv beta].
    eapply hoare_bind; [apply hoare_quiet; [quiet_auto|lia]|intros ?; cbv beta].
    intros w [_ Hc]. simpl. split; [split|exact Hc]; simpl.
    + lia.
    + rewrite length_memmove; [assumption|lia|]. rewrite Hlen.
      unfold MAX_CHILD_PROCESSES. lia.
Qed.

Lemma hoare_record_child_exited n pid :
  n <= 3 ->
  hoare (configured_within n) (record_child_exited pid)
        (fun _ => configured_within n) (table_within 3).
Proof.
  intros Hn. unfold record_child_exited. apply hoare_get_bind. intros w0 _.
  now apply hoare_record_child_exited_from.
Qed.

Lemma hoare_wait_for_child_to_exit n sleep_if_none :
  n <= 3 ->
  hoare (configured_within n) (wait_for_child_to_exit sleep_if_none)
        (fun _ => configured_within n) (table_within 3).
Proof.
  intros Hn. unfold wait_for_child_to_exit.
  apply hoare_get_bind. intros w0 _.
  destruct (num_child_pids w0 =? 0).
  - apply hoare_quiet; [quiet_auto|lia].
  - eapply hoare_bind; [apply hoare_quiet; [quiet_auto|lia]|intros [p|sig|e]; cbv beta].
    + eapply hoare_bind; [now apply hoare_record_child_exited|intros ?; cbv beta].
      apply hoare_ret. auto.
    + apply hoare_quiet; [quiet_auto|lia].
    + apply hoare_quiet; [quiet_auto|lia].
Qed.

Lemma hoare_supervise n fuel client_pid :
  n <= 3 ->
  hoare (configured_within n) (supervise fuel client_pid)
        (fun _ => configured_within n) (table_within 3).
Proof.
  intros Hn. revert client_pid.
  induction fuel as [|fuel IH]; intros client_pid; simpl.
  - apply hoare_quiet; [quiet_auto|lia].
  - eapply hoare_bind; [apply hoare_quiet; [quiet_auto|lia]|intros c; cbv beta].
    eapply hoare_bind; [now apply hoare_wait_for_child_to_exit|intros exit_pid; cbv beta].
    destruct (exit_pid =? client_pid)%Z; [apply IH|apply hoare_ret; auto].
Qed.

Lemma hoare_wait_for_all n fuel :
  n <= 3 ->
  hoare (configured_within n) (wait_for_all fuel)
        (fun _ => configured_within n) (table_within 3).
Proof.
  intros Hn. induction fuel as [|fuel IH]; simpl.
  - apply hoare_quiet; [quiet_auto|lia].
  - eapply hoare_bind; [now apply hoare_wait_for_child_to_exit|intros r; cbv beta].
    destruct (r =? 0)%Z; [apply hoare_ret; auto|apply IH].
Qed.

Ltac hoare_quiet_step :=
  eapply hoare_bind; [apply hoare_quiet; [quiet_auto|lia]|intros ?; cbv beta].

Lemma hoare_clean_up B device_param unix_socket :
  hoare (configured_within 2) (clean_up B device_param unix_socket)
        (fun _ => table_within 3) (table_within 3).
Proof.
  unfold clean_up.
  do 3 hoare_quiet_step.
  eapply hoare_bind; [apply hoare_start_child_process; lia|intros ?; cbv beta].
  hoare_quiet_step.
  apply hoare_get_bind; intros w0 _.
  eapply hoare_bind; [apply hoare_wait_for_all; lia|intros ?; cbv beta].
  hoare_quiet_step.
  apply hoare_ret. now intros w [Ht _].
Qed.

Lemma hoare_supervise_children B client_pid device_param unix_socket :
  hoare (configured_within 2)
        (supervise_children B client_pid device_param unix_socket)
        (fun _ => table_within 3) (table_within 3).
Proof.
  unfold supervise_children.
  hoare_quiet_step.
  apply hoare_get_bind; intros w0 _.
  eapply hoare_bind; [apply hoare_supervise; lia|intros ?; cbv beta].
  apply hoare_clean_up.
Qed.

Ltac hoare_any_step :=
  eapply hoare_bind;
  [apply hoare_quiet_any; [quiet_auto|lia]|intros ?; cbv beta].

(** What [start_servers] leaves: a configured process with at most two
    children when it goes on, a table within the bound when it returns. *)
Lemma hoare_start_servers B x bucket_param device_param :
  hoare (table_within 0) (start_servers B x bucket_param device_param)
        (fun r w => match r with
                    | Continue _ => configured_within 2 w
                    | Return _ => table_within 3 w
                    end)
        (table_within 3).
Proof.
  unfold start_servers.
  eapply hoare_bind;
    [apply hoare_quiet_any; [quiet_auto|lia]|intros [st_dev st_ino|e]; cbv beta].
  2:{ apply hoare_no_return; [quiet_auto|apply err_no_return|].
      intros w w' Hs Ht. apply (table_within_le 0); [lia|].
      eapply table_within_same_table; eassumption. }
  do 4 hoare_any_step.
  apply hoare_get_bind; intros w0 _.
  eapply hoare_bind with
    (Q := fun _ w => table_within 0 w /\
                     config w = s3backer_get_config (os w0) (x_kept x ++ x_rest x) true true).
  { intros w Ht. simpl. split; [exact Ht|reflexivity]. }
  intros _. apply hoare_get_bind; intros w1 [Ht1 Hc1]. cbv beta.
  destruct (config w1) as [c|] eqn:Hcfg.
  2:{ apply hoare_ret. intros w [Ht _]. apply (table_within_le 0); [lia|assumption]. }
  eapply hoare_weaken with (P := configured_within 0) (E := table_within 3);
    [|intros w [Ht Hc]; split; [assumption|];
      unfold has_config; rewrite Hc, <- Hc1; eauto
     |intros r w H; exact H|auto].
  do 9 hoare_quiet_step.
  eapply hoare_bind; [apply hoare_quiet; [quiet_auto|lia]|intros [r|command_line]; cbv beta].
  { apply hoare_ret. intros w [Ht _]. apply (table_within_le 0); [lia|assumption]. }
  do 2 hoare_quiet_step.
  eapply hoare_bind; [apply hoare_start_child_process; lia|intros server_pid; cbv beta].
  eapply hoare_bind with (Q := fun _ => configured_within 1).
  { destruct (negb (Config.foreground c)); [|apply hoare_ret; auto].
    eapply hoare_bind; [apply hoare_wait_for_child_to_exit; lia|intros exit_pid; cbv beta].
    apply hoare_quiet; [quiet_auto|lia]. }
  intros ?; cbv beta.
  do 3 hoare_quiet_step.
  do 8 hoare_quiet_step.
  eapply hoare_bind; [apply hoare_start_child_process; lia|intros client_pid; cbv beta].
  apply hoare_ret. auto.
Qed.

Lemma hoare_table_ret {A} n (a : A) :
  n <= 3 -> hoare (table_within n) (ret a) (fun _ => table_within 3) (table_within 3).
Proof. intros Hn. apply hoare_ret. intros w. now apply table_within_le. Qed.

Lemma hoare_trampoline_to_nbd B argv :
  hoare (table_within 0) (trampoline_to_nbd B argv)
        (fun _ => table_within 3) (table_within 3).
Proof.
  unfold trampoline_to_nbd.
  eapply hoare_bind;
    [apply hoare_quiet_any; [quiet_auto|lia]|intros [r|x]; cbv beta].
  { apply hoare_table_ret. lia. }
  destruct (two_remaining x) as [r|[bucket_param device_param]].
  { apply hoare_table_ret. lia. }
  eapply hoare_bind; [apply hoare_start_servers|intros [r|[client_pid unix_socket]]; cbv beta].
  - apply hoare_ret. auto.
  - apply hoare_supervise_children.
Qed.

Lemma hoare_set_config n c :
  hoare (table_within n) (set_config c) (fun _ => table_within n) (table_within 3).
Proof. intros w Ht. exact Ht. Qed.

Lemma hoare_main B argv :
  hoare (table_within 0) (main B argv)
        (fun _ => table_within 3) (table_within 3).
Proof.
  unfold main. destruct (look_for_nbd (drop 1 argv)).
  - destruct (NBDKIT B).
    + eapply hoare_bind; [apply hoare_trampoline_to_nbd|intros i; cbv beta].
      destruct (i =? 2)%Z; apply hoare_quiet_any; try lia; quiet_auto.
    + apply hoare_no_return; [quiet_auto|apply err_no_return|].
      intros w w' Hs Ht. apply (table_within_le 0); [lia|].
      eapply table_within_same_table; eassumption.
  - hoare_any_step.
    apply hoare_get_bind; intros w0 _.
    eapply hoare_bind; [apply hoare_set_config|intros ?; cbv beta].
    apply hoare_get_bind; intros w1 _. cbv beta.
    eapply hoare_weaken with (Q := fun _ => table_within 0);
      [apply hoare_quiet_any; [|lia]| auto
       |intros r w; apply table_within_le; lia|auto].
    quiet_auto.
Qed.

(** C7.  The child supervision keeps its state in [child_pids] and
    [num_child_pids] alone, and however [trampoline_to_nbd] (or [main],
    which calls it) runs and wherever the run ends, at most three
    children are recorded in the array of [MAX_CHILD_PROCESSES = 10]
    entries: the assertion of [start_child_process] never fails and
    [child_pids] is never written out of bounds.  A run that the
    environment cuts short ends with the state it had reached, so the
    bound holds in every state a run passes through. *)
Theorem at_most_three_children (B : build) (argv : list string) (o : oracle) :
  three_children_run (trampoline_to_nbd B argv (initial_world o)) /\
  three_children_run (main B argv (initial_world o)) /\
  3 < MAX_CHILD_PROCESSES.
Proof.
  assert (Hinit : table_within 0 (initial_world o)).
  { split; [simpl; lia|apply length_replicate]. }
  split; [|split; [|unfold MAX_CHILD_PROCESSES; lia]].
  - pose proof (hoare_trampoline_to_nbd B argv _ Hinit) as H.
    destruct (trampoline_to_nbd B argv (initial_world o));
      try contradiction; destruct H; repeat split; assumption.
  - pose proof (hoare_main B argv _ Hinit) as H.
    destruct (main B argv (initial_world o));
      try contradiction; destruct H; repeat split; assumption.
Qed.

(** ** Forwarding of signals *)

Lemma kill_events_cons c o except pid pids :
  kill_events c o except (pid :: pids) =
  (if decide (pid = except) then []
   else (if Config.debug c then [Log LOG_WARNING "killing child %d"] else [])
        ++ [Kill pid SIGTERM]
        ++ (if negb (kill_ok o pid) && Config.debug c
            then [Log LOG_WARNING "kill(%d, %d)"] else []))
  ++ kill_events c o except pids.
Proof. reflexivity. Qed.

Lemma kill_events_kills c o except pids pid :
  pid ∈ pids -> pid <> except -> Kill pid SIGTERM ∈ kill_events c o except pids.
Proof.
  intros Hin Hne. unfold kill_events. apply list_elem_of_bind.
  exists pid. split; [|assumption].
  destruct (decide (pid = except)); [contradiction|].
  apply elem_of_app. right. apply elem_of_app. left. apply list_elem_of_singleton.
  reflexivity.
Qed.

Lemma kill_events_spares c o except pids sig :
  Kill except sig ∉ kill_events c o except pids.
Proof.
  unfold kill_events. intros Hin. apply list_elem_of_bind in Hin as (pid & Hin & _).
  destruct (decide (pid = except)) as [|Hne]; [inversion Hin|].
  apply elem_of_app in Hin as [Hin|Hin].
  { destruct (Config.debug c); [|inversion Hin].
    apply list_elem_of_singleton in Hin. discriminate. }
  apply elem_of_app in Hin as [Hin|Hin].
  { apply list_elem_of_singleton in Hin. congruence. }
  destruct (negb (kill_ok o pid) && Config.debug c); [|inversion Hin].
  apply list_elem_of_singleton in Hin. discriminate.
Qed.

Lemma kill_remaining_children_from_run fuel i except w c :
  config w = Some c ->
  num_child_pids w <= length (child_pids w) ->
  num_child_pids w < fuel + i ->
  exists w',
    kill_remaining_children_from fuel i except w = Ret tt w' /\
    trace w' = trace w ++ kill_events c (os w) except (drop i (recorded w)) /\
    same_table w w' /\ os w' = os w /\ handlers w' = handlers w.
Proof.
  revert i w. induction fuel as [|fuel IH]; intros i w Hc Hn Hfuel.
  { simpl. exists w. split; [reflexivity|].
    unfold recorded. rewrite drop_ge by (rewrite length_take; lia).
    rewrite app_nil_r. repeat split. }
  simpl. unfold bind at 1. unfold get.
  destruct (i <? num_child_pids w) eqn:Hi.
  2:{ apply Nat.ltb_ge in Hi. exists w. split; [reflexivity|].
      unfold recorded. rewrite drop_ge by (rewrite length_take; lia).
      rewrite app_nil_r. repeat split. }
  apply Nat.ltb_lt in Hi.
  pose proof (recorded_lookup w i Hi Hn) as Hlook.
  rewrite (drop_S _ _ _ Hlook), kill_events_cons.
  set (pid := child_pids w !!! i) in *.
  unfold bind at 1.
  destruct (decide (pid = except)) as [Heq|Hne].
  - simpl. destruct (IH (i + 1) w Hc Hn) as (w' & Hrun & Htr & Hrest); [lia|].
    exists w'. split; [exact Hrun|]. split; [|exact Hrest].
    rewrite Htr. now replace (i + 1) with (S i) by lia.
  - unfold the_config, bind. rewrite Hc.
    destruct (Config.debug c) eqn:Hd, (kill_ok (os w) pid) eqn:Hk; simpl;
      match goal with
      | |- exists w', kill_remaining_children_from _ _ _ ?w1 = _ /\ _ =>
          destruct (IH (i + 1) w1 Hc Hn) as (w' & Hrun & Htr & Hs & Hos & Hh);
            [simpl; lia|];
          exists w'; split; [exact Hrun|]; split;
            [rewrite Htr; simpl; replace (i + 1) with (S i) by lia;
             rewrite <- !app_assoc; reflexivity
            |repeat split; try apply Hs; assumption]
      end.
Qed.

Lemma bind_Ret {A B} (m : M A) (f : A -> M B) w b w' :
  bind m f w = Ret b w' -> exists a w1, m w = Ret a w1 /\ f a w1 = Ret b w'.
Proof. unfold bind. destruct (m w); try discriminate. eauto. Qed.

Lemma quiet_Ret {A} (C : world -> Prop) (m : M A) w a w' :
  quiet C m -> C w -> m w = Ret a w' -> same_table w w'.
Proof. intros Hq Hw Hrun. specialize (Hq w Hw). now rewrite Hrun in Hq. Qed.

(** A child that was started is recorded at the end of the list. *)
Lemma start_child_process_Ret executable params w pid w' :
  has_config w ->
  start_child_process executable params w = Ret pid w' ->
  num_child_pids w < length (child_pids w) /\
  (exists p, pid = Z.pos p) /\
  recorded w' = recorded w ++ [pid] /\
  num_child_pids w' = S (num_child_pids w) /\
  length (child_pids w') = length (child_pids w) /\
  config w' = config w.
Proof.
  intros Hc Hrun. unfold start_child_process in Hrun.
  apply bind_Ret in Hrun as (c & wa & Ha & Hrun).
  apply (quiet_Ret has_config) in Ha as Hsa; [|quiet_auto|assumption].
  apply bind_Ret in Hrun as (? & wb & Hb & Hrun).
  apply (quiet_Ret any_state) in Hb as Hsb; [|quiet_auto|exact I].
  apply bind_Ret in Hrun as (w0 & ? & [= <- <-] & Hrun).
  destruct (negb (num_child_pids wb <? MAX_CHILD_PROCESSES)); [discriminate|].
  apply bind_Ret in Hrun as (r & wc & Hc' & Hrun).
  apply (quiet_Ret any_state) in Hc' as Hsc; [|quiet_auto|exact I].
  destruct r as [p|]; [|discriminate].
  apply bind_Ret in Hrun as (w1 & ? & [= <- <-] & Hrun).
  apply bind_Ret in Hrun as (? & wd & Hd & Hrun).
  destruct (num_child_pids wc <? length (child_pids wc)) eqn:Hlt; [|discriminate].
  apply Nat.ltb_lt in Hlt. injection Hd as <-.
  apply bind_Ret in Hrun as (? & we & He & Hrun).
  apply (quiet_Ret any_state) in He as Hse; [|quiet_auto|exact I].
  injection Hrun as <- <-.
  pose proof (same_table_trans _ _ _ (same_table_trans _ _ _ Hsa Hsb) Hsc)
    as (Hpids & Hnum & Hcfg).
  destruct Hse as (Hpe & Hne & Hce). simpl in Hpe, Hne, Hce.
  rewrite Hnum, Hpids in *.
  split; [assumption|]. split; [eauto|].
  subst wd. simpl in Hpe, Hne, Hce.
  unfold recorded. rewrite Hpe, Hne, Hce, length_insert.
  repeat split; try assumption.
  rewrite (take_S_r _ _ (Z.pos p)) by (now apply list_lookup_insert_eq).
  now rewrite take_insert_ge by lia.
Qed.

Lemma install_handlers_run sigs w :
  match install_handlers sigs w with
  | Ret _ w1 =>
      trace w1 = trace w ++ map Sigaction sigs /\
      handlers w1 = rev sigs ++ handlers w /\
      same_table w w1 /\ os w1 = os w
  | Exit s w' =>
      s = 1%Z /\ same_table w w' /\
      exists ext, trace w' = trace w ++ ext /\ (Wait ∉ ext) /\ (Usleep ∉ ext)
  | _ => False
  end.
Proof.
  revert w. induction sigs as [|sig sigs IH]; intros w; simpl.
  - rewrite app_nil_r. repeat split.
  - unfold bind at 1. unfold emit at 1. unfold bind at 1. unfold get.
    cbn [os]. unfold bind at 1.
    destruct (sigaction_ok (os w) sig).
    + unfold add_handler.
      match goal with |- context [install_handlers sigs ?w1] =>
        specialize (IH w1); destruct (install_handlers sigs w1) end;
        try contradiction; simpl in IH.
      * destruct IH as (Htr & Hh & Hs & Hos).
        rewrite Htr, Hh, <- !app_assoc. repeat split; try apply Hs; assumption.
      * destruct IH as (-> & Hs & ext & Htr & Hw & Hu).
        split; [reflexivity|]. split; [repeat split; apply Hs|].
        exists (Sigaction sig :: ext). rewrite Htr, <- app_assoc.
        split; [reflexivity|]. split; intros Hin;
          apply elem_of_cons in Hin as [Hin|Hin]; try discriminate; contradiction.
    + simpl. split; [reflexivity|]. split; [repeat split|].
      exists [Sigaction sig; Log LOG_ERR "sigaction"].
      rewrite <- app_assoc. split; [reflexivity|].
      split; intros Hin;
        repeat (apply elem_of_cons in Hin as [Hin|Hin]; [discriminate|]);
        inversion Hin.
Qed.

Lemma supervise_step fuel client_pid w c :
  config w = Some c ->
  supervise (S fuel) client_pid w =
  (exit_pid <- wait_for_child_to_exit (negb (Config.foreground c)) ;;
   if (exit_pid =? client_pid)%Z then supervise fuel (-2)%Z
   else ret exit_pid) w.
Proof.
  intros Hc. simpl. unfold bind at 1. unfold the_config. now rewrite Hc.
Qed.

Lemma clean_up_eq B device_param unix_socket w :
  clean_up B device_param unix_socket w =
  (client_pid <- start_child_process (NBD_CLIENT_EXECUTABLE B)
                   (clean_up_command B device_param) ;;
   kill_remaining_children client_pid ;;;
   wait_and_unlink unix_socket) w.
Proof. reflexivity. Qed.

Lemma supervise_children_eq B client_pid device_param unix_socket w :
  supervise_children B client_pid device_param unix_socket w =
  match install_handlers forward_signals w with
  | Ret _ w1 =>
      (supervise (S (length (wait_replies (os w1)))) client_pid ;;;
       clean_up B device_param unix_socket) w1
  | Exit s w' => Exit s w'
  | Abort w' => Abort w'
  | Fault w' => Fault w'
  | Signalled s w' => Signalled s w'
  | Cut w' => Cut w'
  end.
Proof.
  unfold supervise_children. unfold bind at 1.
  destruct (install_handlers forward_signals w); reflexivity.
Qed.

(** ** The statements at sample inputs *)

Lemma record_child_exited_removes_first_witness :
  exists w',
    record_child_exited 101%Z Sample.w = Ret tt w' /\
    (101%Z ∈ recorded Sample.w ->
     exists k,
       recorded Sample.w !! k = Some 101%Z /\
       (forall j, j < k -> recorded Sample.w !! j <> Some 101%Z) /\
       recorded w' = take k (recorded Sample.w) ++ drop (S k) (recorded Sample.w) /\
       S (num_child_pids w') = num_child_pids Sample.w) /\
    ((101%Z ∉ recorded Sample.w) ->
     child_pids w' = child_pids Sample.w /\
     num_child_pids w' = num_child_pids Sample.w).
Proof.
  apply (record_child_exited_removes_first 101%Z Sample.w).
  - exists Sample.c. reflexivity.
  - simpl. lia.
Defined.

Lemma wait_for_child_to_exit_returns_witness :
  exists w',
    wait_for_child_to_exit false Sample.w = Ret 101%Z w' /\
    reaped 101%Z Sample.w w'.
Proof.
  destruct (wait_for_child_to_exit_returns false Sample.w) as (_ & _ & Hpid & Hret).
  - exists Sample.c. reflexivity.
  - simpl. lia.
  - destruct (Hpid 101%positive
                [WaitSignal SIGTERM; WaitPid 102; WaitPid 100]) as [w' Hrun].
    + simpl. lia.
    + reflexivity.
    + exists w'. split; [exact Hrun|].
      destruct (Hret _ _ Hrun) as (_ & _ & Hreap).
      destruct Hreap as (p & rest & Hp & _ & Hr); [discriminate|discriminate|].
      now injection Hp as <-.
Defined.

Lemma nbd_flag_scans_witness :
  exists w',
    trampoline_to_nbd Sample.B Sample.nbd_argv (initial_world Sample.o)
    = Ret 2%Z w'.
Proof.
  apply (proj2 (nbd_flag_scans Sample.B Sample.nbd_argv (initial_world Sample.o))).
  left. exists 3, "--nbd-bogus". split; [|split; [reflexivity|]].
  - split; [lia|]. intros j Hj.
    destruct j as [|[|[|j]]]; try lia; simpl; eexists;
      (split; [reflexivity|split; [reflexivity|discriminate]]).
  - split; [reflexivity|]. split; [discriminate|].
    intros [value [H|H]]; discriminate.
Defined.

(** * Further properties of main.c *)

(** ** Events, values and exit statuses of runs *)

Lemma confined_ret {A} ok (Q : A -> Prop) (a : A) : Q a -> confined ok Q (ret a).
Proof.
  intros H w. split; [|exact H]. exists []. simpl. now rewrite app_nil_r.
Qed.

Lemma confined_bind {A B} ok (Q1 : A -> Prop) (Q : B -> Prop)
    (m : M A) (f : A -> M B) :
  confined ok Q1 m -> (forall a, Q1 a -> confined ok Q (f a)) ->
  confined ok Q (bind m f).
Proof.
  intros Hm Hf w. destruct (Hm w) as [(ext & Htr & Hok) Hq]. unfold bind.
  destruct (m w) as [a w1| | | | |]; simpl in *; try (split; [eauto|assumption]).
  destruct (Hf a Hq w1) as [(ext' & Htr' & Hok') Hq']. split; [|exact Hq'].
  exists (ext ++ ext'). rewrite Htr', Htr, app_assoc. split; [reflexivity|].
  rewrite forallb_app, Hok, Hok'. reflexivity.
Qed.

Lemma confined_bind_any {A B} ok (Q : B -> Prop) (m : M A) (f : A -> M B) :
  confined ok any_value m -> (forall a, confined ok Q (f a)) ->
  confined ok Q (bind m f).
Proof. intros Hm Hf. apply (confined_bind ok any_value); auto. Qed.

Lemma confined_weaken {A} ok (Q Q' : A -> Prop) (m : M A) :
  confined ok Q m -> (forall a, Q a -> Q' a) -> confined ok Q' m.
Proof.
  intros Hm HQ w. destruct (Hm w) as [Hext Hq]. split; [exact Hext|].
  destruct (m w); auto.
Qed.

Lemma confined_any {A} ok (Q : A -> Prop) (m : M A) :
  confined ok Q m -> confined ok any_value m.
Proof. intros H. apply (confined_weaken ok Q); [exact H|]. now intros. Qed.

(** A computation that adds nothing to the trace and does not exit. *)
Lemma confined_silent {A} ok (m : M A) :
  (forall w, trace (world_of (m w)) = trace w) ->
  (forall w s w', m w <> Exit s w') ->
  confined ok any_value m.
Proof.
  intros Htr Hex w. split.
  - exists []. now rewrite Htr, app_nil_r.
  - specialize (Hex w). destruct (m w); try exact I. now destruct (Hex status w0).
Qed.

Lemma confined_get ok : confined ok any_value get.
Proof. now apply confined_silent. Qed.

Lemma confined_set_os ok o : confined ok any_value (set_os o).
Proof. now apply confined_silent. Qed.

Lemma confined_set_config ok c : confined ok any_value (set_config c).
Proof. now apply confined_silent. Qed.

Lemma confined_set_children ok pids n : confined ok any_value (set_children pids n).
Proof. now apply confined_silent. Qed.

Lemma confined_add_handler ok sig : confined ok any_value (add_handler sig).
Proof. now apply confined_silent. Qed.

Lemma confined_cut {A} ok (Q : A -> Prop) : confined ok Q (fun w => @Cut A w).
Proof. intros w. split; [|exact I]. exists []. simpl. now rewrite app_nil_r. Qed.

Lemma confined_signalled {A} ok (Q : A -> Prop) sig :
  confined ok Q (fun w => @Signalled A sig w).
Proof. intros w. split; [|exact I]. exists []. simpl. now rewrite app_nil_r. Qed.

Lemma confined_abort {A} ok (Q : A -> Prop) : confined ok Q (@abort A).
Proof. intros w. split; [|exact I]. exists []. simpl. now rewrite app_nil_r. Qed.

Lemma confined_fault {A} ok (Q : A -> Prop) : confined ok Q (@fault A).
Proof. intros w. split; [|exact I]. exists []. simpl. now rewrite app_nil_r. Qed.

Lemma confined_exit {A} ok (Q : A -> Prop) : confined ok Q (@exit_ A 1%Z).
Proof. intros w. split; [|reflexivity]. exists []. simpl. now rewrite app_nil_r. Qed.

Lemma confined_the_config ok : confined ok any_value the_config.
Proof.
  intros w. unfold the_config. destruct (config w); simpl;
    (split; [|exact I]); exists []; now rewrite app_nil_r.
Qed.

Lemma confined_emit ok e : ok e = true -> confined ok any_value (emit e).
Proof.
  intros H w. split; [|exact I]. exists [e]. simpl. now rewrite H.
Qed.

Lemma confined_when ok b m :
  confined ok any_value m -> confined ok any_value (when b m).
Proof. intros H. destruct b; [exact H|now apply confined_ret]. Qed.

Lemma confined_err {A} ok (Q : A -> Prop) fmt :
  ok (Stderr fmt) = true -> confined ok Q (@err A 1%Z fmt).
Proof.
  intros H. unfold err. apply confined_bind_any;
    [now apply confined_emit|intros _; apply confined_exit].
Qed.

Lemma confined_daemon_err {A} ok (Q : A -> Prop) fmt :
  ok (Log LOG_ERR fmt) = true -> confined ok Q (@daemon_err A 1%Z fmt).
Proof.
  intros H. unfold daemon_err. apply confined_bind_any;
    [now apply confined_emit|intros _; apply confined_exit].
Qed.

Create HintDb confined.
#[export] Hint Resolve confined_get confined_set_os confined_set_config
  confined_set_children confined_add_handler confined_cut
  confined_signalled confined_abort confined_fault confined_exit
  confined_the_config confined_when : confined.

(** An event is allowed: by computation, or because the set of allowed
    events is known to include those of [no_fork]. *)
Ltac allowed_event :=
  first [ reflexivity
        | match goal with
          | H : forall e, no_fork e = true -> ?ok e = true |- ?ok _ = true =>
              apply H; reflexivity
          end ].

#[export] Hint Extern 1 (confined _ _ (emit _)) =>
  apply confined_emit; allowed_event : confined.
#[export] Hint Extern 1 (confined _ _ (warnx _)) =>
  apply confined_emit; allowed_event : confined.
#[export] Hint Extern 1 (confined _ _ (daemon_warnx _)) =>
  apply confined_emit; allowed_event : confined.
#[export] Hint Extern 1 (confined _ _ (err _ _)) =>
  apply confined_err; allowed_event : confined.
#[export] Hint Extern 1 (confined _ _ (daemon_err _ _)) =>
  apply confined_daemon_err; allowed_event : confined.
#[export] Hint Extern 1 (confined _ _ (ret _)) =>
  apply confined_ret;
  first [exact I | reflexivity | (simpl in *; tauto) | (simpl in *; lia)]
  : confined.

Create HintDb confined_val.

(** Steps through a computation, one bind at a time, splitting on every
    test it meets. *)
Ltac confined_walk :=
  match goal with
  | |- confined _ _ (bind _ _) =>
      first [ eapply confined_bind; [solve [auto with confined_val]|intros ? ?]
            | apply confined_bind_any; [|intros ?] ]
  | |- confined _ _ (if ?b then _ else _) => destruct b eqn:?
  | |- confined _ _ (match ?x with _ => _ end) => destruct x eqn:?
  | |- confined _ _ (let (_, _) := ?x in _) => destruct x eqn:?
  | |- confined _ _ (when _ _) => apply confined_when
  | |- confined _ _ _ => solve [auto with confined]
  | |- confined _ any_value _ => solve [eapply confined_any; auto with confined_val]
  end.
Ltac confined_all := solve [repeat confined_walk].

Lemma no_fork_nbd_side e : no_fork e = true -> nbd_side e = true.
Proof. now destruct e. Qed.

#[export] Hint Resolve no_fork_nbd_side : confined confined_val.

Lemma confined_add ok fail s a :
  confined ok any_value fail -> confined ok any_value (add fail s a).
Proof. intros H. unfold add. confined_all. Qed.

#[export] Hint Resolve confined_add : confined.

Section NoFork.

Context (ok : event -> bool).
Hypothesis Hok : forall e, no_fork e = true -> ok e = true.

Lemma confined_stat path : confined ok any_value (stat path).
Proof. unfold stat. confined_all. Qed.

Lemma confined_wait : confined ok any_value wait.
Proof. unfold wait. confined_all. Qed.

Lemma confined_usleep : confined ok any_value usleep.
Proof. unfold usleep. confined_all. Qed.

Lemma confined_handle_signal sig : confined ok any_value (handle_signal sig).
Proof. unfold handle_signal. confined_all. Qed.

#[local] Hint Resolve confined_stat confined_wait confined_usleep
  confined_handle_signal : confined.

Lemma confined_deliver sig : confined ok any_value (deliver sig).
Proof. unfold deliver. confined_all. Qed.

#[local] Hint Resolve confined_deliver : confined.

Lemma confined_sleep_until_signal fuel :
  confined ok any_value (sleep_until_signal fuel).
Proof. induction fuel; simpl; confined_all. Qed.

Lemma confined_record_child_exited_from fuel i pid :
  confined ok any_value (record_child_exited_from fuel i pid).
Proof. revert i. induction fuel; intros i; simpl; confined_all. Qed.

#[local] Hint Resolve confined_sleep_until_signal confined_record_child_exited_from
  : confined.

Lemma confined_record_child_exited pid :
  confined ok any_value (record_child_exited pid).
Proof. unfold record_child_exited. confined_all. Qed.

#[local] Hint Resolve confined_record_child_exited : confined.

Lemma confined_wait_for_child_to_exit sleep_if_none :
  confined ok any_value (wait_for_child_to_exit sleep_if_none).
Proof. unfold wait_for_child_to_exit. confined_all. Qed.

Lemma confined_kill_remaining_children_from fuel i except :
  confined ok any_value (kill_remaining_children_from fuel i except).
Proof. revert i. induction fuel; intros i; simpl; confined_all. Qed.

#[local] Hint Resolve confined_wait_for_child_to_exit
  confined_kill_remaining_children_from : confined.

Lemma confined_kill_remaining_children except :
  confined ok any_value (kill_remaining_children except).
Proof. unfold kill_remaining_children. confined_all. Qed.

Lemma confined_wait_for_socket fuel elapsed unix_socket :
  confined ok any_value (wait_for_socket fuel elapsed unix_socket).
Proof. revert elapsed. induction fuel; intros elapsed; simpl; confined_all. Qed.

Lemma confined_supervise fuel client_pid :
  confined ok any_value (supervise fuel client_pid).
Proof. revert client_pid. induction fuel; intros client_pid; simpl; confined_all. Qed.

Lemma confined_wait_for_all fuel : confined ok any_value (wait_for_all fuel).
Proof. induction fuel; simpl; confined_all. Qed.

Lemma confined_install_handlers sigs :
  confined ok any_value (install_handlers sigs).
Proof. induction sigs; simpl; confined_all. Qed.

Lemma confined_add_all fail (l : list string) (m : M string_array) :
  confined ok any_value fail -> confined ok any_value m ->
  confined ok any_value (foldl (fun m s => a <- m ;; add fail s a) m l).
Proof.
  intros Hfail. revert m. induction l as [|s l IH]; intros m Hm; simpl.
  - exact Hm.
  - apply IH. confined_all.
Qed.

Lemma confined_extract_nbd_flags kept todo nbd_flags nbd_params :
  confined ok usage_or_go (extract_nbd_flags kept todo nbd_flags nbd_params).
Proof.
  revert kept nbd_flags nbd_params.
  induction todo as [|flag rest IH]; intros kept nbd_flags nbd_params; simpl;
    confined_all.
Qed.

Lemma confined_add_s3b_params B params command_line :
  confined ok usage_or_go (add_s3b_params B params command_line).
Proof.
  revert command_line.
  induction params as [|param rest IH]; intros command_line; simpl;
    confined_all.
Qed.

End NoFork.

#[export] Hint Resolve confined_stat confined_wait confined_usleep
  confined_handle_signal confined_deliver confined_sleep_until_signal
  confined_record_child_exited_from confined_record_child_exited
  confined_wait_for_child_to_exit confined_kill_remaining_children_from
  confined_kill_remaining_children confined_wait_for_socket
  confined_supervise confined_wait_for_all confined_install_handlers
  confined_add_all : confined.
#[export] Hint Resolve confined_extract_nbd_flags confined_add_s3b_params
  : confined_val.

Lemma confined_fork_off e p : confined nbd_side any_value (fork_off e p).
Proof. unfold fork_off. confined_all. Qed.

Lemma confined_debug_params ok (params : list string) :
  (forall e, no_fork e = true -> ok e = true) ->
  confined ok any_value
    (foldr (fun _ k => daemon_warnx "  [%02d] '%s'" ;;; k) (ret tt) params).
Proof. intros Hok. induction params; simpl; confined_all. Qed.

#[export] Hint Resolve confined_fork_off confined_debug_params : confined.

Lemma confined_start_child_process executable params :
  confined nbd_side any_value (start_child_process executable params).
Proof. unfold start_child_process. confined_all. Qed.

#[export] Hint Resolve confined_start_child_process : confined.

Lemma confined_clean_up B device_param unix_socket :
  confined nbd_side (fun r => r = 0%Z) (clean_up B device_param unix_socket).
Proof. unfold clean_up. confined_all. Qed.

Lemma confined_supervise_children B client_pid device_param unix_socket :
  confined nbd_side (fun r => r = 0%Z)
    (supervise_children B client_pid device_param unix_socket).
Proof.
  unfold supervise_children. do 3 (confined_walk; try confined_all).
  apply confined_clean_up.
Qed.

Lemma confined_start_servers B x bucket_param device_param :
  confined nbd_side failure_or_go (start_servers B x bucket_param device_param).
Proof. unfold start_servers. confined_all. Qed.

#[export] Hint Resolve confined_clean_up confined_supervise_children
  confined_start_servers : confined_val.

Lemma two_remaining_Return x r : two_remaining x = Return r -> r = 2%Z.
Proof.
  unfold two_remaining. destruct (x_rest x) as [|a [|b [|c l]]]; congruence.
Qed.

Lemma confined_trampoline_to_nbd B argv :
  confined nbd_side (fun r => r = 0 \/ r = 1 \/ r = 2)%Z (trampoline_to_nbd B argv).
Proof.
  unfold trampoline_to_nbd.
  confined_walk; try confined_all. destruct a as [r|x]; [confined_all|].
  destruct (two_remaining x) as [r|[bucket_param device_param]] eqn:Htwo.
  { apply two_remaining_Return in Htwo. confined_all. }
  confined_walk; try confined_all.
  destruct a as [r|[client_pid unix_socket]]; [confined_all|].
  eapply confined_weaken; [apply confined_supervise_children|].
  intros r ->. now left.
Qed.

Lemma confined_main B argv :
  confined (if look_for_nbd (drop 1 argv) then nbd_side else fuse_side)
    (fun r => r = 0 \/ r = 1)%Z (main B argv).
Proof.
  unfold main. destruct (look_for_nbd (drop 1 argv)).
  - destruct (NBDKIT B); [|confined_all].
    eapply confined_bind; [apply confined_trampoline_to_nbd|intros i Hi].
    destruct (Z.eqb_spec i 2); confined_all.
  - confined_all.
Qed.

(** ** Starting and reaping children *)

Lemma emit_eq e w : emit e w = Ret tt (with_trace w [e]).
Proof. reflexivity. Qed.

Lemma with_trace_nil w : with_trace w [] = w.
Proof. destruct w. unfold with_trace. simpl. now rewrite app_nil_r. Qed.

Lemma with_trace_app w a b : with_trace (with_trace w a) b = with_trace w (a ++ b).
Proof. unfold with_trace. simpl. now rewrite app_assoc. Qed.

Lemma debug_params_run (params : list string) (w : world) :
  foldr (fun _ k => daemon_warnx "  [%02d] '%s'" ;;; k) (ret tt) params w
  = Ret tt (with_trace w (map (Log LOG_WARNING)
                            (replicate (length params) "  [%02d] '%s'"))).
Proof.
  revert w. induction params as [|p params IH]; intros w; simpl.
  - now rewrite with_trace_nil.
  - unfold bind at 1. unfold daemon_warnx. rewrite emit_eq, IH.
    now rewrite with_trace_app.
Qed.

Lemma executing_run (c : s3b_config) (params : list string) (w : world) :
  when (Config.debug c)
    (daemon_warnx "executing %s with these parameters:" ;;;
     foldr (fun _ k => daemon_warnx "  [%02d] '%s'" ;;; k) (ret tt) params) w
  = Ret tt (with_trace w (executing_log c params)).
Proof.
  unfold executing_log, debug_log, when.
  destruct (Config.debug c).
  - unfold bind at 1. unfold daemon_warnx at 1. rewrite emit_eq, debug_params_run.
    now rewrite with_trace_app.
  - unfold ret. now rewrite with_trace_nil.
Qed.

Lemma start_child_process_eq executable params w c :
  config w = Some c ->
  start_child_process executable params w =
  (let w1 := with_trace w (executing_log c params) in
   if negb (num_child_pids w <? MAX_CHILD_PROCESSES) then Abort w1
   else
     (r <- fork_off executable params ;;
      match r with
      | None => daemon_err 1 "%s"
      | Some p =>
          let pid := Z.pos p in
          w <- get ;;
          (if num_child_pids w <? length (child_pids w)
           then set_children (<[num_child_pids w := pid]> (child_pids w))
                             (S (num_child_pids w))
           else fault) ;;;
          when (Config.debug c) (daemon_warnx "started %s as process %d") ;;;
          ret pid
      end) w1).
Proof.
  intros Hc. unfold start_child_process.
  unfold bind at 1. unfold the_config at 1. rewrite Hc.
  unfold bind at 1. rewrite executing_run.
  unfold bind at 1. unfold get at 1. cbv zeta.
  change (num_child_pids (with_trace w (executing_log c params)))
    with (num_child_pids w).
  now destruct (negb (num_child_pids w <? MAX_CHILD_PROCESSES)).
Qed.

Lemma fork_off_eq executable params w :
  fork_off executable params w =
  match fork_replies (os w) with
  | [] => Cut (with_trace w [ForkOff executable params])
  | r :: rs => Ret r {| child_pids := child_pids w;
                        num_child_pids := num_child_pids w;
                        config := config w; handlers := handlers w;
                        trace := trace w ++ [ForkOff executable params];
                        os := with_fork_replies rs (os w) |}
  end.
Proof. unfold fork_off. run. destruct (fork_replies (os w)); reflexivity. Qed.

(** X1.  [start_child_process], in a configured process whose table has
    [MAX_CHILD_PROCESSES] entries.  With a full table the assertion fails
    before anything is forked.  When [fork_off] fails the process exits
    with status 1 and the table is as it was.  When [fork_off] gives a
    pid, this pid is returned and recorded at the end of the list, and the
    trace shows the fork between the debugging messages. *)
Theorem start_child_process_cases (executable : string) (params : list string)
    (w : world) (c : s3b_config) :
  config w = Some c -> length (child_pids w) = MAX_CHILD_PROCESSES ->
  (MAX_CHILD_PROCESSES <= num_child_pids w ->
   exists w',
     start_child_process executable params w = Abort w' /\
     table_unchanged w w' /\ os w' = os w /\
     trace w' = trace w ++ executing_log c params) /\
  (forall rest,
     num_child_pids w < MAX_CHILD_PROCESSES ->
     fork_replies (os w) = None :: rest ->
     exists w',
       start_child_process executable params w = Exit 1%Z w' /\
       table_unchanged w w' /\
       trace w' = trace w ++ executing_log c params
                  ++ [ForkOff executable params; Log LOG_ERR "%s"]) /\
  (forall p rest,
     num_child_pids w < MAX_CHILD_PROCESSES ->
     fork_replies (os w) = Some p :: rest ->
     exists w',
       start_child_process executable params w = Ret (Z.pos p) w' /\
       recorded w' = recorded w ++ [Z.pos p] /\
       num_child_pids w' = S (num_child_pids w) /\
       fork_replies (os w') = rest /\
       trace w' = trace w ++ executing_log c params
                  ++ [ForkOff executable params]
                  ++ debug_log c ["started %s as process %d"]).
Proof.
  intros Hc Hlen. rewrite (start_child_process_eq _ _ _ _ Hc). cbv zeta.
  split; [|split].
  - intros Hfull.
    assert (H : (num_child_pids w <? MAX_CHILD_PROCESSES) = false)
      by (apply Nat.ltb_ge; lia).
    rewrite H. simpl. eexists. split; [reflexivity|]. repeat split.
  - intros rest Hroom Hfork.
    assert (H : (num_child_pids w <? MAX_CHILD_PROCESSES) = true)
      by (apply Nat.ltb_lt; lia).
    rewrite H. simpl negb. cbv iota.
    unfold bind at 1. rewrite fork_off_eq. simpl. rewrite Hfork.
    eexists. split; [reflexivity|]. simpl. split; [repeat split|].
    now rewrite <- !app_assoc.
  - intros p rest Hroom Hfork.
    assert (H : (num_child_pids w <? MAX_CHILD_PROCESSES) = true)
      by (apply Nat.ltb_lt; lia).
    rewrite H. simpl negb. cbv iota.
    unfold bind at 1. rewrite fork_off_eq. simpl. rewrite Hfork.
    unfold bind at 1. unfold get at 1. simpl.
    assert (H' : (num_child_pids w <? length (child_pids w)) = true)
      by (apply Nat.ltb_lt; lia).
    rewrite H'. unfold debug_log.
    destruct (Config.debug c); simpl;
      (eexists; split; [reflexivity|]; simpl;
       split; [|split; [reflexivity|split; [reflexivity|
         rewrite <- ?app_assoc; reflexivity]]];
       unfold recorded; simpl;
       rewrite (take_S_r _ _ (Z.pos p))
         by (apply list_lookup_insert_eq; unfold pid_t in *; lia);
       now rewrite take_insert_ge by lia).
Qed.

(** X2.  Reaping the child that [start_child_process] has just started
    gives back the recorded children it started from: the same list when
    the pid was not recorded before, and the same children up to their
    order in any case (a pid that was still recorded loses its earlier
    entry and keeps the new one). *)
Theorem start_then_reap (executable : string) (params : list string)
    (w : world) (pid : pid_t) (w1 : world) :
  has_config w ->
  start_child_process executable params w = Ret pid w1 ->
  exists w2,
    record_child_exited pid w1 = Ret tt w2 /\
    recorded w2 ≡ₚ recorded w /\
    num_child_pids w2 = num_child_pids w /\
    ((pid ∉ recorded w) -> recorded w2 = recorded w).
Proof.
  intros Hc Hstart.
  apply start_child_process_Ret in Hstart
    as (Hlt & _ & Hrec & Hnum & Hlen & Hcfg); [|assumption].
  destruct (record_child_exited_from_spec (S (num_child_pids w1)) 0 pid w1)
    as (w2 & Hrun & _ & _ & Hcase).
  - unfold has_config in Hc. now rewrite Hcfg.
  - unfold pid_t in *. lia.
  - lia.
  - intros j Hj. lia.
  - exists w2. split; [exact Hrun|].
    destruct Hcase as [(k & Hk & Hfirst & Hrec2 & Hnum2)|(Hnot & _)].
    2:{ exfalso. apply Hnot. rewrite Hrec. apply elem_of_app. right.
        now apply list_elem_of_singleton. }
    split; [|split; [lia|]].
    + apply (Permutation_cons_inv (a := pid)).
      rewrite Hrec2, Permutation_middle, (take_drop_middle _ _ _ Hk), Hrec.
      symmetry. apply Permutation_cons_append.
    + intros Hfresh.
      assert (Hk' : k = length (recorded w)).
      { apply lookup_lt_Some in Hk as Hklt.
        rewrite Hrec, length_app in Hklt. simpl in Hklt.
        destruct (decide (k < length (recorded w))) as [Hin|]; [|lia].
        exfalso. apply Hfresh. apply list_elem_of_lookup. exists k.
        rewrite Hrec, lookup_app_l in Hk; assumption. }
      rewrite Hrec2, Hrec, Hk'.
      rewrite take_app_length, drop_ge by (rewrite length_app; simpl; lia).
      apply app_nil_r.
Qed.

Lemma kills_app a b : kills (a ++ b) = kills a ++ kills b.
Proof. apply omap_app. Qed.

Lemma kills_debug_log c fmts : kills (debug_log c fmts) = [].
Proof.
  unfold debug_log. destruct (Config.debug c); [|reflexivity].
  induction fmts; simpl; auto.
Qed.

Lemma kills_kill_events c o except pids :
  kills (kill_events c o except pids)
  = map (fun pid => (pid, SIGTERM)) (filter (fun pid => pid <> except) pids).
Proof.
  induction pids as [|pid pids IH]; [reflexivity|].
  rewrite kill_events_cons, kills_app, IH, filter_cons.
  destruct (decide (pid = except)) as [Heq|Hne].
  - destruct (decide (pid <> except)); [contradiction|]. reflexivity.
  - destruct (decide (pid <> except)); [|contradiction].
    destruct (Config.debug c), (negb (kill_ok o pid)); reflexivity.
Qed.

(** X3.  [kill_remaining_children] sends [SIGTERM] once to every recorded
    child other than [except], in the order of the table and whether or
    not an earlier [kill] has failed; it sends no other signal, and it
    leaves the table as it is: the children stay recorded until they are
    reaped. *)
Theorem kill_remaining_children_signals (except : pid_t) (w : world)
    (c : s3b_config) :
  config w = Some c ->
  num_child_pids w <= length (child_pids w) ->
  exists w' ext,
    kill_remaining_children except w = Ret tt w' /\
    trace w' = trace w ++ ext /\
    kills ext = map (fun pid => (pid, SIGTERM))
                    (filter (fun pid => pid <> except) (recorded w)) /\
    table_unchanged w w' /\ os w' = os w.
Proof.
  intros Hc Hn.
  destruct (kill_remaining_children_from_run (S (num_child_pids w)) 0
              except w c Hc Hn) as (w' & Hrun & Htr & (Hp & Hnum & _) & Hos & _);
    [lia|].
  rewrite drop_0 in Htr.
  exists w', (kill_events c (os w) except (recorded w)).
  split; [exact Hrun|]. split; [exact Htr|].
  split; [apply kills_kill_events|]. repeat split; assumption.
Qed.

Lemma stat_eq path (w : world) :
  stat path w =
  match stat_replies (os w) with
  | [] => Cut (with_trace w [Stat path])
  | r :: rs => Ret r {| child_pids := child_pids w;
                        num_child_pids := num_child_pids w;
                        config := config w; handlers := handlers w;
                        trace := trace w ++ [Stat path];
                        os := with_stat_replies rs (os w) |}
  end.
Proof. unfold stat. run. destruct (stat_replies (os w)); reflexivity. Qed.

(** [k] polls that find no socket file. *)
Lemma wait_for_socket_skip (k : nat) (unix_socket : string) :
  forall fuel elapsed w rest,
    stat_replies (os w) = replicate k (StatErr ENOENT) ++ rest ->
    k <= fuel ->
    (elapsed + NBDKIT_STARTUP_WAIT_PAUSE * Z.of_nat k
     <= MAX_NBDKIT_STARTUP_WAIT_MILLIS + NBDKIT_STARTUP_WAIT_PAUSE)%Z ->
    wait_for_socket fuel elapsed unix_socket w =
    wait_for_socket (fuel - k)
      (elapsed + NBDKIT_STARTUP_WAIT_PAUSE * Z.of_nat k)%Z unix_socket
      {| child_pids := child_pids w; num_child_pids := num_child_pids w;
         config := config w; handlers := handlers w;
         trace := trace w ++ concat (replicate k (poll unix_socket));
         os := with_stat_replies rest (os w) |}.
Proof.
  unfold NBDKIT_STARTUP_WAIT_PAUSE, MAX_NBDKIT_STARTUP_WAIT_MILLIS.
  induction k as [|k IH]; intros fuel elapsed w rest Hr Hfuel Hel.
  - simpl in *. rewrite Nat.sub_0_r, Z.add_0_r, app_nil_r.
    destruct w as [? ? ? ? ? o]. simpl in *. destruct o. simpl in *. now subst.
  - destruct fuel as [|fuel]; [lia|].
    cbn [wait_for_socket].
    unfold MAX_NBDKIT_STARTUP_WAIT_MILLIS, NBDKIT_STARTUP_WAIT_PAUSE.
    destruct (Z.leb_spec elapsed 1000) as [_|Hgt]; [|lia].
    unfold bind at 1. rewrite stat_eq, Hr. cbn [replicate app].
    unfold bind at 1. rewrite emit_eq.
    rewrite (IH fuel (elapsed + 50)%Z _ rest); [|reflexivity|lia|lia].
    cbn. f_equal; [lia|]. f_equal. now rewrite <- !app_assoc.
Qed.

(** X4.  The wait for the socket file (lines 346-358) polls at most 21
    times, at 0, 50, ..., 1000 ms.  It gives [file_created = 1] at the
    first [stat] that succeeds, after a pause for each earlier one; it
    gives 0 after 21 polls that found nothing, without a further [stat];
    and the process exits with status 1 at the first [stat] that fails
    otherwise than with [ENOENT].  The fuel of the loop plays no part once
    it exceeds the number of polls. *)
Theorem wait_for_socket_polls (fuel : nat) (unix_socket : string) (w : world) :
  max_polls < fuel ->
  (forall k st_dev st_ino rest,
     k < max_polls ->
     stat_replies (os w)
     = replicate k (StatErr ENOENT) ++ StatOk st_dev st_ino :: rest ->
     exists w',
       wait_for_socket fuel 0 unix_socket w = Ret true w' /\
       trace w' = trace w ++ concat (replicate k (poll unix_socket))
                  ++ [Stat unix_socket] /\
       stat_replies (os w') = rest) /\
  (forall rest,
     stat_replies (os w) = replicate max_polls (StatErr ENOENT) ++ rest ->
     exists w',
       wait_for_socket fuel 0 unix_socket w = Ret false w' /\
       trace w' = trace w ++ concat (replicate max_polls (poll unix_socket)) /\
       stat_replies (os w') = rest) /\
  (forall k e rest,
     k < max_polls -> e <> ENOENT ->
     stat_replies (os w)
     = replicate k (StatErr ENOENT) ++ StatErr e :: rest ->
     exists w',
       wait_for_socket fuel 0 unix_socket w = Exit 1%Z w' /\
       trace w' = trace w ++ concat (replicate k (poll unix_socket))
                  ++ [Stat unix_socket; Log LOG_ERR "%s"]).
Proof.
  change max_polls with 21. intros Hfuel. split; [|split].
  - intros k st_dev st_ino rest Hk Hr.
    rewrite (wait_for_socket_skip k unix_socket fuel 0 w _ Hr);
      [|lia|unfold NBDKIT_STARTUP_WAIT_PAUSE, MAX_NBDKIT_STARTUP_WAIT_MILLIS; lia].
    destruct (fuel - k) as [|fuel'] eqn:Hf; [lia|].
    cbn [wait_for_socket].
    unfold MAX_NBDKIT_STARTUP_WAIT_MILLIS, NBDKIT_STARTUP_WAIT_PAUSE.
    destruct (Z.leb_spec (0 + 50 * Z.of_nat k) 1000) as [_|Hgt]; [|lia].
    unfold bind at 1. rewrite stat_eq. cbn.
    eexists. split; [reflexivity|]. cbn. split; [|reflexivity].
    now rewrite <- app_assoc.
  - intros rest Hr.
    rewrite (wait_for_socket_skip 21 unix_socket fuel 0 w _ Hr);
      [|lia|unfold NBDKIT_STARTUP_WAIT_PAUSE, MAX_NBDKIT_STARTUP_WAIT_MILLIS; lia].
    destruct (fuel - 21) as [|fuel'] eqn:Hf; [lia|].
    cbn [wait_for_socket].
    eexists. split; [reflexivity|]. split; reflexivity.
  - intros k e rest Hk He Hr.
    rewrite (wait_for_socket_skip k unix_socket fuel 0 w _ Hr);
      [|lia|unfold NBDKIT_STARTUP_WAIT_PAUSE, MAX_NBDKIT_STARTUP_WAIT_MILLIS; lia].
    destruct (fuel - k) as [|fuel'] eqn:Hf; [lia|].
    cbn [wait_for_socket].
    unfold MAX_NBDKIT_STARTUP_WAIT_MILLIS, NBDKIT_STARTUP_WAIT_PAUSE.
    destruct (Z.leb_spec (0 + 50 * Z.of_nat k) 1000) as [_|Hgt]; [|lia].
    unfold bind at 1. rewrite stat_eq. cbn.
    destruct e; try contradiction;
      (eexists; split; [reflexivity|]; cbn; now rewrite <- !app_assoc).
Qed.

(** ** The command line, as lists *)

Lemma strip_prefix_app p v : strip_prefix p (p +:+ v) = Some v.
Proof.
  induction p as [|a p IH]; simpl; [now destruct v|].
  now rewrite Ascii.eqb_refl.
Qed.

Lemma strip_prefix_Some p s v : strip_prefix p s = Some v -> s = p +:+ v.
Proof.
  revert s. induction p as [|a p IH]; intros s; simpl.
  - destruct s; intros [= <-]; reflexivity.
  - destruct s as [|b s]; [discriminate|].
    destruct (Ascii.eqb a b) eqn:E; [|discriminate].
    apply Ascii.eqb_eq in E. subst b. intros H. apply IH in H. now subst s.
Qed.

Lemma omap_cons_None {A B} (f : A -> option B) x l :
  f x = None -> omap f (x :: l) = omap f l.
Proof. intros H. simpl. now rewrite H. Qed.

Lemma omap_cons_Some {A B} (f : A -> option B) x y l :
  f x = Some y -> omap f (x :: l) = y :: omap f l.
Proof. intros H. simpl. now rewrite H. Qed.

(** What [extract_nbd_flags] leaves, from any point of its loop. *)
Lemma extract_nbd_flags_Continue (todo : list string) :
  forall kept nbd_flags nbd_params w x w',
    extract_nbd_flags kept todo nbd_flags nbd_params w = Ret (Continue x) w' ->
    w' = w /\
    x_kept x ++ x_rest x
    = kept ++ filter (fun flag => has_prefix "--nbd" flag = false)
                     (leading_flags todo)
           ++ drop (length (leading_flags todo)) todo /\
    x_nbd_flags x
    = nbd_flags ++ omap (strip_prefix "--nbd-flag=") (leading_flags todo) /\
    x_nbd_params x
    = nbd_params ++ omap (strip_prefix "--nbd-param=") (leading_flags todo).
Proof.
  induction todo as [|flag rest IH]; intros kept nbd_flags nbd_params w x w'.
  { intros [= <- <-]. cbn. now rewrite !app_nil_r. }
  cbn [extract_nbd_flags leading_flags].
  destruct (not_dash flag) eqn:Hd; cbn [orb].
  { intros [= <- <-]. cbn. now rewrite !app_nil_r. }
  destruct (streq flag "--") eqn:Hdd.
  { intros [= <- <-]. cbn. rewrite !app_nil_r. now rewrite <- app_assoc. }
  assert (Hnone : has_prefix "--nbd" flag = false ->
            strip_prefix "--nbd-flag=" flag = None /\
            strip_prefix "--nbd-param=" flag = None).
  { intros Hp. split.
    - destruct (strip_prefix "--nbd-flag=" flag) as [v|] eqn:E; [|reflexivity].
      apply strip_prefix_Some in E. subst flag. discriminate.
    - destruct (strip_prefix "--nbd-param=" flag) as [v|] eqn:E; [|reflexivity].
      apply strip_prefix_Some in E. subst flag. discriminate. }
  rewrite filter_cons. cbn [length drop].
  destruct (has_prefix "--nbd" flag) eqn:Hp; cbn [negb].
  2:{ destruct (Hnone eq_refl) as [H1 H2].
      rewrite (omap_cons_None _ _ _ H1), (omap_cons_None _ _ _ H2).
      destruct (decide (false = false)); [|congruence].
      intros H. apply IH in H as (-> & Hk & Hf & Hpar).
      split; [reflexivity|]. rewrite Hk, <- app_assoc. auto. }
  destruct (decide (true = false)); [discriminate|].
  destruct (streq flag "--nbd") eqn:Hn.
  { apply streq_true in Hn. subst flag.
    rewrite !omap_cons_None by reflexivity. apply IH. }
  destruct (strchr_split "=" flag) as [[name value]|] eqn:Hsplit;
    [|discriminate].
  apply strchr_split_Some in Hsplit.
  destruct (streq name "--nbd-flag") eqn:E1.
  { apply streq_true in E1. subst name flag. cbn [add_string].
    rewrite (omap_cons_Some _ _ value) by apply (strip_prefix_app "--nbd-flag=").
    rewrite omap_cons_None by reflexivity.
    intros H. apply IH in H as (-> & Hk & Hf & Hpar).
    split; [reflexivity|]. split; [exact Hk|].
    rewrite Hf, Hpar, <- app_assoc. split; reflexivity. }
  destruct (streq name "--nbd-param") eqn:E2; [|discriminate].
  apply streq_true in E2. subst name flag. cbn [add_string].
  rewrite omap_cons_None by reflexivity.
  rewrite (omap_cons_Some _ _ value) by apply (strip_prefix_app "--nbd-param=").
  intros H. apply IH in H as (-> & Hk & Hf & Hpar).
  split; [reflexivity|]. split; [exact Hk|].
  rewrite Hf, Hpar, <- app_assoc. split; reflexivity.
Qed.

(** X5.  When the first loop of [trampoline_to_nbd] goes on, it has
    written nothing; the new [argv] is the old one without the leading
    flags that begin with ["--nbd"], everything else in its place; the
    values of the ["--nbd-flag="] and of the ["--nbd-param="] flags have
    been collected, each list in the order of the command line; and what
    the loop has not looked at are the positional parameters. *)
Theorem extract_nbd_flags_result (argv : list string) (w : world)
    (x : extracted) (w' : world) :
  extract_nbd_flags (take 1 argv) (drop 1 argv) [] [] w = Ret (Continue x) w' ->
  let flags := leading_flags (drop 1 argv) in
  w' = w /\
  x_kept x ++ x_rest x
  = take 1 argv ++ filter (fun flag => has_prefix "--nbd" flag = false) flags
             ++ drop (length flags) (drop 1 argv) /\
  x_rest x = positional (drop 1 argv) /\
  x_nbd_flags x = omap (strip_prefix "--nbd-flag=") flags /\
  x_nbd_params x = omap (strip_prefix "--nbd-param=") flags.
Proof.
  intros Hrun flags.
  destruct (extract_nbd_flags_Continue _ _ _ _ _ _ _ Hrun)
    as (-> & Hk & Hf & Hp).
  split; [reflexivity|]. split; [exact Hk|]. split; [|split; assumption].
  destruct (extract_nbd_flags_cases (take 1 argv) (drop 1 argv) [] [] w)
    as [[w1 Hret]|(x1 & Hret & Hrest)]; congruence.
Qed.

Lemma s3b_flags_skip param rest :
  not_dash param || streq param "--" = false ->
  streq param "-f" || streq param "-d" = true ->
  s3b_flags (param :: rest) = s3b_flags rest.
Proof.
  intros H1 H2. unfold s3b_flags. cbn [leading_flags]. rewrite H1, filter_cons.
  destruct (decide (param <> "-f" /\ param <> "-d")) as [[Hf Hd]|]; [|reflexivity].
  apply streq_false in Hf, Hd. now rewrite Hf, Hd in H2.
Qed.

Lemma s3b_flags_keep param rest :
  not_dash param || streq param "--" = false ->
  streq param "-f" || streq param "-d" = false ->
  s3b_flags (param :: rest) = param :: s3b_flags rest.
Proof.
  intros H1 H2. unfold s3b_flags. cbn [leading_flags]. rewrite H1, filter_cons.
  apply orb_false_iff in H2 as [Hf Hd]. apply streq_false in Hf, Hd.
  destruct (decide (param <> "-f" /\ param <> "-d")) as [|Hn]; [reflexivity|].
  now destruct Hn.
Qed.

Lemma get_bind {A} (k : world -> M A) (w : world) :
  (w0 <- get ;; k w0) w = k w w.
Proof. reflexivity. Qed.

(** [add_s3b_params] converts every flag or none. *)
Lemma add_s3b_params_run (B : build) (params : list string) :
  forall command_line w,
    (forallb (accepted (os w)) (s3b_flags params) = true ->
     add_s3b_params B params command_line w
     = Ret (Continue (command_line ++ map (nbdkit_param B) (s3b_flags params))) w) /\
    (forallb (accepted (os w)) (s3b_flags params) = false ->
     exists fmt,
       add_s3b_params B params command_line w
       = Ret (Return 2%Z) (with_trace w [Stderr fmt])).
Proof.
  induction params as [|param rest IH]; intros command_line w.
  { cbn. rewrite app_nil_r. split; [reflexivity|discriminate]. }
  cbn [add_s3b_params].
  destruct (not_dash param || streq param "--") eqn:H1.
  { unfold s3b_flags. cbn [leading_flags]. rewrite H1. cbn. rewrite app_nil_r.
    split; [reflexivity|discriminate]. }
  destruct (streq param "-f" || streq param "-d") eqn:H2.
  { rewrite (s3b_flags_skip _ _ H1 H2). apply IH. }
  rewrite (s3b_flags_keep _ _ H1 H2). cbn [forallb map].
  remember (accepted (os w) param) as acc eqn:Hacc.
  remember (nbdkit_param B param) as np eqn:Hnp.
  assert (Hbad : acc = false ->
            forall m : M (early string_array),
              (exists fmt, m w = Ret (Return 2%Z) (with_trace w [Stderr fmt])) ->
              (acc && forallb (accepted (os w)) (s3b_flags rest) = true ->
               m w = Ret (Continue (command_line ++ np
                                      :: map (nbdkit_param B) (s3b_flags rest))) w) /\
              (acc && forallb (accepted (os w)) (s3b_flags rest) = false ->
               exists fmt, m w = Ret (Return 2%Z) (with_trace w [Stderr fmt]))).
  { intros -> m Hm. split; [discriminate|auto]. }
  assert (Hgood : forall text,
            acc = true -> np = NBD_S3B_PARAM_PREFIX B +:+ text ->
            let m := (command_line' <-
                        add (err 1 "add_string") (NBD_S3B_PARAM_PREFIX B +:+ text)
                            command_line ;;
                      add_s3b_params B rest command_line') in
            (acc && forallb (accepted (os w)) (s3b_flags rest) = true ->
             m w = Ret (Continue (command_line ++ np
                                    :: map (nbdkit_param B) (s3b_flags rest))) w) /\
            (acc && forallb (accepted (os w)) (s3b_flags rest) = false ->
             exists fmt, m w = Ret (Return 2%Z) (with_trace w [Stderr fmt]))).
  { intros text -> Htext m. subst m. cbn [andb].
    unfold bind at 1. cbn [add add_string ret].
    destruct (IH (command_line ++ [NBD_S3B_PARAM_PREFIX B +:+ text]) w)
      as [Hyes Hno].
    split; [|exact Hno].
    intros H. rewrite (Hyes H), Htext, <- app_assoc. reflexivity. }
  clear IH.
  destruct param as [|c1 [|c2 text]];
    try (apply Hbad; [exact Hacc|eexists; reflexivity]).
  destruct (Ascii.eqb_spec c2 "-"%char) as [->|Hc2].
  2:{ assert (acc = false) as Hf.
      { rewrite Hacc. cbn. destruct c2 as [[] [] [] [] [] [] [] []];
          try reflexivity. now destruct Hc2. }
      destruct c2 as [[] [] [] [] [] [] [] []];
        try (apply Hbad; [exact Hf|eexists; reflexivity]).
      now destruct Hc2. }
  unfold nbdkit_param in Hnp. cbn [flag_text accepted] in Hnp, Hacc.
  destruct (strchr_split "=" text) as [[name value]|] eqn:Hsplit.
  - apply strchr_split_Some in Hsplit as Htext.
    cbv beta iota. rewrite get_bind.
    destruct (decide (Some (name, value) = None)) as [|_]; [discriminate|].
    destruct (is_valid_s3b_flag (os w) name =? 1)%Z eqn:Hv1;
      cbn [andb orb] in Hacc.
    + destruct (strcaseeq value "true") eqn:Hcase; cbn [negb orb] in *.
      * refine (Hgood (name +:+ "=" +:+ value) Hacc _).
        now rewrite Hnp, Htext.
      * destruct (is_valid_s3b_flag (os w) name =? 2)%Z eqn:Hv2.
        { apply Z.eqb_eq in Hv1, Hv2. congruence. }
        apply Hbad; [exact Hacc|eexists; reflexivity].
    + destruct (is_valid_s3b_flag (os w) name =? 2)%Z eqn:Hv2.
      * refine (Hgood (name +:+ "=" +:+ value) Hacc _).
        now rewrite Hnp, Htext.
      * apply Hbad; [exact Hacc|eexists; reflexivity].
  - cbv beta iota. rewrite get_bind.
    destruct (decide (@None (string * string) = None)) as [_|]; [|congruence].
    destruct (is_valid_s3b_flag (os w) text =? 1)%Z eqn:Hv1.
    + exact (Hgood (text +:+ "=" +:+ "true") Hacc Hnp).
    + destruct (is_valid_s3b_flag (os w) text =? 2)%Z eqn:Hv2;
        (apply Hbad; [exact Hacc|eexists; reflexivity]).
Qed.

(** X6.  The loop that turns the s3backer flags into nbdkit parameters
    (lines 268-312) converts all of them or none.  When every flag other
    than ["-f"] and ["-d"] is accepted, the command line grows by one
    parameter for each, in order, ["--foo=bar"] as ["s3b_foo=bar"] and
    ["--foo"] as ["s3b_foo=true"], and nothing is written; otherwise the
    loop writes one warning and [trampoline_to_nbd] returns 2. *)
Theorem add_s3b_params_converts (B : build) (params : list string)
    (command_line : string_array) (w : world) :
  (forallb (accepted (os w)) (s3b_flags params) = true ->
   add_s3b_params B params command_line w
   = Ret (Continue (command_line ++ map (nbdkit_param B) (s3b_flags params))) w) /\
  (forallb (accepted (os w)) (s3b_flags params) = false ->
   exists fmt,
     add_s3b_params B params command_line w
     = Ret (Return 2%Z) (with_trace w [Stderr fmt])).
Proof. apply add_s3b_params_run. Qed.

(** ** The name of the socket file *)

Lemma string_length_app (a b : string) :
  String.length (a +:+ b) = String.length a + String.length b.
Proof. induction a as [|c a IH]; simpl; [reflexivity|]. now rewrite IH. Qed.

Lemma string_app_inj (a c b d : string) :
  String.length a = String.length c -> a +:+ b = c +:+ d -> a = c /\ b = d.
Proof.
  revert c. induction a as [|x a IH]; intros [|y c]; simpl; try discriminate.
  - auto.
  - intros [= Hlen] [= -> H]. destruct (IH c Hlen H) as [-> ->]. auto.
Qed.

Lemma length_hex_fixed (width : nat) (n : Z) :
  String.length (hex_fixed width n) = width.
Proof.
  revert n. induction width as [|k IH]; intros n; simpl; [reflexivity|].
  rewrite string_length_app, IH. simpl. lia.
Qed.

Lemma hex_digit_inj (a b : Z) :
  (0 <= a < 16)%Z -> (0 <= b < 16)%Z -> hex_digit a = hex_digit b -> a = b.
Proof.
  intros Ha Hb.
  assert (Ea : exists i, i < 16 /\ a = Z.of_nat i) by (exists (Z.to_nat a); lia).
  assert (Eb : exists i, i < 16 /\ b = Z.of_nat i) by (exists (Z.to_nat b); lia).
  destruct Ea as (i & Hi & ->), Eb as (j & Hj & ->).
  do 16 (destruct i as [|i]; [do 16 (destruct j as [|j];
    [first [reflexivity | discriminate]|]); lia|]); lia.
Qed.

Lemma hex_fixed_inj (width : nat) :
  forall n m,
    (0 <= n < 16 ^ Z.of_nat width)%Z -> (0 <= m < 16 ^ Z.of_nat width)%Z ->
    hex_fixed width n = hex_fixed width m -> n = m.
Proof.
  induction width as [|k IH]; intros n m Hn Hm.
  - simpl in *. lia.
  - rewrite Nat2Z.inj_succ, Z.pow_succ_r in Hn, Hm by lia.
    cbn [hex_fixed]. intros H.
    apply string_app_inj in H as [Hhi Hlo];
      [|now rewrite !length_hex_fixed].
    injection Hlo as Hlo.
    apply IH in Hhi; [|split; [apply Z.div_pos; lia|apply Z.div_lt_upper_bound; lia]..].
    apply hex_digit_inj in Hlo; [|apply Z.mod_pos_bound; lia..].
    rewrite (Z.div_mod n 16), (Z.div_mod m 16) by lia. congruence.
Qed.

(** X7.  The socket file corresponds to the block device: two devices
    that differ in their device number or in their inode number get
    different socket files, and all names have the same length (the
    numbers are written with two hexadecimal digits for each byte of
    [dev_t] and of [ino_t], which holds any value of these types). *)
Theorem socket_name_unique (B : build) (st_dev st_ino st_dev' st_ino' : Z) :
  (0 <= st_dev < 16 ^ Z.of_nat (sizeof_dev_t B * 2))%Z ->
  (0 <= st_dev' < 16 ^ Z.of_nat (sizeof_dev_t B * 2))%Z ->
  (0 <= st_ino < 16 ^ Z.of_nat (sizeof_ino_t B * 2))%Z ->
  (0 <= st_ino' < 16 ^ Z.of_nat (sizeof_ino_t B * 2))%Z ->
  (st_dev, st_ino) <> (st_dev', st_ino') ->
  unix_socket_name B st_dev st_ino <> unix_socket_name B st_dev' st_ino' /\
  String.length (unix_socket_name B st_dev st_ino)
  = String.length (unix_socket_name B st_dev' st_ino').
Proof.
  intros Hd Hd' Hi Hi' Hne. unfold unix_socket_name. split.
  - intros H. apply Hne.
    apply string_app_inj in H as [_ H]; [|reflexivity].
    apply (string_app_inj "/" "/") in H as [_ H]; [|reflexivity].
    apply string_app_inj in H as [Hdev H]; [|now rewrite !length_hex_fixed].
    apply (string_app_inj "_" "_") in H as [_ Hino]; [|reflexivity].
    apply hex_fixed_inj in Hdev, Hino; try assumption. congruence.
  - rewrite !string_length_app, !length_hex_fixed. reflexivity.
Qed.

Lemma socket_name_unique_witness :
  unix_socket_name Sample.B 5 77 <> unix_socket_name Sample.B 5 78 /\
  String.length (unix_socket_name Sample.B 5 77)
  = String.length (unix_socket_name Sample.B 5 78).
Proof.
  apply (socket_name_unique Sample.B 5 77 5 78); try (vm_compute; split; congruence).
  congruence.
Defined.

(** ** The processes a run starts *)

Lemma forks_app a b : forks (a ++ b) = forks a ++ forks b.
Proof. apply omap_app. Qed.

Lemma forks_no_fork ext : forallb no_fork ext = true -> forks ext = [].
Proof.
  induction ext as [|e ext IH]; [reflexivity|]. simpl.
  intros H. apply andb_true_iff in H as [He Hext].
  destruct e; try discriminate; now apply IH.
Qed.

Lemma grows_refl w : grows w w [].
Proof. exists []. now rewrite app_nil_r. Qed.

Lemma grows_trans w1 w2 w3 a b :
  grows w1 w2 a -> grows w2 w3 b -> grows w1 w3 (a ++ b).
Proof.
  intros (e1 & H1 & F1) (e2 & H2 & F2). exists (e1 ++ e2).
  rewrite H2, H1, app_assoc, forks_app, F1, F2. auto.
Qed.

Lemma grows_quiet w1 w2 w3 b : grows w1 w2 [] -> grows w2 w3 b -> grows w1 w3 b.
Proof. apply (grows_trans w1 w2 w3 []). Qed.

(** A computation that starts no process, when it returns. *)
Lemma grows_confined {A} (Q : A -> Prop) (m : M A) w a w' :
  confined no_fork Q m -> m w = Ret a w' -> grows w w' [] /\ Q a.
Proof.
  intros H Hrun. destruct (H w) as [(ext & Htr & Hok) Hq].
  rewrite Hrun in Htr, Hq. simpl in Htr. split; [|exact Hq].
  exists ext. split; [exact Htr|]. now apply forks_no_fork.
Qed.

Lemma forks_debug_log c fmts : forks (debug_log c fmts) = [].
Proof.
  unfold debug_log. destruct (Config.debug c); [|reflexivity].
  induction fmts; simpl; auto.
Qed.

(** [start_child_process], when it returns, has started one process. *)
Lemma start_child_process_grows executable params w pid w' :
  start_child_process executable params w = Ret pid w' ->
  grows w w' [(executable, params)].
Proof.
  destruct (config w) as [c|] eqn:Hc.
  2:{ unfold start_child_process. unfold bind at 1. unfold the_config.
      now rewrite Hc. }
  rewrite (start_child_process_eq _ _ _ _ Hc). cbv zeta.
  destruct (negb (num_child_pids w <? MAX_CHILD_PROCESSES)); [discriminate|].
  unfold bind at 1. rewrite fork_off_eq. cbn [os with_trace].
  destruct (fork_replies (os w)) as [|[p|] rs]; [discriminate| |discriminate].
  unfold bind at 1. unfold get at 1. cbn [num_child_pids child_pids].
  match goal with
  | |- context [if ?b then set_children _ _ else fault] => destruct b
  end; [|discriminate].
  intros Hrun.
  exists (executing_log c params ++ [ForkOff executable params]
          ++ debug_log c ["started %s as process %d"]).
  split.
  - unfold executing_log, debug_log in *.
    destruct (Config.debug c); cbn in Hrun; injection Hrun as <- <-;
      cbn; rewrite <- ?app_assoc; reflexivity.
  - unfold executing_log. rewrite !forks_app, !forks_debug_log. reflexivity.
Qed.

Lemma add_bind {A} fail s cl (k : string_array -> M A) w :
  (cl' <- add fail s cl ;; k cl') w = k (cl ++ [s]) w.
Proof. reflexivity. Qed.

Lemma add_if_bind {A} fail (b : bool) s cl (k : string_array -> M A) w :
  (cl' <- (if b then add fail s cl else ret cl) ;; k cl') w
  = k (cl ++ (if b then [s] else [])) w.
Proof. destruct b; [reflexivity|]. now rewrite app_nil_r. Qed.

Lemma add_all_run fail (l : list string) :
  forall (m : M string_array) cl,
    (forall w, m w = Ret cl w) ->
    forall w, foldl (fun m s => a <- m ;; add fail s a) m l w = Ret (cl ++ l) w.
Proof.
  induction l as [|s l IH]; intros m cl Hm w; simpl.
  - now rewrite app_nil_r, Hm.
  - rewrite (IH _ (cl ++ [s])); [now rewrite <- app_assoc|].
    intros w0. unfold bind. now rewrite Hm.
Qed.

Lemma add_all_bind {A} fail l cl (k : string_array -> M A) w :
  (cl' <- foldl (fun m s => a <- m ;; add fail s a) (ret cl) l ;; k cl') w
  = k (cl ++ l) w.
Proof. unfold bind at 1. now rewrite (add_all_run fail l (ret cl) cl). Qed.

Tactic Notation "step" hyp(H) "as" ident(a) ident(w) ident(Hs) :=
  apply bind_Ret in H as (a & w & Hs & H).

Lemma grows_calm {A} (m : M A) w a w' :
  confined no_fork any_value m -> m w = Ret a w' -> grows w w' [].
Proof. intros H Hrun. now destruct (grows_confined _ _ _ _ _ H Hrun). Qed.

Ltac quiet_in Hstep Hg :=
  apply grows_calm in Hstep as Hg; [clear Hstep|solve [repeat confined_walk]].

(** The successful run of [start_servers]: the socket file is named after
    the device, and two processes are started, [nbdkit] and then
    [nbd-client]. *)
Lemma start_servers_Ret B x bucket_param device_param w client_pid unix_socket w' :
  start_servers B x bucket_param device_param w
  = Ret (Continue (client_pid, unix_socket)) w' ->
  exists st_dev st_ino rest c,
    stat_replies (os w) = StatOk st_dev st_ino :: rest /\
    unix_socket = unix_socket_name B st_dev st_ino /\
    s3backer_get_config (os w) (x_kept x ++ x_rest x) true true = Some c /\
    grows w w'
      [(NBDKIT_EXECUTABLE B, nbdkit_command B c x bucket_param unix_socket);
       (NBD_CLIENT_EXECUTABLE B,
        nbd_client_command B c device_param unix_socket)].
Proof.
  unfold start_servers. intros H.
  step H as sb w1 Hs. rewrite stat_eq in Hs.
  destruct (stat_replies (os w)) as [|r rest] eqn:Hreplies; [discriminate|].
  injection Hs as -> <-.
  destruct sb as [st_dev st_ino|e]; [|discriminate].
  cbv zeta in H. fold (unix_socket_name B st_dev st_ino) in H.
  set (sock := unix_socket_name B st_dev st_ino) in *.
  exists st_dev, st_ino, rest.
  step H as u w2 Hs. injection Hs as _ <-.
  step H as sb w3 Hs. rewrite stat_eq in Hs.
  cbn [os stat_replies with_stat_replies] in Hs.
  destruct rest as [|r2 rest2]; [discriminate|].
  injection Hs as -> <-.
  step H as u' w4 Hs.
  assert (w4 = {| child_pids := child_pids w; num_child_pids := num_child_pids w;
                  config := config w; handlers := handlers w;
                  trace := trace w ++ [Stat device_param; Unlink sock; Stat sock];
                  os := with_stat_replies rest2 (os w) |}) as ->.
  { destruct sb as [? ?|[]]; try discriminate; injection Hs as _ <-;
      cbn; rewrite <- !app_assoc; reflexivity. }
  clear Hs.
  step H as u'' w5 Hs. injection Hs as _ <-.
  step H as w0 w6 Hs. injection Hs as <- <-.
  step H as u3 w7 Hs. injection Hs as _ <-.
  step H as w0' w8 Hs. injection Hs as <- <-.
  cbn [config os with_stat_replies s3backer_get_config] in H.
  destruct (s3backer_get_config (os w) (x_kept x ++ x_rest x) true true)
    as [c|] eqn:Hcfg; [|discriminate].
  exists c.
  rewrite add_bind in H. rewrite !add_if_bind in H. rewrite !add_bind in H.
  rewrite add_all_bind, add_bind in H.
  match type of H with ?m ?w0 = _ => set (w9 := w0) in * end.
  assert (G0 : grows w w9 []).
  { exists [Stat device_param; Unlink sock; Stat sock;
            GetConfig (x_kept x ++ x_rest x) true true].
    subst w9. cbn. rewrite <- !app_assoc. split; reflexivity. }
  step H as r w10 Hs.
  match type of Hs with add_s3b_params _ _ ?cl _ = _ =>
    destruct (add_s3b_params_run B (drop 1 (x_kept x ++ x_rest x)) cl w9)
      as [Hyes Hno]
  end.
  destruct (forallb (accepted (os w9)) (s3b_flags (drop 1 (x_kept x ++ x_rest x))))
    eqn:Hacc.
  2:{ destruct (Hno eq_refl) as [fmt Hr]. rewrite Hr in Hs.
      injection Hs as <- <-. discriminate. }
  rewrite (Hyes eq_refl) in Hs. injection Hs as <- <-. clear Hyes Hno.
  rewrite add_bind, add_all_bind in H.
  step H as server_pid w11 Hs1. apply start_child_process_grows in Hs1 as G1.
  step H as v1 w12 Hs. quiet_in Hs G2.
  step H as v2 w13 Hs. quiet_in Hs G3.
  step H as file_created w14 Hs. quiet_in Hs G4.
  step H as v3 w15 Hs. quiet_in Hs G5.
  rewrite !add_bind, add_if_bind, add_bind in H.
  step H as cp w16 Hs2. apply start_child_process_grows in Hs2 as G6.
  injection H as <- <- <-.
  split; [reflexivity|]. split; [reflexivity|]. split; [reflexivity|].
  pose proof (grows_quiet _ _ _ _ G0
               (grows_trans _ _ _ _ _ G1
                  (grows_quiet _ _ _ _ G2
                     (grows_quiet _ _ _ _ G3
                        (grows_quiet _ _ _ _ G4
                           (grows_quiet _ _ _ _ G5 G6)))))) as G.
  cbn [app] in G.
  unfold nbdkit_command, nbd_client_command.
  rewrite <- !app_assoc in G. exact G.
Qed.

(** X13.  What [trampoline_to_nbd] refuses before it starts any process.
    When the [stat] of the device fails, the process exits with status 1
    and nothing was removed.  When the [stat] of the socket file, after
    the leftover was removed, fails otherwise than with [ENOENT], the
    process exits with status 1, with the message about root when the
    error is [EPERM] or [EACCES].  When the configuration cannot be read,
    the function returns 1.  In each case the trace shows that no process
    was started. *)
Theorem start_servers_refuses (B : build) (x : extracted)
    (bucket_param device_param : string) (w : world) :
  (forall e rest,
     stat_replies (os w) = StatErr e :: rest ->
     exists w',
       start_servers B x bucket_param device_param w = Exit 1%Z w' /\
       trace w' = trace w ++ [Stat device_param; Stderr "%s"]) /\
  (forall st_dev st_ino e rest,
     stat_replies (os w) = StatOk st_dev st_ino :: StatErr e :: rest ->
     e <> ENOENT ->
     let unix_socket := unix_socket_name B st_dev st_ino in
     exists w' message,
       start_servers B x bucket_param device_param w = Exit 1%Z w' /\
       trace w' = trace w ++ [Stat device_param; Unlink unix_socket;
                              Stat unix_socket; Stderr message] /\
       (e = EPERM \/ e = EACCES ->
        message = "must be run as root when the '--nbd' flag is used")) /\
  (forall st_dev st_ino r rest,
     stat_replies (os w) = StatOk st_dev st_ino :: r :: rest ->
     (r = StatErr ENOENT \/ exists d i, r = StatOk d i) ->
     s3backer_get_config (os w) (x_kept x ++ x_rest x) true true = None ->
     let unix_socket := unix_socket_name B st_dev st_ino in
     exists w',
       start_servers B x bucket_param device_param w = Ret (Return 1%Z) w' /\
       trace w' = trace w ++ [Stat device_param; Unlink unix_socket;
                              Stat unix_socket;
                              GetConfig (x_kept x ++ x_rest x) true true] /\
       config w' = None /\ table_unchanged w w').
Proof.
  split; [|split].
  - intros e rest Hr. unfold start_servers.
    unfold bind at 1. rewrite stat_eq, Hr. cbn.
    eexists. split; [reflexivity|]. cbn. now rewrite <- app_assoc.
  - intros st_dev st_ino e rest Hr He unix_socket. unfold start_servers.
    unfold bind at 1. rewrite stat_eq, Hr. cbv zeta.
    fold (unix_socket_name B st_dev st_ino). fold unix_socket.
    unfold bind at 1. rewrite emit_eq.
    unfold bind at 1. rewrite stat_eq. cbn [os with_trace stat_replies with_stat_replies].
    destruct e; try contradiction; cbn;
      (do 2 eexists; split; [reflexivity|]; cbn;
       split; [now rewrite <- !app_assoc|]);
      try reflexivity; intros [?|?]; discriminate.
  - intros st_dev st_ino r rest Hr Hcase Hcfg unix_socket.
    unfold start_servers.
    unfold bind at 1. rewrite stat_eq, Hr. cbv zeta.
    fold (unix_socket_name B st_dev st_ino). fold unix_socket.
    unfold bind at 1. rewrite emit_eq.
    unfold bind at 1. rewrite stat_eq. cbn [os with_trace stat_replies with_stat_replies].
    destruct Hcase as [->|(d & i & ->)]; cbn; rewrite Hcfg;
      (eexists; split; [reflexivity|]; cbn;
       split; [now rewrite <- !app_assoc|]; repeat split).
Qed.

(** ** Whole runs *)

(** X8.  The exit statuses.  [trampoline_to_nbd] returns 0, 1 or 2, and
    [main] returns 0 or 1: the usage code 2 of the trampoline becomes 1.
    Whenever the process exits through [err], [errx] or [daemon_err], in
    any function, the status is 1. *)
Theorem exit_statuses (B : build) (argv : list string) (w : world) :
  match trampoline_to_nbd B argv w with
  | Ret r _ => r = 0%Z \/ r = 1%Z \/ r = 2%Z
  | Exit status _ => status = 1%Z
  | _ => True
  end /\
  match main B argv w with
  | Ret r _ => r = 0%Z \/ r = 1%Z
  | Exit status _ => status = 1%Z
  | _ => True
  end.
Proof.
  split.
  - apply (confined_trampoline_to_nbd B argv w).
  - apply (confined_main B argv w).
Qed.

(** X10.  The two modes of [main] do not mix.  With [--nbd] among the
    leading flags the process never erases or resets the bucket, never
    creates the store and never calls FUSE; without it the process never
    starts, awaits or signals another process, never looks at or removes a
    file, and installs no signal handler. *)
Theorem modes_are_separate (B : build) (argv : list string) (w : world) :
  exists ext,
    trace (world_of (main B argv w)) = trace w ++ ext /\
    forallb (if look_for_nbd (drop 1 argv) then nbd_side else fuse_side) ext
    = true.
Proof. apply (confined_main B argv w). Qed.

Lemma confined_Ret {A} ok (Q : A -> Prop) (m : M A) w a w' :
  confined ok Q m -> m w = Ret a w' -> Q a.
Proof. intros H Hrun. destruct (H w) as [_ Hq]. now rewrite Hrun in Hq. Qed.

Lemma hoare_Ret {A} (P : world -> Prop) (m : M A) Q E w a w' :
  hoare P m Q E -> P w -> m w = Ret a w' -> Q a w'.
Proof. intros H Hw Hrun. specialize (H w Hw). now rewrite Hrun in H. Qed.

(** [wait_for_all] returns only when no child is left. *)
Lemma wait_for_all_Ret fuel w w' :
  is_Some (config w) -> num_child_pids w <= length (child_pids w) ->
  wait_for_all fuel w = Ret tt w' ->
  num_child_pids w' = 0 /\ config w' = config w.
Proof.
  revert w. induction fuel as [|fuel IH]; intros w Hc Hn; [discriminate|].
  simpl. intros Hrun. apply bind_Ret in Hrun as (r & w1 & Hwait & Hrun).
  apply wait_for_child_to_exit_Ret in Hwait
    as [(-> & Hz & _ & ->)|[(-> & (Hp & Hnum) & (Hcfg & _ & Hlen) & _)|
        (p & rest & -> & _ & _ & _ & (Hcfg & _ & Hlen) & Hreap)]];
    try assumption.
  - injection Hrun as <-. auto.
  - simpl in Hrun. apply IH in Hrun as [Hz Hcfg']; [|congruence|].
    + split; [exact Hz|congruence].
    + unfold pid_t in *. lia.
  - simpl in Hrun. apply IH in Hrun as [Hz Hcfg']; [|congruence|].
    + split; [exact Hz|congruence].
    + destruct (decide (Z.pos p ∈ recorded w)) as [Hin|Hout].
      * destruct Hreap as [Hrem _]. destruct (Hrem Hin) as (k & _ & _ & _ & Hnum).
        unfold pid_t in *. lia.
      * destruct Hreap as [_ Hsame]. destruct (Hsame Hout) as [_ Hnum].
        unfold pid_t in *. lia.
Qed.

(** A [clean_up] that returns has reaped every child and has removed the
    socket file last. *)
Lemma clean_up_Ret B device_param unix_socket w r w' :
  has_config w -> num_child_pids w <= length (child_pids w) ->
  clean_up B device_param unix_socket w = Ret r w' ->
  r = 0%Z /\ num_child_pids w' = 0 /\
  exists pre, trace w' = pre ++ [Unlink unix_socket].
Proof.
  intros Hc Hn. rewrite clean_up_eq. intros Hrun.
  apply bind_Ret in Hrun as (client_pid & w1 & Hstart & Hrun).
  apply start_child_process_Ret in Hstart
    as (Hlt & _ & _ & Hnum1 & Hlen1 & Hcfg1); [|assumption].
  assert (Hc1 : has_config w1) by (unfold has_config in *; congruence).
  apply bind_Ret in Hrun as ([] & w2 & Hkill & Hrun).
  apply (quiet_Ret has_config) in Hkill as (Hp2 & Hnum2 & Hcfg2);
    [|apply quiet_kill_remaining_children|assumption].
  unfold wait_and_unlink in Hrun.
  apply bind_Ret in Hrun as (w0 & ? & [= <- <-] & Hrun).
  apply bind_Ret in Hrun as ([] & w3 & Hwait & Hrun).
  apply wait_for_all_Ret in Hwait as [Hz _].
  - injection Hrun as <- <-. simpl. split; [reflexivity|]. split; [exact Hz|].
    now exists (trace w3).
  - unfold has_config in Hc1. congruence.
  - rewrite Hp2, Hnum2. unfold pid_t in *. lia.
Qed.

(** X9.  When [trampoline_to_nbd] returns 0, no child is recorded any
    more: every process it has started was reaped (signals that interrupt
    the last waits do not end them), and the last thing it did was to
    remove the socket file, the one named after the device as the first
    [stat] of the run described it. *)
Theorem trampoline_success (B : build) (argv : list string) (o : oracle)
    (w' : world) :
  trampoline_to_nbd B argv (initial_world o) = Ret 0%Z w' ->
  num_child_pids w' = 0 /\
  exists st_dev st_ino rest pre,
    stat_replies o = StatOk st_dev st_ino :: rest /\
    trace w' = pre ++ [Unlink (unix_socket_name B st_dev st_ino)].
Proof.
  assert (Hinit : table_within 0 (initial_world o)).
  { split; [simpl; lia|apply length_replicate]. }
  unfold trampoline_to_nbd. intros Hrun.
  apply bind_Ret in Hrun as (r & w1 & Hx & Hrun).
  apply (quiet_Ret any_state) in Hx as Hs1;
    [|apply quiet_extract_nbd_flags|exact I].
  destruct r as [r|x].
  { apply (confined_Ret _ _ _ _ _ _
             (confined_extract_nbd_flags nbd_side no_fork_nbd_side _ _ _ _)) in Hx.
    simpl in Hx. injection Hrun as -> _. discriminate. }
  destruct (extract_nbd_flags_Continue _ _ _ _ _ _ _ Hx) as (Hw1 & _).
  destruct (two_remaining x) as [r|[bucket_param device_param]] eqn:Htwo.
  { apply two_remaining_Return in Htwo. injection Hrun as -> _. discriminate. }
  apply bind_Ret in Hrun as (r & w2 & Hstart & Hrun).
  pose proof Hstart as Hsock.
  apply (confined_Ret _ _ _ _ _ _ (confined_start_servers _ _ _ _)) in Hstart as Hr.
  apply (hoare_Ret _ _ _ _ _ _ _ (hoare_start_servers B x _ _)) in Hstart;
    [|eapply table_within_same_table; eassumption].
  destruct r as [r|[client_pid unix_socket]].
  { simpl in Hr. injection Hrun as -> _. destruct Hr; discriminate. }
  apply start_servers_Ret in Hsock
    as (st_dev & st_ino & rest & c & Hstat & -> & _ & _).
  rewrite Hw1 in Hstat. simpl in Hstat.
  unfold supervise_children in Hrun.
  apply bind_Ret in Hrun as ([] & w3 & Hinst & Hrun).
  apply (quiet_Ret any_state) in Hinst as Hs3;
    [|apply quiet_install_handlers|exact I].
  apply bind_Ret in Hrun as (w0 & ? & [= <- <-] & Hrun).
  apply bind_Ret in Hrun as (exit_pid & w4 & Hsup & Hrun).
  assert (H3 : configured_within 2 w3).
  { destruct Hstart as [Ht Hc]. split.
    - eapply table_within_same_table; eassumption.
    - eapply has_config_same_table; eassumption. }
  apply (hoare_Ret _ _ _ _ _ _ _ (hoare_supervise 2 _ _ (le_S _ _ (le_n 2))))
    in Hsup; [|exact H3].
  destruct Hsup as [[Hnum Hlen] Hc4].
  apply clean_up_Ret in Hrun as (_ & Hz & pre & Htr); [| assumption |].
  - split; [exact Hz|]. exists st_dev, st_ino, rest, pre. now split.
  - rewrite Hlen. unfold MAX_CHILD_PROCESSES. lia.
Qed.

Lemma trampoline_success_witness :
  num_child_pids
    (world_of (trampoline_to_nbd Sample.B nbd_run_argv (initial_world Sample.o)))
  = 0 /\
  exists pre,
    trace (world_of (trampoline_to_nbd Sample.B nbd_run_argv
                       (initial_world Sample.o)))
    = pre ++ [Unlink (unix_socket_name Sample.B 5 77)].
Proof.
  destruct (trampoline_success Sample.B nbd_run_argv Sample.o
              (world_of (trampoline_to_nbd Sample.B nbd_run_argv
                           (initial_world Sample.o))))
    as (Hz & st_dev & st_ino & rest & pre & Hstat & Htr).
  - vm_compute. reflexivity.
  - injection Hstat as <- <- _. split; [exact Hz|]. exists pre. exact Htr.
Defined.

Lemma two_remaining_Continue x bucket_param device_param :
  two_remaining x = Continue (bucket_param, device_param) ->
  x_rest x = [bucket_param; device_param].
Proof.
  unfold two_remaining. destruct (x_rest x) as [|a [|b [|c l]]]; congruence.
Qed.

(** X11.  A run of [trampoline_to_nbd] that returns 0 has started three
    processes, in this order: [nbdkit], with its options (by the
    configuration), the socket, the values of the ["--nbd-flag="] flags,
    the plugin name, the converted s3backer flags, the bucket and the
    values of the ["--nbd-param="] flags; [nbd-client] on the socket and
    the device; and [nbd-client -d] on the device.  The bucket and the
    device are the two positional parameters, the socket file is named
    after the device as [stat] describes it, and the configuration is read
    from the command line without its ["--nbd"] flags. *)
Theorem trampoline_children (B : build) (argv : list string) (o : oracle)
    (w' : world) :
  trampoline_to_nbd B argv (initial_world o) = Ret 0%Z w' ->
  exists x bucket_param device_param st_dev st_ino rest c,
    let flags := leading_flags (drop 1 argv) in
    let unix_socket := unix_socket_name B st_dev st_ino in
    x_kept x ++ x_rest x
    = take 1 argv ++ filter (fun flag => has_prefix "--nbd" flag = false) flags
               ++ drop (length flags) (drop 1 argv) /\
    x_nbd_flags x = omap (strip_prefix "--nbd-flag=") flags /\
    x_nbd_params x = omap (strip_prefix "--nbd-param=") flags /\
    positional (drop 1 argv) = [bucket_param; device_param] /\
    stat_replies o = StatOk st_dev st_ino :: rest /\
    s3backer_get_config o (x_kept x ++ x_rest x) true true = Some c /\
    forks (trace w')
    = [(NBDKIT_EXECUTABLE B, nbdkit_command B c x bucket_param unix_socket);
       (NBD_CLIENT_EXECUTABLE B,
        nbd_client_command B c device_param unix_socket);
       (NBD_CLIENT_EXECUTABLE B, clean_up_command B device_param)].
Proof.
  unfold trampoline_to_nbd. intros H.
  step H as r w1 Hx.
  destruct r as [r|x].
  { apply (confined_Ret _ _ _ _ _ _
             (confined_extract_nbd_flags nbd_side no_fork_nbd_side _ _ _ _)) in Hx.
    simpl in Hx. injection H as -> _. discriminate. }
  destruct (extract_nbd_flags_Continue _ _ _ _ _ _ _ Hx) as (-> & Hk & Hf & Hp).
  destruct (extract_nbd_flags_cases (take 1 argv) (drop 1 argv) [] []
              (initial_world o)) as [[w1 Hret]|(x1 & Hret & Hrest)];
    [congruence|].
  assert (x1 = x) as -> by congruence. clear Hret Hx.
  destruct (two_remaining x) as [r|[bucket_param device_param]] eqn:Htwo.
  { apply two_remaining_Return in Htwo. injection H as -> _. discriminate. }
  apply two_remaining_Continue in Htwo.
  step H as r w2 Hstart.
  destruct r as [r|[client_pid unix_socket]].
  { apply (confined_Ret _ _ _ _ _ _ (confined_start_servers _ _ _ _)) in Hstart.
    simpl in Hstart. injection H as -> _. destruct Hstart; discriminate. }
  apply start_servers_Ret in Hstart
    as (st_dev & st_ino & rest & c & Hstat & -> & Hcfg & G1).
  unfold supervise_children in H.
  step H as u1 w3 Hs. quiet_in Hs G2.
  step H as w0 w4 Hs. injection Hs as <- <-.
  step H as exit_pid w5 Hs. quiet_in Hs G3.
  rewrite clean_up_eq in H.
  step H as cleanup w6 Hs. apply start_child_process_grows in Hs as G4.
  step H as u2 w7 Hs'. quiet_in Hs' G5.
  unfold wait_and_unlink in H.
  step H as w0 w8 Hs'. injection Hs' as <- <-.
  step H as u3 w9 Hs'. quiet_in Hs' G6.
  step H as u4 w10 Hs'. quiet_in Hs' G7.
  injection H as <-.
  exists x, bucket_param, device_param, st_dev, st_ino, rest, c. cbv zeta.
  split; [exact Hk|]. split; [exact Hf|]. split; [exact Hp|].
  split; [congruence|]. split; [exact Hstat|]. split; [exact Hcfg|].
  pose proof (grows_trans _ _ _ _ _ G1
               (grows_quiet _ _ _ _ G2
                  (grows_quiet _ _ _ _ G3
                     (grows_trans _ _ _ _ _ G4
                        (grows_quiet _ _ _ _ G5
                           (grows_quiet _ _ _ _ G6 G7))))))
    as (ext & Htr & Hforks).
  rewrite Htr. exact Hforks.
Qed.

Lemma trampoline_children_witness :
  exists x bucket_param device_param st_dev st_ino rest c,
    let w' := world_of (trampoline_to_nbd Sample.B nbd_run_argv
                          (initial_world Sample.o)) in
    let flags := leading_flags (drop 1 nbd_run_argv) in
    let unix_socket := unix_socket_name Sample.B st_dev st_ino in
    x_kept x ++ x_rest x
    = take 1 nbd_run_argv
      ++ filter (fun flag => has_prefix "--nbd" flag = false) flags
      ++ drop (length flags) (drop 1 nbd_run_argv) /\
    x_nbd_flags x = omap (strip_prefix "--nbd-flag=") flags /\
    x_nbd_params x = omap (strip_prefix "--nbd-param=") flags /\
    positional (drop 1 nbd_run_argv) = [bucket_param; device_param] /\
    stat_replies Sample.o = StatOk st_dev st_ino :: rest /\
    s3backer_get_config Sample.o (x_kept x ++ x_rest x) true true = Some c /\
    forks (trace w')
    = [(NBDKIT_EXECUTABLE Sample.B,
        nbdkit_command Sample.B c x bucket_param unix_socket);
       (NBD_CLIENT_EXECUTABLE Sample.B,
        nbd_client_command Sample.B c device_param unix_socket);
       (NBD_CLIENT_EXECUTABLE Sample.B,
        clean_up_command Sample.B device_param)].
Proof.
  apply (trampoline_children Sample.B nbd_run_argv Sample.o).
  vm_compute. reflexivity.
Defined.

Lemma nbd_side_no_store_action ext :
  forallb nbd_side ext = true -> List.filter store_action ext = [].
Proof.
  induction ext as [|e ext IH]; [reflexivity|]. simpl.
  intros H. apply andb_true_iff in H as [He Hext].
  rewrite (IH Hext). destruct e; try discriminate; reflexivity.
Qed.

(** X12.  [main] does at most one of three things to the bucket: it
    erases it, it resets its mounted flag, or it creates the store; and a
    run that erases or resets ends with status 0 when the operation
    returned 0 and with status 1 otherwise. *)
Theorem one_store_action (B : build) (argv : list string) (o : oracle) :
  let out := main B argv (initial_world o) in
  length (List.filter store_action (trace (world_of out))) <= 1 /\
  (Erase ∈ trace (world_of out) ->
   exit_status out = Some (maintenance_status (s3backer_erase o))) /\
  (Reset ∈ trace (world_of out) ->
   exit_status out = Some (maintenance_status (s3backer_reset o))).
Proof.
  cbv zeta. destruct (look_for_nbd (drop 1 argv)) eqn:Hnbd.
  - destruct (confined_main B argv (initial_world o)) as [(ext & Htr & Hok) _].
    rewrite Hnbd in Hok. simpl in Htr. rewrite Htr.
    pose proof (nbd_side_no_store_action ext Hok) as Hnone.
    rewrite Hnone. split; [simpl; lia|].
    assert (Hno : forall e, store_action e = true -> e ∉ ext).
    { intros e He Hin.
      assert (H : In e (List.filter store_action ext)).
      { apply filter_In. split; [|exact He]. now apply list_elem_of_In. }
      now rewrite Hnone in H. }
    split; intros Hin; exfalso; eapply Hno; try exact Hin; reflexivity.
  - unfold main. rewrite Hnbd. unfold maintenance_status.
    cbn -[Z.eqb]. destruct (s3backer_get_config o argv false false) as [c|]; cbn -[Z.eqb].
    2:{ split; [lia|]. split; intros Hin;
          repeat (apply elem_of_cons in Hin as [Hin|Hin]; [discriminate|]);
          inversion Hin. }
    destruct (Config.nbd c), (Config.erase c), (Config.reset c),
      (s3backer_erase o =? 0)%Z, (s3backer_reset o =? 0)%Z,
      (s3backer_create_store o), (Config.foreground c), (fuse_ops_create o),
      (fuse_main o =? 0)%Z; cbn;
      (split; [lia|]; split; intros Hin;
       repeat (apply elem_of_cons in Hin as [Hin|Hin];
               [first [discriminate|reflexivity]|]);
       inversion Hin).
Qed.

(** ** The further statements at sample inputs *)

Lemma start_child_process_cases_witness :
  exists w',
    start_child_process "nbdkit" ["nbdkit"] configured = Ret 100%Z w' /\
    recorded w' = recorded configured ++ [100%Z] /\
    num_child_pids w' = S (num_child_pids configured) /\
    fork_replies (os w') = [Some 101%positive; Some 102%positive] /\
    trace w' = trace configured ++ executing_log Sample.c ["nbdkit"]
               ++ [ForkOff "nbdkit" ["nbdkit"]]
               ++ debug_log Sample.c ["started %s as process %d"].
Proof.
  apply (proj2 (proj2 (start_child_process_cases "nbdkit" ["nbdkit"] configured
                         Sample.c eq_refl eq_refl)) 100%positive).
  - vm_compute. lia.
  - reflexivity.
Defined.

Lemma start_then_reap_witness :
  exists w2,
    record_child_exited 100%Z
      (world_of (start_child_process "nbdkit" ["nbdkit"] configured))
    = Ret tt w2 /\
    recorded w2 ≡ₚ recorded configured /\
    num_child_pids w2 = num_child_pids configured /\
    ((100%Z ∉ recorded configured) -> recorded w2 = recorded configured).
Proof.
  apply (start_then_reap "nbdkit" ["nbdkit"] configured 100%Z).
  - exists Sample.c. reflexivity.
  - vm_compute. reflexivity.
Defined.

Lemma kill_remaining_children_signals_witness :
  exists w' ext,
    kill_remaining_children 102%Z Sample.w = Ret tt w' /\
    trace w' = trace Sample.w ++ ext /\
    kills ext = map (fun pid => (pid, SIGTERM))
                    (filter (fun pid => pid <> 102%Z) (recorded Sample.w)) /\
    table_unchanged Sample.w w' /\ os w' = os Sample.w.
Proof.
  apply (kill_remaining_children_signals 102%Z Sample.w Sample.c eq_refl).
  simpl. lia.
Defined.

Lemma wait_for_socket_polls_witness :
  exists w',
    wait_for_socket 22 0 "/run/s3backer-nbd/0_0" Sample.w = Ret true w' /\
    trace w' = trace Sample.w
               ++ concat (replicate 0 (poll "/run/s3backer-nbd/0_0"))
               ++ [Stat "/run/s3backer-nbd/0_0"] /\
    stat_replies (os w') = [StatErr ENOENT; StatOk 5 78].
Proof.
  apply (proj1 (wait_for_socket_polls 22 "/run/s3backer-nbd/0_0" Sample.w
                  ltac:(vm_compute; lia)) 0 5%Z 77%Z).
  - vm_compute. lia.
  - reflexivity.
Defined.

Lemma extract_nbd_flags_result_witness :
  let x := {| x_kept := ["s3backer"; "--blockSize=4k"];
              x_rest := ["bucket"; "/dev/nbd0"];
              x_nbd_flags := ["-v"]; x_nbd_params := ["x=1"] |} in
  let flags := leading_flags (drop 1 flags_argv) in
  initial_world Sample.o = initial_world Sample.o /\
  x_kept x ++ x_rest x
  = take 1 flags_argv
    ++ filter (fun flag => has_prefix "--nbd" flag = false) flags
    ++ drop (length flags) (drop 1 flags_argv) /\
  x_rest x = positional (drop 1 flags_argv) /\
  x_nbd_flags x = omap (strip_prefix "--nbd-flag=") flags /\
  x_nbd_params x = omap (strip_prefix "--nbd-param=") flags.
Proof.
  apply (extract_nbd_flags_result flags_argv (initial_world Sample.o)).
  reflexivity.
Defined.

(** ** Forwarding of signals, from the handlers to the kills *)

Lemma waiting_wait : confined waiting_event any_value wait.
Proof. unfold wait. confined_all. Qed.

Lemma waiting_usleep : confined waiting_event any_value usleep.
Proof. unfold usleep. confined_all. Qed.

Lemma waiting_handle_signal sig : confined waiting_event any_value (handle_signal sig).
Proof. unfold handle_signal. confined_all. Qed.

#[export] Hint Resolve waiting_wait waiting_usleep waiting_handle_signal : confined.

Lemma waiting_deliver sig : confined waiting_event any_value (deliver sig).
Proof. unfold deliver. confined_all. Qed.

#[export] Hint Resolve waiting_deliver : confined.

Lemma waiting_sleep_until_signal fuel :
  confined waiting_event any_value (sleep_until_signal fuel).
Proof. induction fuel; simpl; confined_all. Qed.

Lemma waiting_record_child_exited_from fuel i pid :
  confined waiting_event any_value (record_child_exited_from fuel i pid).
Proof. revert i. induction fuel; intros i; simpl; confined_all. Qed.

#[export] Hint Resolve waiting_sleep_until_signal waiting_record_child_exited_from
  : confined.

Lemma waiting_record_child_exited pid :
  confined waiting_event any_value (record_child_exited pid).
Proof. unfold record_child_exited. confined_all. Qed.

#[export] Hint Resolve waiting_record_child_exited : confined.

Lemma waiting_wait_for_child_to_exit sleep_if_none :
  confined waiting_event any_value (wait_for_child_to_exit sleep_if_none).
Proof. unfold wait_for_child_to_exit. confined_all. Qed.

#[export] Hint Resolve waiting_wait_for_child_to_exit : confined.

(** The supervision loop only waits. *)
Lemma waiting_supervise fuel client_pid :
  confined waiting_event any_value (supervise fuel client_pid).
Proof. revert client_pid. induction fuel; intros client_pid; simpl; confined_all. Qed.

Lemma waiting_no_kill ext : forallb waiting_event ext = true -> kills ext = [].
Proof.
  induction ext as [|e ext IH]; [reflexivity|]. simpl.
  intros H. apply andb_true_iff in H as [He Hext].
  destruct e; try discriminate; simpl; auto.
Qed.

Lemma install_handlers_all sigs w :
  (forall sig, sig ∈ sigs -> sigaction_ok (os w) sig = true) ->
  install_handlers sigs w
  = Ret tt {| child_pids := child_pids w; num_child_pids := num_child_pids w;
              config := config w; handlers := rev sigs ++ handlers w;
              trace := trace w ++ map Sigaction sigs; os := os w |}.
Proof.
  revert w. induction sigs as [|sig sigs IH]; intros w Hall; simpl.
  - rewrite app_nil_r. now destruct w.
  - unfold bind at 1. rewrite emit_eq. unfold bind at 1. unfold get.
    cbn [os with_trace]. rewrite (Hall sig) by (left).
    unfold bind at 1. unfold add_handler.
    rewrite IH by (intros s Hs; apply Hall; now right).
    cbn. now rewrite <- !app_assoc.
Qed.

Lemma install_handlers_fails sigs w sig :
  sig ∈ sigs -> sigaction_ok (os w) sig = false ->
  exists w', install_handlers sigs w = Exit 1%Z w'.
Proof.
  revert w. induction sigs as [|s sigs IH]; intros w Hin Hno; [inversion Hin|].
  simpl. unfold bind at 1. rewrite emit_eq. unfold bind at 1. unfold get.
  cbn [os with_trace].
  destruct (sigaction_ok (os w) s) eqn:Hs.
  - unfold bind at 1. unfold add_handler.
    apply elem_of_cons in Hin as [->|Hin]; [congruence|].
    apply IH; assumption.
  - eexists. reflexivity.
Qed.

Lemma reaped_num pid w w' : reaped pid w w' -> num_child_pids w' <= num_child_pids w.
Proof.
  intros [Hin Hout]. destruct (decide (pid ∈ recorded w)) as [H|H].
  - destruct (Hin H) as (k & _ & _ & _ & Hnum). lia.
  - destruct (Hout H) as [_ Hnum]. lia.
Qed.

(** A trigger ends the loop, whatever the loop has been through. *)
Lemma supervise_ends c client_pid w :
  loop_trigger c client_pid w ->
  forall fuel,
    config w = Some c -> num_child_pids w <= length (child_pids w) ->
    (forall sig, sig ∈ forward_signals -> sig ∈ handlers w) ->
    client_pid <> (-1)%Z ->
    length (wait_replies (os w)) <= fuel ->
    exists r w2,
      supervise (S fuel) client_pid w = Ret r w2 /\
      config w2 = Some c /\
      length (child_pids w2) = length (child_pids w) /\
      num_child_pids w2 <= num_child_pids w.
Proof.
  induction 1 as [client_pid w sig Hsig Hint|client_pid w p rest Hnz Hr Hp
                 |client_pid w p rest w1 Hnz Hr Hp Hwait Htrig IH];
    intros fuel Hc Hn Hh Hpid Hfuel.
  - destruct (wait_for_child_to_exit_signal (negb (Config.foreground c)) w sig)
      as [w2 Hrun]; eauto.
    exists (-1)%Z, w2. rewrite (supervise_step _ _ _ c Hc). unfold bind. rewrite Hrun.
    destruct (Z.eqb_spec (-1) client_pid) as [<-|_]; [contradiction|].
    split; [reflexivity|].
    apply wait_for_child_to_exit_Ret in Hrun
      as [(? & _)|[(_ & (Hp & Hnum) & (Hcfg & _ & Hlen) & _)|(p & ? & ? & _)]];
      try discriminate; eauto.
    split; [congruence|]. split; [assumption|]. lia.
  - destruct (wait_for_child_to_exit_pid (negb (Config.foreground c)) w p rest)
      as [w2 Hrun]; eauto.
    exists (Z.pos p), w2. rewrite (supervise_step _ _ _ c Hc). unfold bind. rewrite Hrun.
    destruct (Z.eqb_spec (Z.pos p) client_pid) as [|_]; [contradiction|].
    split; [reflexivity|].
    apply wait_for_child_to_exit_Ret in Hrun
      as [(? & _)|[(? & _)|(p' & rest' & _ & _ & _ & _ & (Hcfg & _ & Hlen) & Hreap)]];
      try discriminate; eauto.
    split; [congruence|]. split; [assumption|]. now apply reaped_num in Hreap.
  - rewrite Hr in Hfuel. simpl in Hfuel.
    destruct fuel as [|fuel]; [lia|].
    rewrite (supervise_step _ _ _ c Hc). unfold bind. rewrite Hwait.
    destruct (Z.eqb_spec (Z.pos p) client_pid) as [_|]; [|contradiction].
    apply wait_for_child_to_exit_Ret in Hwait
      as [(? & _)|[(? & _)|(p' & rest' & _ & _ & Hr' & Hos & (Hcfg & Hh1 & Hlen) & Hreap)]];
      try discriminate; eauto.
    apply reaped_num in Hreap.
    destruct (IH fuel) as (r & w2 & Hrun & Hc2 & Hlen2 & Hnum2).
    + congruence.
    + unfold pid_t in *. lia.
    + intros sig Hsig. rewrite Hh1. now apply Hh.
    + discriminate.
    + rewrite Hos, Hr in *. injection Hr' as _ <-. simpl. lia.
    + exists r, w2. split; [exact Hrun|].
      split; [exact Hc2|split; [congruence|lia]].
Qed.

Lemma kill_events_app c o except l1 l2 :
  kill_events c o except (l1 ++ l2)
  = kill_events c o except l1 ++ kill_events c o except l2.
Proof. unfold kill_events. apply bind_app. Qed.

Lemma kill_events_except c o except : kill_events c o except [except] = [].
Proof.
  rewrite kill_events_cons. destruct (decide (except = except)); [|contradiction].
  reflexivity.
Qed.

(** The clean-up when its [nbd-client] is started: the fork, then the
    kills, then the rest. *)
Lemma clean_up_started B device_param unix_socket w c q rest :
  config w = Some c -> length (child_pids w) = MAX_CHILD_PROCESSES ->
  num_child_pids w < MAX_CHILD_PROCESSES ->
  fork_replies (os w) = Some q :: rest ->
  exists w4,
    clean_up B device_param unix_socket w = wait_and_unlink unix_socket w4 /\
    trace w4 = trace w
               ++ executing_log c (clean_up_command B device_param)
               ++ [ForkOff (NBD_CLIENT_EXECUTABLE B)
                     (clean_up_command B device_param)]
               ++ debug_log c ["started %s as process %d"]
               ++ kill_events c (os w4) (Z.pos q) (recorded w) /\
    recorded w4 = recorded w ++ [Z.pos q].
Proof.
  intros Hc Hlen Hroom Hfork. rewrite clean_up_eq.
  unfold bind at 1. rewrite (start_child_process_eq _ _ _ _ Hc). cbv zeta.
  assert (H : (num_child_pids w <? MAX_CHILD_PROCESSES) = true)
    by (apply Nat.ltb_lt; lia).
  rewrite H. simpl negb. cbv iota.
  unfold bind at 1. rewrite fork_off_eq. simpl. rewrite Hfork.
  unfold bind at 1. unfold get at 1. simpl.
  assert (H' : (num_child_pids w <? length (child_pids w)) = true)
    by (apply Nat.ltb_lt; lia).
  rewrite H'.
  set (w3 := with_trace
                {| child_pids := <[num_child_pids w := Z.pos q]> (child_pids w);
                   num_child_pids := S (num_child_pids w);
                   config := config w; handlers := handlers w;
                   trace := (trace w ++ executing_log c (clean_up_command B device_param))
                            ++ [ForkOff (NBD_CLIENT_EXECUTABLE B)
                                  (clean_up_command B device_param)];
                   os := with_fork_replies rest (os w) |}
                (debug_log c ["started %s as process %d"])).
  match goal with
  | |- context [match ?m ?w0 with _ => _ end] =>
      assert (Hin : m w0 = Ret (Z.pos q) w3)
  end.
  { subst w3. unfold debug_log, when, bind, set_children, ret.
    destruct (Config.debug c); simpl; [reflexivity|].
    now rewrite with_trace_nil. }
  rewrite Hin. clear Hin.
  assert (Hrec : recorded w3 = recorded w ++ [Z.pos q]).
  { unfold recorded. simpl.
    rewrite (take_S_r _ _ (Z.pos q))
      by (apply list_lookup_insert_eq; unfold pid_t in *; lia).
    now rewrite take_insert_ge by lia. }
  destruct (kill_remaining_children_from_run (S (num_child_pids w3)) 0
              (Z.pos q) w3 c) as (w4 & Hkill & Htr & (Hp & Hnum & _) & Hos & _);
    [exact Hc|simpl; rewrite length_insert; unfold pid_t in *; lia|lia|].
  rewrite drop_0 in Htr.
  assert (Hk : kill_remaining_children (Z.pos q) w3 = Ret tt w4) by exact Hkill.
  exists w4. unfold bind at 1. rewrite Hk. split; [reflexivity|]. split.
  - rewrite Htr, Hrec, kill_events_app, kill_events_except, app_nil_r, Hos.
    subst w3. simpl. now rewrite <- !app_assoc.
  - unfold recorded in *. now rewrite Hp, Hnum.
Qed.

(** The clean-up when its [nbd-client] cannot be started: [daemon_err]
    ends the process before [kill_remaining_children] is reached. *)
Lemma clean_up_not_started B device_param unix_socket w c rest :
  config w = Some c -> num_child_pids w < MAX_CHILD_PROCESSES ->
  fork_replies (os w) = None :: rest ->
  exists w',
    clean_up B device_param unix_socket w = Exit 1%Z w' /\
    trace w' = trace w
               ++ executing_log c (clean_up_command B device_param)
               ++ [ForkOff (NBD_CLIENT_EXECUTABLE B)
                     (clean_up_command B device_param);
                   Log LOG_ERR "%s"] /\
    table_unchanged w w'.
Proof.
  intros Hc Hroom Hfork. rewrite clean_up_eq.
  unfold bind at 1. rewrite (start_child_process_eq _ _ _ _ Hc). cbv zeta.
  assert (H : (num_child_pids w <? MAX_CHILD_PROCESSES) = true)
    by (apply Nat.ltb_lt; lia).
  rewrite H. simpl negb. cbv iota.
  unfold bind at 1. rewrite fork_off_eq. simpl. rewrite Hfork.
  eexists. split; [reflexivity|]. simpl. split; [|repeat split].
  now rewrite <- !app_assoc.
Qed.

(** C6, as it reads, does not hold: in [Sample.serving_fork_fails] the
    handlers are installed and [SIGTERM] interrupts the first [wait], so
    the loop ends with [nbdkit] (100) and [nbd-client] (101) recorded;
    the [fork_off] of the clean-up client fails, [start_child_process]
    ends the process through [daemon_err] (lines 441-442), and
    [kill_remaining_children] is never reached: no child gets a signal. *)
Lemma forwards_whenever_fails : ~ forwards_whenever Sample.B.
Proof.
  intros H.
  assert (Hin : Kill 100%Z SIGTERM
                ∈ trace (world_of (supervise_children Sample.B 101%Z "/dev/nbd0"
                                     "/run/s3backer-nbd/0_0"
                                     Sample.serving_fork_fails))).
  { apply (H 101%Z "/dev/nbd0" "/run/s3backer-nbd/0_0" Sample.serving_fork_fails
             Sample.c eq_refl).
    - split; [simpl; lia|reflexivity].
    - lia.
    - reflexivity.
    - apply (signal_arrives _ _ _ SIGTERM); [set_solver|].
      right. split; [discriminate|]. now exists [].
    - vm_compute. left.
    - intros q rest Hf. vm_compute in Hf. discriminate. }
  vm_compute in Hin.
  repeat (apply elem_of_cons in Hin as [Hin|Hin]; [discriminate|]).
  inversion Hin.
Qed.

(** C6, amended.  With both servers running (at most two children
    recorded) and [client_pid] the pid of [nbd-client]:
    when a [sigaction] fails, the process exits with status 1 without
    having waited;
    when every [sigaction] succeeds, [handle_signal] is installed for
    [SIGHUP], [SIGINT], [SIGQUIT] and [SIGTERM] before the loop starts, and
    whenever one of these signals interrupts the wait or a child other than
    [nbd-client] exits, at once or after the exit of [nbd-client], the loop
    ends, having only waited, and the clean-up [nbd-client -d] is forked;
    when that fork succeeds, every child recorded at the end of the loop is
    sent [SIGTERM] once, the clean-up client apart, and the run goes on
    with the last waits;
    when that fork fails, the process exits with status 1 through
    [daemon_err] and no child is sent a signal. *)
Theorem signals_forwarded (B : build) (client_pid : pid_t)
    (device_param unix_socket : string) (w : world) (c : s3b_config) :
  config w = Some c -> table_within 2 w -> (0 < client_pid)%Z ->
  (forall sig,
     sig ∈ forward_signals -> sigaction_ok (os w) sig = false ->
     exists w' ext,
       supervise_children B client_pid device_param unix_socket w = Exit 1%Z w' /\
       trace w' = trace w ++ ext /\ (Wait ∉ ext) /\ (Usleep ∉ ext) /\
       table_unchanged w w') /\
  ((forall sig, sig ∈ forward_signals -> sigaction_ok (os w) sig = true) ->
   loop_trigger c client_pid (installed w) ->
   let w2 := loop_end client_pid w in
   let clean_up_client := (NBD_CLIENT_EXECUTABLE B, clean_up_command B device_param) in
   exists r waits,
     install_handlers forward_signals w = Ret tt (installed w) /\
     supervise (S (length (wait_replies (os w)))) client_pid (installed w)
     = Ret r w2 /\
     trace w2 = trace w ++ map Sigaction forward_signals ++ waits /\
     forallb waiting_event waits = true /\
     (forall q rest,
        fork_replies (os w2) = Some q :: rest ->
        exists w4,
          supervise_children B client_pid device_param unix_socket w
          = wait_and_unlink unix_socket w4 /\
          trace w4 = trace w2
                     ++ executing_log c (clean_up_command B device_param)
                     ++ [ForkOff clean_up_client.1 clean_up_client.2]
                     ++ debug_log c ["started %s as process %d"]
                     ++ kill_events c (os w4) (Z.pos q) (recorded w2) /\
          kills (trace w4)
          = kills (trace w)
            ++ map (fun pid => (pid, SIGTERM))
                   (filter (fun pid => pid <> Z.pos q) (recorded w2)) /\
          recorded w4 = recorded w2 ++ [Z.pos q]) /\
     (forall rest,
        fork_replies (os w2) = None :: rest ->
        exists w',
          supervise_children B client_pid device_param unix_socket w
          = Exit 1%Z w' /\
          trace w' = trace w2
                     ++ executing_log c (clean_up_command B device_param)
                     ++ [ForkOff clean_up_client.1 clean_up_client.2;
                         Log LOG_ERR "%s"] /\
          kills (trace w') = kills (trace w) /\
          table_unchanged w2 w')).
Proof.
  intros Hc [Hn Hlen] Hpid. split.
  - intros sig Hin Hno. rewrite supervise_children_eq.
    destruct (install_handlers_fails forward_signals w sig Hin Hno) as [w' Hrun].
    pose proof (install_handlers_run forward_signals w) as H.
    rewrite Hrun in *. destruct H as (_ & (Hp & Hnum & _) & ext & Htr & Hw & Hu).
    exists w', ext. repeat split; assumption.
  - intros Hall Htrig w2 clean_up_client.
    pose proof (supervise_children_eq B client_pid device_param unix_socket w)
      as Hwhole.
    rewrite (install_handlers_all _ _ Hall) in Hwhole.
    change {| child_pids := child_pids w |} with (installed w) in Hwhole.
    change (os (installed w)) with (os w) in Hwhole.
    destruct (supervise_ends c client_pid (installed w) Htrig
                (length (wait_replies (os w))))
      as (r & w2' & Hrun & Hc2 & Hlen2 & Hnum2).
    { exact Hc. }
    { simpl. unfold pid_t in *. rewrite Hlen. unfold MAX_CHILD_PROCESSES. lia. }
    { intros sig Hsig.
      change (handlers (installed w)) with (rev forward_signals ++ handlers w).
      apply elem_of_app. left. now apply elem_of_reverse. }
    { lia. }
    { reflexivity. }
    assert (w2' = w2) as ->.
    { subst w2. unfold loop_end. now rewrite Hrun. }
    simpl in Hlen2, Hnum2.
    destruct (waiting_supervise (S (length (wait_replies (os w)))) client_pid
                (installed w)) as [(waits & Htr & Hok) _].
    rewrite Hrun in Htr. simpl in Htr. rewrite <- app_assoc in Htr.
    assert (Hk2 : kills (trace w2) = kills (trace w)).
    { rewrite Htr, !kills_app, (waiting_no_kill _ Hok), app_nil_r.
      reflexivity. }
    exists r, waits. split; [exact (install_handlers_all _ _ Hall)|].
    split; [exact Hrun|]. split; [exact Htr|].
    split; [exact Hok|]. unfold bind in Hwhole. rewrite Hrun in Hwhole.
    rewrite Hwhole. split.
    + intros q rest Hfork.
      destruct (clean_up_started B device_param unix_socket w2 c q rest)
        as (w4 & Hclean & Htr4 & Hrec4); try assumption.
      { unfold pid_t in *. congruence. }
      { unfold MAX_CHILD_PROCESSES. lia. }
      exists w4. split; [exact Hclean|]. split; [exact Htr4|].
      split; [|exact Hrec4].
      rewrite Htr4, !kills_app, kills_kill_events, Hk2.
      unfold executing_log. rewrite !kills_debug_log. reflexivity.
    + intros rest Hfork.
      destruct (clean_up_not_started B device_param unix_socket w2 c rest)
        as (w' & Hclean & Htr' & Htab); try assumption.
      { unfold MAX_CHILD_PROCESSES. lia. }
      exists w'. split; [exact Hclean|]. split; [exact Htr'|].
      split; [|exact Htab].
      rewrite Htr', !kills_app, Hk2.
      unfold executing_log. rewrite kills_debug_log. simpl. apply app_nil_r.
Qed.

(** In [Sample.serving], [nbd-client] (101) exits first and [SIGTERM]
    arrives next: [nbdkit] (100) is sent [SIGTERM], and nothing else is. *)
Lemma signals_forwarded_witness :
  exists w4,
    supervise_children Sample.B 101%Z "/dev/nbd0" "/run/s3backer-nbd/0_0"
      Sample.serving
    = wait_and_unlink "/run/s3backer-nbd/0_0" w4 /\
    kills (trace w4) = [(100%Z, SIGTERM)] /\
    recorded w4 = [100%Z; 102%Z].
Proof.
  destruct (signals_forwarded Sample.B 101%Z "/dev/nbd0" "/run/s3backer-nbd/0_0"
              Sample.serving Sample.c eq_refl) as [_ H].
  - split; [simpl; lia|reflexivity].
  - lia.
  - destruct H as (r & waits & _ & _ & _ & _ & Hfork & _).
    + reflexivity.
    + eapply (client_exits_first _ _ _ 101%positive); [discriminate|reflexivity|
        reflexivity|vm_compute; reflexivity|].
      apply (signal_arrives _ _ _ SIGTERM); [set_solver|].
      right. split; [discriminate|]. eexists. reflexivity.
    + destruct (Hfork 102%positive [] eq_refl) as (w4 & Hrun & _ & Hkills & Hrec).
      exists w4. split; [exact Hrun|]. split; [exact Hkills|exact Hrec].
Defined.

(** * The layered block store *)

Module StoreProofs.
Import Store StoreSpec.

Section Proofs.

Context (block_size : nat) (md5 : block -> block) (max_retries : nat).

Abbreviation zeros := (zeros block_size).
Abbreviation is_zero := (is_zero block_size).
Abbreviation http_read := (http_read block_size md5 max_retries).
Abbreviation http_write := (http_write block_size md5 max_retries).
Abbreviation ec_read := (ec_read block_size md5 max_retries).
Abbreviation ec_write := (ec_write block_size md5 max_retries).
Abbreviation zc_read := (zc_read block_size md5 max_retries).
Abbreviation zc_write := (zc_write block_size md5 max_retries).
Abbreviation complete_read := (complete_read block_size md5 max_retries).
Abbreviation bc_read := (bc_read block_size md5 max_retries).
Abbreviation propagate := (propagate block_size md5 max_retries).
Abbreviation do_step := (do_step block_size md5 max_retries).
Abbreviation run := (run block_size md5 max_retries).
Abbreviation flush_entry := (flush_entry block_size md5 max_retries).
Abbreviation propagate_until := (propagate_until block_size md5 max_retries).
Abbreviation timely := (timely block_size md5 max_retries).
Abbreviation bc_flush := (bc_flush block_size md5 max_retries).
Abbreviation content := (content block_size).
Abbreviation zc_content := (zc_content block_size).
Abbreviation lower_content := (lower_content block_size).
Abbreviation object_content := (object_content block_size).
Abbreviation wf := (wf block_size md5).
Abbreviation intact := (intact block_size md5).
Abbreviation get_object := (get_object block_size md5).

(** ** HTTP I/O *)

Lemma http_retry_cases {A} (n : nat) (perform : store -> result A * store) s :
  (forall s, fst (perform s) <> Err TRANSIENT) ->
  exists n',
    http_retry n perform s = perform (set_net n' s) \/
    exists e, transport_failure e /\ http_retry n perform s = (Err e, set_net n' s).
Proof.
  intros Hp. revert s. induction n as [|n IH]; intros s; simpl;
    unfold http_once;
    (destruct (net s) as [|[] rest] eqn:Hnet; simpl;
     [ exists []
     | exists rest
     | | exists rest; right; exists IO; split; [now left|reflexivity]
     | exists rest; right; exists AUTH; split; [now right|reflexivity] ]).
  1,2,4,5:
    (match goal with |- context [let (_, _) := ?t in _] =>
       destruct t as [[a|[]] s2] eqn:Ht end;
     try (now left); exfalso; eapply Hp; rewrite Ht; reflexivity).
  - exists rest. right. exists IO. split; [now left|reflexivity].
  - destruct (IH (set_net rest s)) as [n' H]. exists n'. exact H.
Qed.

Lemma http_retry_healthy {A} (n : nat) (perform : store -> result A * store) s :
  (forall s, fst (perform s) <> Err TRANSIENT) -> net s = [] ->
  http_retry n perform s = perform (set_net [] s).
Proof.
  intros Hp Hnet. destruct n; simpl; unfold http_once; rewrite Hnet; simpl;
    (destruct (perform (set_net [] s)) as [[a|[]] s2] eqn:Ht;
     try reflexivity; exfalso; eapply Hp; rewrite Ht; reflexivity).
Qed.

Lemma get_object_not_transient i s : fst (get_object i s) <> Err TRANSIENT.
Proof.
  unfold get_object. destruct (observed i s) as [o|]; [|discriminate].
  destruct (intact o); discriminate.
Qed.

Lemma write_object_not_transient i x s :
  fst ((if is_zero x then delete_object i else put_object md5 i x) s)
  <> Err TRANSIENT.
Proof. destruct (is_zero x); discriminate. Qed.

Lemma wf_set_net n s : wf s -> wf (set_net n s).
Proof. intros []. constructor; assumption. Qed.

Lemma http_read_cases i s :
  exists n',
    http_read i s = get_object i (set_net n' s) \/
    exists e, transport_failure e /\ http_read i s = (Err e, set_net n' s).
Proof. apply http_retry_cases, get_object_not_transient. Qed.

Lemma get_object_settled i s :
  wf s -> ec s !! i = None ->
  get_object i s =
  (match latest s !! i with
   | Some o => Ok (body o)
   | None => Err NOT_FOUND
   end, s).
Proof.
  intros Hwf Hec. unfold get_object, observed.
  rewrite (wf_settled _ _ _ Hwf i Hec).
  destruct (latest s !! i) as [o|] eqn:Ho; [|reflexivity].
  now rewrite (wf_intact _ _ _ Hwf i o Ho).
Qed.

(** The zero cache reads what it holds, or fails with the transport. *)
Lemma zc_read_spec i s :
  wf s ->
  exists n',
    zc_read i s = (Ok (zc_content i s), set_net n' s) \/
    exists e, transport_failure e /\ zc_read i s = (Err e, set_net n' s) /\
              (i ∉ zero_bits s) /\ ec s !! i = None /\ net s <> [].
Proof.
  intros Hwf. unfold zc_read, zc_content, Store.zc_read, StoreSpec.zc_content.
  destruct (decide (i ∈ zero_bits s)) as [Hbit|Hbit].
  { exists (net s). left. now destruct s. }
  unfold lower_content, StoreSpec.lower_content, Store.ec_read.
  destruct (ec s !! i) as [d|] eqn:Hec.
  { exists (net s). left. now destruct s. }
  destruct (net s) as [|t rest] eqn:Hnet.
  - exists []. left. unfold Store.http_read.
    rewrite http_retry_healthy by (auto using get_object_not_transient).
    rewrite get_object_settled by (try apply wf_set_net; assumption).
    simpl. now destruct (latest s !! i).
  - destruct (http_read_cases i s) as [n' [H|(e & He & H)]]; exists n'.
    + left. rewrite H.
      rewrite get_object_settled by (try apply wf_set_net; assumption).
      simpl. now destruct (latest s !! i).
    + right. exists e. rewrite H.
      split; [assumption|].
      split; [now destruct He as [-> | ->]|].
      repeat split; try assumption. discriminate.
Qed.

Lemma zc_content_same_but i j s s' :
  same_but i s s' -> j <> i -> zc_content j s' = zc_content j s.
Proof.
  intros Hs Hj. destruct (Hs j Hj) as (Hb & He & Hl & _).
  unfold zc_content, StoreSpec.zc_content, StoreSpec.lower_content.
  rewrite He, Hl.
  destruct (decide (j ∈ zero_bits s')), (decide (j ∈ zero_bits s)); tauto.
Qed.

(** The invariant after the layers below the cache have changed what
    they hold for block [i], whose entry is not clean. *)
Lemma wf_same_but i s s' :
  wf s -> cache s' = cache s -> same_but i s s' ->
  (ec s' !! i = None -> stale s' !! i = None) ->
  (forall o, latest s' !! i = Some o -> intact o = true) ->
  (forall d, ec s' !! i = Some d -> object_content (latest s' !! i) = d) ->
  (i ∈ zero_bits s' -> latest s' !! i = None) ->
  (forall o, latest s' !! i = Some o -> body o <> zeros) ->
  (forall d, cache s !! i <> Some (Clean d)) ->
  wf s'.
Proof.
  intros Hwf Hc Hs H1 H2 H3 H4 H5 Hclean. constructor.
  - intros j Hj. destruct (decide (j = i)) as [->|Hne]; [auto|].
    destruct (Hs j Hne) as (_ & He & _ & Hst). rewrite Hst.
    apply (wf_settled _ _ _ Hwf). congruence.
  - intros j o Hj. destruct (decide (j = i)) as [->|Hne]; [auto|].
    destruct (Hs j Hne) as (_ & _ & Hl & _).
    apply (wf_intact _ _ _ Hwf j). congruence.
  - intros j d Hj. destruct (decide (j = i)) as [->|Hne]; [auto|].
    destruct (Hs j Hne) as (_ & He & Hl & _). rewrite Hl.
    apply (wf_remembered _ _ _ Hwf). congruence.
  - intros j d Hj. rewrite Hc in Hj.
    destruct (decide (j = i)) as [->|Hne]; [now destruct (Hclean d)|].
    rewrite (zc_content_same_but i j s s') by assumption.
    now apply (wf_clean _ _ _ Hwf).
  - intros j e d. rewrite Hc. apply (wf_length _ _ _ Hwf).
  - intros j inflight d. rewrite Hc. apply (wf_inflight _ _ _ Hwf).
  - intros j Hj. destruct (decide (j = i)) as [->|Hne]; [auto|].
    destruct (Hs j Hne) as (Hb & _ & Hl & _). rewrite Hl.
    apply (wf_zero_bit _ _ _ Hwf). tauto.
  - intros j o Hj. destruct (decide (j = i)) as [->|Hne]; [eauto|].
    destruct (Hs j Hne) as (_ & _ & Hl & _).
    apply (wf_nonzero _ _ _ Hwf j). congruence.
Qed.

Lemma is_zero_true d : is_zero d = true <-> d = zeros.
Proof. unfold is_zero, Store.is_zero. apply bool_decide_eq_true. Qed.

Lemma is_zero_false d : is_zero d = false <-> d <> zeros.
Proof. unfold is_zero, Store.is_zero. apply bool_decide_eq_false. Qed.

(** The zero cache writes [d] for block [i], or fails with the
    transport and leaves the bucket as it was. *)
Lemma zc_write_spec i d s r s' :
  wf s -> length d = block_size ->
  (forall d', cache s !! i <> Some (Clean d')) ->
  zc_write i d s = (r, s') ->
  wf s' /\ cache s' = cache s /\ same_but i s s' /\
  ((r = Ok tt /\ zc_content i s' = d /\
    (d = zeros -> i ∈ zero_bits s' /\ latest s' !! i = None) /\
    (d <> zeros -> i ∉ zero_bits s')) \/
   (exists e, r = Err e /\ transport_failure e /\ latest s' = latest s /\
              ec s' = ec s /\
              (d = zeros -> zero_bits s' = zero_bits s) /\
              (d <> zeros -> i ∉ zero_bits s'))).
Proof.
  intros Hwf Hlen Hclean. unfold zc_write, Store.zc_write, Store.ec_write.
  unfold Store.http_write.
  destruct (is_zero d) eqn:Hz;
    [apply is_zero_true in Hz as Hd|apply is_zero_false in Hz as Hd].
  - destruct (http_retry_cases max_retries (delete_object i) s)
      as [n' [H|(e & He & H)]]; [discriminate| |]; rewrite H; simpl;
      intros [= <- <-].
    + assert (Hsb : same_but i s
        (set_zero_bits (union {[i]})
           (set_ec (insert i d)
              (set_bucket (delete i (latest s))
                 (<[i:=observed i (set_net n' s)]> (stale s)) (set_net n' s))))).
      { intros j Hj. simpl. rewrite !lookup_insert_ne, lookup_delete_ne by auto.
        repeat split; try reflexivity; set_solver. }
      split; [|split; [reflexivity|split; [exact Hsb|]]].
      * eapply wf_same_but; try eassumption; try reflexivity; simpl.
        -- now rewrite lookup_insert_eq.
        -- intros o. now rewrite lookup_delete_eq.
        -- intros d'. rewrite lookup_insert_eq, lookup_delete_eq.
           intros [= <-]. now rewrite Hd.
        -- intros _. apply lookup_delete_eq.
        -- intros o. now rewrite lookup_delete_eq.
      * left. split; [reflexivity|]. split; [|split].
        -- unfold zc_content, StoreSpec.zc_content. simpl.
           destruct (decide (i ∈ {[i]} ∪ zero_bits s)); [now rewrite Hd|set_solver].
        -- intros _. simpl. split; [set_solver|apply lookup_delete_eq].
        -- intros Hne. contradiction.
    + assert (Hsb : same_but i s (set_net n' s))
        by (intros j Hj; simpl; repeat split; auto).
      split; [now apply wf_set_net|]. split; [reflexivity|]. split; [exact Hsb|].
      right. exists e. repeat split; try assumption. intros Hne. contradiction.
  - destruct (http_retry_cases max_retries (put_object md5 i d)
                (set_zero_bits (fun b => b ∖ {[i]}) s))
      as [n' [H|(e & He & H)]]; [discriminate| |]; rewrite H; simpl;
      intros [= <- <-].
    + match goal with |- wf ?s1 /\ _ => assert (Hsb : same_but i s s1) end.
      { intros j Hj. simpl. rewrite !lookup_insert_ne by auto.
        repeat split; try reflexivity; set_solver. }
      split; [|split; [reflexivity|split; [exact Hsb|]]].
      * eapply wf_same_but; try eassumption; try reflexivity; simpl.
        -- now rewrite lookup_insert_eq.
        -- intros o. rewrite lookup_insert_eq. intros [= <-].
           unfold intact, Store.intact. simpl.
           rewrite bool_decide_eq_true_2 by reflexivity.
           now apply Nat.eqb_eq.
        -- intros d'. rewrite !lookup_insert_eq. now intros [= <-].
        -- intros Hin. exfalso. set_solver.
        -- intros o. rewrite lookup_insert_eq. now intros [= <-].
      * left. split; [reflexivity|]. split; [|split].
        -- unfold zc_content, StoreSpec.zc_content, StoreSpec.lower_content.
           simpl. rewrite lookup_insert_eq.
           destruct (decide (i ∈ zero_bits s ∖ {[i]})); [set_solver|reflexivity].
        -- intros Heq. contradiction.
        -- intros _. simpl. set_solver.
    + match goal with |- wf ?s1 /\ _ => assert (Hsb : same_but i s s1) end.
      { intros j Hj. simpl. repeat split; try reflexivity; set_solver. }
      split; [|split; [reflexivity|split; [exact Hsb|]]].
      * eapply wf_same_but; try eassumption; try reflexivity; simpl.
        -- apply (wf_settled _ _ _ Hwf).
        -- apply (wf_intact _ _ _ Hwf).
        -- apply (wf_remembered _ _ _ Hwf).
        -- intros Hin. exfalso. set_solver.
        -- apply (wf_nonzero _ _ _ Hwf).
      * right. exists e. repeat split; try assumption; try contradiction.
        intros _. simpl. set_solver.
Qed.

(** ** Block cache *)

Lemma wf_insert i e s :
  wf s ->
  (forall d, e = Clean d -> zc_content i s = d) ->
  (forall d, entry_data e = Some d -> length d = block_size) ->
  (forall inflight d, e = Writing2 inflight d -> length inflight = block_size) ->
  wf (set_cache (insert i e) s).
Proof.
  intros Hwf H1 H2 H3. constructor; simpl;
    try apply (wf_settled _ _ _ Hwf); try apply (wf_intact _ _ _ Hwf);
    try apply (wf_remembered _ _ _ Hwf); try apply (wf_zero_bit _ _ _ Hwf);
    try apply (wf_nonzero _ _ _ Hwf).
  - intros j d. destruct (decide (j = i)) as [->|Hne].
    + rewrite lookup_insert_eq. intros [= ->]. now apply H1.
    + rewrite lookup_insert_ne by auto. apply (wf_clean _ _ _ Hwf).
  - intros j e' d. destruct (decide (j = i)) as [->|Hne].
    + rewrite lookup_insert_eq. intros [= <-]. apply H2.
    + rewrite lookup_insert_ne by auto. apply (wf_length _ _ _ Hwf).
  - intros j inflight d. destruct (decide (j = i)) as [->|Hne].
    + rewrite lookup_insert_eq. intros [= ->]. eapply H3. reflexivity.
    + rewrite lookup_insert_ne by auto. apply (wf_inflight _ _ _ Hwf).
Qed.

Lemma wf_delete i s : wf s -> wf (set_cache (delete i) s).
Proof.
  intros Hwf. constructor; simpl;
    try apply (wf_settled _ _ _ Hwf); try apply (wf_intact _ _ _ Hwf);
    try apply (wf_remembered _ _ _ Hwf); try apply (wf_zero_bit _ _ _ Hwf);
    try apply (wf_nonzero _ _ _ Hwf).
  - intros j d Hj. apply lookup_delete_Some in Hj as [_ Hj].
    now apply (wf_clean _ _ _ Hwf).
  - intros j e d Hj. apply lookup_delete_Some in Hj as [_ Hj].
    now apply (wf_length _ _ _ Hwf j e).
  - intros j inflight d Hj. apply lookup_delete_Some in Hj as [_ Hj].
    now apply (wf_inflight _ _ _ Hwf j inflight d).
Qed.

Lemma content_insert i e s j :
  content j (set_cache (insert i e) s) =
  if decide (j = i) then default (zc_content i s) (entry_data e)
  else content j s.
Proof.
  unfold content, StoreSpec.content. simpl.
  destruct (decide (j = i)) as [->|Hne].
  - rewrite lookup_insert_eq. simpl. now destruct (entry_data e).
  - now rewrite lookup_insert_ne by auto.
Qed.

Lemma content_delete i s j :
  content j (set_cache (delete i) s) =
  if decide (j = i) then zc_content i s else content j s.
Proof.
  unfold content, StoreSpec.content. simpl.
  destruct (decide (j = i)) as [->|Hne].
  - now rewrite lookup_delete_eq.
  - now rewrite lookup_delete_ne by auto.
Qed.

Lemma content_entry i e s :
  cache s !! i = Some e ->
  content i s = default (zc_content i s) (entry_data e).
Proof.
  intros H. unfold content, StoreSpec.content. rewrite H. simpl.
  now destruct (entry_data e).
Qed.

Lemma content_same_but i j s s' :
  cache s' = cache s -> same_but i s s' -> j <> i ->
  content j s' = content j s.
Proof.
  intros Hc Hs Hj. unfold content, StoreSpec.content. rewrite Hc.
  destruct (cache s !! j ≫= entry_data); [reflexivity|].
  now apply (zc_content_same_but i).
Qed.

(** The completion of a read leaves every block with its content and
    gives the content of [i], unless the transport fails. *)
Lemma complete_read_spec i newer s r s' :
  wf s ->
  cache s !! i = Some (match newer with Some d => Reading2 d | None => Reading end) ->
  complete_read i newer s = (r, s') ->
  wf s' /\ (forall j, content j s' = content j s) /\
  (r = Ok (content i s) \/
   exists e, r = Err e /\ transport_failure e /\ newer = None /\ net s <> [] /\
             ec s !! i = None /\ i ∉ zero_bits s).
Proof.
  intros Hwf Hentry. unfold complete_read, Store.complete_read.
  destruct (zc_read_spec i s Hwf) as [n' [Hr|(e & He & Hr & Hbit & Hec & Hnet)]];
    rewrite Hr; destruct newer as [d|]; simpl; intros [= <- <-].
  - split; [|split].
    + apply wf_insert; [now apply wf_set_net|discriminate| |discriminate].
      intros d' [= <-]. now apply (wf_length _ _ _ Hwf i (Reading2 d)).
    + intros j. rewrite content_insert. destruct (decide (j = i)) as [->|]; [|reflexivity].
      now rewrite (content_entry i _ s Hentry).
    + left. now rewrite (content_entry i _ s Hentry).
  - split; [|split].
    + apply wf_insert; [now apply wf_set_net| |
        |discriminate].
      * now intros d [= <-].
      * intros d [= <-]. unfold zc_content, StoreSpec.zc_content.
        destruct (decide (i ∈ zero_bits s)); [apply length_replicate|].
        unfold StoreSpec.lower_content.
        destruct (ec s !! i) as [d|] eqn:Hec.
        -- rewrite <- (wf_remembered _ _ _ Hwf i d Hec).
           destruct (latest s !! i) as [o|] eqn:Ho; simpl; [|apply length_replicate].
           pose proof (wf_intact _ _ _ Hwf i o Ho) as Hi.
           apply andb_true_iff in Hi as [_ Hi]. now apply Nat.eqb_eq.
        -- destruct (latest s !! i) as [o|] eqn:Ho; simpl; [|apply length_replicate].
           pose proof (wf_intact _ _ _ Hwf i o Ho) as Hi.
           apply andb_true_iff in Hi as [_ Hi]. now apply Nat.eqb_eq.
    + intros j. rewrite content_insert. destruct (decide (j = i)) as [->|]; [|reflexivity].
      now rewrite (content_entry i _ s Hentry).
    + left. now rewrite (content_entry i _ s Hentry).
  - split; [|split].
    + apply wf_insert; [now apply wf_set_net|discriminate| |discriminate].
      intros d' [= <-]. now apply (wf_length _ _ _ Hwf i (Reading2 d)).
    + intros j. rewrite content_insert. destruct (decide (j = i)) as [->|]; [|reflexivity].
      now rewrite (content_entry i _ s Hentry).
    + left. now rewrite (content_entry i _ s Hentry).
  - split; [|split].
    + apply wf_delete. now apply wf_set_net.
    + intros j. rewrite content_delete. destruct (decide (j = i)) as [->|]; [|reflexivity].
      now rewrite (content_entry i _ s Hentry).
    + right. exists e. repeat split; auto.
Qed.

Lemma bc_read_spec i s r s' :
  wf s -> bc_read i s = (r, s') ->
  wf s' /\ (forall j, content j s' = content j s) /\
  (r = Ok (content i s) \/
   exists e, r = Err e /\ transport_failure e /\
             cache s !! i ≫= entry_data = None /\ net s <> [] /\
             ec s !! i = None /\ i ∉ zero_bits s).
Proof.
  intros Hwf. unfold bc_read, Store.bc_read.
  destruct (cache s !! i) as [[d|d|d|inflight d| |d]|] eqn:Hentry;
    try (intros [= <- <-]; split; [assumption|]; split; [reflexivity|];
         left; now rewrite (content_entry i _ s Hentry)).
  - intros H. apply (complete_read_spec i None) in H; assumption.
  - intros H. apply (complete_read_spec i (Some d)) in H; assumption.
  - intros H. apply (complete_read_spec i None) in H.
    + assert (Hsame : forall j, content j (set_cache (insert i Reading) s)
                                = content j s).
      { intros j. rewrite content_insert. destruct (decide (j = i)) as [->|];
          [|reflexivity]. unfold content, StoreSpec.content. now rewrite Hentry. }
      destruct H as (Hwf' & Hc & [->|(e & -> & He & _ & Hnet & Hec & Hbit)]).
      * split; [assumption|]. split; [intros j; now rewrite Hc|].
        left. now rewrite Hsame.
      * split; [assumption|]. split; [intros j; now rewrite Hc|].
        right. exists e. repeat split; auto.
    + apply wf_insert; try assumption; discriminate.
    + simpl. apply lookup_insert_eq.
Qed.

Lemma bc_write_spec i x s :
  wf s -> length x = block_size ->
  fst (bc_write i x s) = Ok tt /\
  wf (snd (bc_write i x s)) /\
  content i (snd (bc_write i x s)) = x /\
  (forall j, j <> i -> content j (snd (bc_write i x s)) = content j s).
Proof.
  intros Hwf Hlen. unfold bc_write. simpl. split; [reflexivity|].
  split; [|split].
  - apply wf_insert; try assumption.
    + intros y Hy. destruct (cache s !! i) as [[]|]; discriminate.
    + intros y. destruct (cache s !! i) as [[]|]; simpl; now intros [= <-].
    + intros a y. destruct (cache s !! i) as [[]|] eqn:Hentry; try discriminate;
        intros [= <- <-].
      * eapply (wf_length _ _ _ Hwf i); [exact Hentry|reflexivity].
      * eapply (wf_inflight _ _ _ Hwf i); exact Hentry.
  - rewrite content_insert. destruct (decide (i = i)); [|congruence].
    now destruct (cache s !! i) as [[]|].
  - intros j Hj. rewrite content_insert. now destruct (decide (j = i)).
Qed.

(** The propagation of the data of an entry that is not clean. *)
Lemma propagate_spec i d s r s' :
  wf s -> length d = block_size ->
  (forall d', cache s !! i <> Some (Clean d')) ->
  content i s = d ->
  propagate i d s = (r, s') ->
  wf s' /\ (forall j, content j s' = content j s) /\
  (forall j, j <> i -> cache s' !! j = cache s !! j) /\
  ((r = Ok tt /\ cache s' !! i = Some (Clean d) /\
    (d = zeros -> latest s' !! i = None /\ i ∈ zero_bits s')) \/
   (exists e, r = Err e /\ transport_failure e)).
Proof.
  intros Hwf Hlen Hclean Hcontent. unfold propagate, Store.propagate.
  destruct (zc_write i d s) as [r1 s1] eqn:Hw.
  apply zc_write_spec in Hw as (Hwf1 & Hc1 & Hsb & Hcase); try assumption.
  assert (Hother : forall e j, j <> i ->
            content j (set_cache (insert i e) s1) = content j s).
  { intros e j Hj. rewrite content_insert. destruct (decide (j = i)); [contradiction|].
    now apply (content_same_but i). }
  destruct Hcase as [(-> & Hzc & Hzero & _)|(e & -> & He & _)];
    intros [= <- <-].
  - split; [|split; [|split]].
    + apply wf_insert; try assumption; try discriminate.
      * now intros d' [= <-].
      * now intros d' [= <-].
    + intros j. destruct (decide (j = i)) as [->|Hj]; [|now apply Hother].
      rewrite content_insert. now destruct (decide (i = i)).
    + intros j Hj. simpl. rewrite lookup_insert_ne by auto. now rewrite Hc1.
    + left. split; [reflexivity|]. split; [apply lookup_insert_eq|].
      intros Hd. destruct (Hzero Hd). auto.
  - split; [|split; [|split]].
    + apply wf_insert; try assumption; try discriminate.
      now intros d' [= <-].
    + intros j. destruct (decide (j = i)) as [->|Hj]; [|now apply Hother].
      rewrite content_insert. now destruct (decide (i = i)).
    + intros j Hj. simpl. rewrite lookup_insert_ne by auto. now rewrite Hc1.
    + right. eauto.
Qed.

(** ** Steps between two calls *)

Lemma wf_expire i s : wf s -> stale s !! i = None -> wf (set_ec (delete i) s).
Proof.
  intros Hwf Hst.
  assert (Hzc : forall j, zc_content j (set_ec (delete i) s) = zc_content j s).
  { intros j. unfold zc_content, StoreSpec.zc_content, StoreSpec.lower_content.
    simpl. destruct (decide (j ∈ zero_bits s)); [reflexivity|].
    destruct (decide (j = i)) as [->|Hne].
    - rewrite lookup_delete_eq. destruct (ec s !! i) as [d|] eqn:Hec; [|reflexivity].
      apply (wf_remembered _ _ _ Hwf i d Hec).
    - now rewrite lookup_delete_ne by auto. }
  constructor; simpl.
  - intros j Hj. destruct (decide (j = i)) as [->|Hne]; [assumption|].
    rewrite lookup_delete_ne in Hj by auto. now apply (wf_settled _ _ _ Hwf).
  - apply (wf_intact _ _ _ Hwf).
  - intros j d Hj. apply lookup_delete_Some in Hj as [_ Hj].
    now apply (wf_remembered _ _ _ Hwf).
  - intros j d Hj. rewrite Hzc. now apply (wf_clean _ _ _ Hwf).
  - apply (wf_length _ _ _ Hwf).
  - apply (wf_inflight _ _ _ Hwf).
  - apply (wf_zero_bit _ _ _ Hwf).
  - apply (wf_nonzero _ _ _ Hwf).
Qed.

Lemma content_expire i j s :
  wf s -> content j (set_ec (delete i) s) = content j s.
Proof.
  intros Hwf. unfold content, StoreSpec.content. simpl.
  destruct (cache s !! j ≫= entry_data); [reflexivity|].
  unfold zc_content, StoreSpec.zc_content, StoreSpec.lower_content.
  simpl. destruct (decide (j ∈ zero_bits s)); [reflexivity|].
  destruct (decide (j = i)) as [->|Hne].
  - rewrite lookup_delete_eq. destruct (ec s !! i) as [d|] eqn:Hec; [|reflexivity].
    apply (wf_remembered _ _ _ Hwf i d Hec).
  - now rewrite lookup_delete_ne by auto.
Qed.

Lemma wf_settle i s : wf s -> wf (set_bucket (latest s) (delete i (stale s)) s).
Proof.
  intros Hwf. constructor; simpl;
    try apply (wf_intact _ _ _ Hwf); try apply (wf_remembered _ _ _ Hwf);
    try apply (wf_clean _ _ _ Hwf); try apply (wf_length _ _ _ Hwf);
    try apply (wf_inflight _ _ _ Hwf); try apply (wf_zero_bit _ _ _ Hwf);
    try apply (wf_nonzero _ _ _ Hwf).
  intros j Hj. destruct (decide (j = i)) as [->|Hne].
  - apply lookup_delete_eq.
  - rewrite lookup_delete_ne by auto. now apply (wf_settled _ _ _ Hwf).
Qed.

(** A step that comes in time and is not a write of block [i] keeps the
    invariant and the content of [i]. *)
Lemma do_step_spec st s i :
  wf s -> allowed block_size i st -> timely_step st s ->
  wf (do_step st s) /\ content i (do_step st s) = content i s.
Proof.
  intros Hwf Hal Htime. destruct st as [j|j|j|j|j|j|j|t|j|j y];
    cbv beta iota delta [Store.do_step].
  - destruct (cache s !! j) as [[d|d|d|a d| |d]|] eqn:Hentry; try (split; [assumption|reflexivity]).
    split.
    + apply wf_insert; try assumption; try discriminate.
      intros y [= <-]. eapply (wf_length _ _ _ Hwf j); [exact Hentry|reflexivity].
    + rewrite content_insert. destruct (decide (i = j)) as [->|]; [|reflexivity].
      now rewrite (content_entry j _ s Hentry).
  - destruct (cache s !! j) as [[d|d|d|a d| |d]|] eqn:Hentry; try (split; [assumption|reflexivity]).
    + destruct (propagate j d s) as [r s'] eqn:Hp.
      apply propagate_spec in Hp as (Hwf' & Hc & _ & _); simpl; auto.
      * eapply (wf_length _ _ _ Hwf j); [exact Hentry|reflexivity].
      * intros d'. congruence.
      * now rewrite (content_entry j _ s Hentry).
    + destruct (zc_write j a s) as [r s1] eqn:Hw. simpl.
      apply zc_write_spec in Hw as (Hwf1 & Hc1 & Hsb & _); try assumption.
      * split.
        -- apply wf_insert; try assumption; try discriminate.
           intros y [= <-]. eapply (wf_length _ _ _ Hwf j); [exact Hentry|reflexivity].
        -- rewrite content_insert. destruct (decide (i = j)) as [->|Hne].
           ++ now rewrite (content_entry j _ s Hentry).
           ++ now apply (content_same_but j).
      * eapply (wf_inflight _ _ _ Hwf j); exact Hentry.
      * intros d'. congruence.
  - destruct (cache s !! j) as [e|] eqn:Hentry; [split; [assumption|reflexivity]|].
    split.
    + apply wf_insert; try assumption; discriminate.
    + rewrite content_insert. destruct (decide (i = j)) as [->|]; [|reflexivity].
      unfold content, StoreSpec.content. now rewrite Hentry.
  - destruct (cache s !! j) as [[d|d|d|a d| |d]|] eqn:Hentry; try (split; [assumption|reflexivity]).
    + destruct (complete_read j None s) as [r s'] eqn:Hr.
      apply complete_read_spec in Hr as (Hwf' & Hc & _);
        [simpl; auto|assumption|exact Hentry].
    + destruct (complete_read j (Some d) s) as [r s'] eqn:Hr.
      apply complete_read_spec in Hr as (Hwf' & Hc & _);
        [simpl; auto|assumption|exact Hentry].
  - destruct (cache s !! j) as [[d|d|d|a d| |d]|] eqn:Hentry; try (split; [assumption|reflexivity]).
    split; [now apply wf_delete|].
    rewrite content_delete. destruct (decide (i = j)) as [->|]; [|reflexivity].
    rewrite (content_entry j _ s Hentry). simpl.
    now apply (wf_clean _ _ _ Hwf).
  - split; [now apply wf_expire|now apply content_expire].
  - split; [now apply wf_settle|reflexivity].
  - split; [now apply wf_set_net|reflexivity].
  - destruct (bc_read j s) as [r s'] eqn:Hr.
    apply bc_read_spec in Hr as (Hwf' & Hc & _); simpl; auto.
  - destruct Hal as [Hne Hlen].
    destruct (bc_write_spec j y s Hwf Hlen) as (_ & Hwf' & _ & Hc).
    split; [exact Hwf'|]. apply Hc. congruence.
Qed.

Lemma run_spec steps s i :
  wf s -> Forall (allowed block_size i) steps -> timely steps s ->
  wf (run steps s) /\ content i (run steps s) = content i s.
Proof.
  intros Hwf Hall. revert s Hwf.
  induction Hall as [|st steps Hst Hall IH]; intros s Hwf Htime; simpl.
  - split; [assumption|reflexivity].
  - destruct Htime as [Ht Htime].
    destruct (do_step_spec st s i Hwf Hst Ht) as [Hwf1 Hc1].
    destruct (IH _ Hwf1 Htime) as [Hwf2 Hc2].
    split; [exact Hwf2|]. unfold run in *. simpl. now rewrite Hc2.
Qed.

(** ** Read after write *)


(** ** Zero blocks *)

(** What the retries use up of the failures the transport has in store. *)
Lemma http_retry_uses {A} (n : nat) (perform : store -> result A * store) s :
  (forall s, fst (perform s) <> Err TRANSIENT) ->
  exists n',
    length n' <= length (net s) /\
    (http_retry n perform s = perform (set_net n' s) \/
     exists e, transport_failure e /\ length n' < length (net s) /\
               http_retry n perform s = (Err e, set_net n' s)).
Proof.
  intros Hp.
  revert s. induction n as [|n IH]; intros s; simpl; unfold http_once;
    destruct (net s) as [|[] rest] eqn:Hnet; simpl.
  - exists []. split; [simpl; lia|]. left.
    destruct (perform (set_net [] s)) as [[a|[]] s2] eqn:Ht; try reflexivity.
    exfalso. eapply Hp. rewrite Ht. reflexivity.
  - exists rest. split; [simpl; lia|]. left.
    destruct (perform (set_net rest s)) as [[a|[]] s2] eqn:Ht; try reflexivity.
    exfalso. eapply Hp. rewrite Ht. reflexivity.
  - exists rest. split; [simpl; lia|]. right. exists IO.
    split; [now left|]. split; [simpl; lia|reflexivity].
  - exists rest. split; [simpl; lia|]. right. exists IO.
    split; [now left|]. split; [simpl; lia|reflexivity].
  - exists rest. split; [simpl; lia|]. right. exists AUTH.
    split; [now right|]. split; [simpl; lia|reflexivity].
  - exists []. split; [simpl; lia|]. left.
    destruct (perform (set_net [] s)) as [[a|[]] s2] eqn:Ht; try reflexivity.
    exfalso. eapply Hp. rewrite Ht. reflexivity.
  - exists rest. split; [simpl; lia|]. left.
    destruct (perform (set_net rest s)) as [[a|[]] s2] eqn:Ht; try reflexivity.
    exfalso. eapply Hp. rewrite Ht. reflexivity.
  - destruct (IH (set_net rest s)) as (n' & Hlen & H). simpl in Hlen.
    exists n'. split; [simpl; lia|].
    destruct H as [H|(e & He & Hlt & H)]; [left; exact H|].
    right. exists e. simpl in Hlt. split; [exact He|]. split; [lia|exact H].
  - exists rest. split; [simpl; lia|]. right. exists IO.
    split; [now left|]. split; [simpl; lia|reflexivity].
  - exists rest. split; [simpl; lia|]. right. exists AUTH.
    split; [now right|]. split; [simpl; lia|reflexivity].
Qed.

(** What a write of the zero cache does to the bitmap and to the bucket:
    an all-zero payload deletes the object and then sets the bit; another
    payload clears the bit and then puts the object; a write that fails
    has used up a failure of the transport and leaves the bucket as it
    was. *)
Lemma zc_write_effect i d s r s' :
  zc_write i d s = (r, s') ->
  cache s' = cache s /\
  (forall j, j <> i ->
     (j ∈ zero_bits s' <-> j ∈ zero_bits s) /\ latest s' !! j = latest s !! j) /\
  length (net s') <= length (net s) /\
  ((r = Ok tt /\
    latest s' = (if is_zero d then delete i (latest s)
                 else <[i := {| body := d; etag := md5 d |}]> (latest s)) /\
    zero_bits s' = (if is_zero d then {[i]} ∪ zero_bits s
                    else zero_bits s ∖ {[i]})) \/
   (exists e, r = Err e /\ transport_failure e /\ latest s' = latest s /\
              zero_bits s' = (if is_zero d then zero_bits s
                              else zero_bits s ∖ {[i]}) /\
              length (net s') < length (net s))).
Proof.
  unfold zc_write, Store.zc_write, Store.ec_write, Store.http_write.
  destruct (is_zero d) eqn:Hz.
  - destruct (http_retry_uses max_retries (delete_object i) s)
      as (n' & Hlen & [H|(e & He & Hlt & H)]); [discriminate| |]; rewrite H; simpl;
      intros [= <- <-]; simpl.
    + split; [reflexivity|]. split.
      { intros j Hj. rewrite lookup_delete_ne by auto. split; [set_solver|reflexivity]. }
      split; [exact Hlen|]. left. repeat split.
    + split; [reflexivity|]. split; [intros j Hj; split; reflexivity|].
      split; [lia|]. right. exists e. repeat split; assumption.
  - destruct (http_retry_uses max_retries (put_object md5 i d)
                (set_zero_bits (fun b => b ∖ {[i]}) s))
      as (n' & Hlen & [H|(e & He & Hlt & H)]); [discriminate| |]; rewrite H; simpl;
      intros [= <- <-]; simpl in *.
    + split; [reflexivity|]. split.
      { intros j Hj. rewrite lookup_insert_ne by auto. split; [set_solver|reflexivity]. }
      split; [exact Hlen|]. left. repeat split.
    + split; [reflexivity|]. split; [intros j Hj; split; [set_solver|reflexivity]|].
      split; [lia|]. right. exists e. repeat split; assumption.
Qed.

(** A read of the zero cache changes nothing but what the transport has
    in store. *)
Lemma zc_read_state i s : exists n', snd (zc_read i s) = set_net n' s.
Proof.
  unfold zc_read, Store.zc_read.
  destruct (decide (i ∈ zero_bits s)); [exists (net s); now destruct s|].
  unfold Store.ec_read.
  destruct (ec s !! i); [exists (net s); now destruct s|].
  destruct (http_read_cases i s) as [n' [H|(e & He & H)]]; exists n'; rewrite H.
  - unfold get_object, Store.get_object.
    destruct (observed i (set_net n' s)) as [o|]; [|reflexivity].
    destruct (intact o); reflexivity.
  - destruct He as [-> | ->]; reflexivity.
Qed.

Lemma untouched_refl i s : untouched i s s.
Proof. repeat split; auto. Qed.

Lemma untouched_trans i s1 s2 s3 :
  untouched i s1 s2 -> untouched i s2 s3 -> untouched i s1 s3.
Proof.
  intros (Hc & Hb & Hl) (Hc' & Hb' & Hl'). split; [congruence|].
  split; [tauto|congruence].
Qed.

Lemma untouched_set_net i n s : untouched i s (set_net n s).
Proof. repeat split; auto. Qed.

Lemma untouched_insert i j e s s' :
  j <> i -> untouched i s s' -> untouched i s (set_cache (insert j e) s').
Proof.
  intros Hne (Hc & Hb & Hl). split; [|split; assumption].
  simpl. now rewrite lookup_insert_ne by auto.
Qed.

Lemma untouched_delete i j s s' :
  j <> i -> untouched i s s' -> untouched i s (set_cache (delete j) s').
Proof.
  intros Hne (Hc & Hb & Hl). split; [|split; assumption].
  simpl. now rewrite lookup_delete_ne by auto.
Qed.

Lemma zc_write_untouched i j d s :
  j <> i -> untouched i s (snd (zc_write j d s)).
Proof.
  intros Hne. destruct (zc_write j d s) as [r s'] eqn:Hw.
  apply zc_write_effect in Hw as (Hc & Hother & _).
  destruct (Hother i) as [Hb Hl]; [auto|].
  split; [simpl; now rewrite Hc|]. split; assumption.
Qed.

Lemma zc_read_untouched i j s : untouched i s (snd (zc_read j s)).
Proof. destruct (zc_read_state j s) as [n' ->]. apply untouched_set_net. Qed.

Lemma complete_read_untouched i j newer s :
  j <> i -> untouched i s (snd (complete_read j newer s)).
Proof.
  intros Hne. unfold complete_read, Store.complete_read. destruct newer as [d|].
  - simpl. apply untouched_insert; [assumption|apply zc_read_untouched].
  - pose proof (zc_read_untouched i j s) as H.
    destruct (zc_read j s) as [[d|e] s1]; simpl in *.
    + now apply untouched_insert.
    + now apply untouched_delete.
Qed.

(** What the propagation of [d] does for block [i]. *)
Lemma propagate_effect i d s r s' :
  propagate i d s = (r, s') ->
  (forall j, i <> j -> untouched j s s') /\
  ((r = Ok tt /\ cache s' !! i = Some (Clean d) /\
    (d = zeros -> i ∈ zero_bits s' /\ latest s' !! i = None)) \/
   (exists e, r = Err e /\ cache s' !! i = Some (Dirty d) /\
              length (net s') < length (net s))).
Proof.
  unfold propagate, Store.propagate.
  pose proof (fun j => zc_write_untouched j i d s) as Hun.
  destruct (zc_write i d s) as [[[]|e] s1] eqn:Hw; simpl in Hun;
    intros [= <- <-];
    apply zc_write_effect in Hw as (_ & _ & _ & Hcase).
  - split; [intros j Hj; now apply untouched_insert, Hun|].
    left. split; [reflexivity|]. split; [simpl; apply lookup_insert_eq|].
    intros Hd. apply is_zero_true in Hd.
    destruct Hcase as [(_ & Hl & Hb)|(e & [=] & _)]. rewrite Hd in Hl, Hb.
    simpl. rewrite Hl, Hb. split; [set_solver|apply lookup_delete_eq].
  - split; [intros j Hj; now apply untouched_insert, Hun|].
    right. exists e. split; [reflexivity|]. split; [simpl; apply lookup_insert_eq|].
    destruct Hcase as [([=] & _)|(e' & _ & _ & _ & _ & Hlt)]. exact Hlt.
Qed.

(** The propagation that [flush()] repeats ends with a clean entry. *)
Lemma propagate_until_effect fuel i d s :
  length (net s) <= fuel ->
  (forall j, i <> j -> untouched j s (propagate_until fuel i d s)) /\
  cache (propagate_until fuel i d s) !! i = Some (Clean d) /\
  (d = zeros -> i ∈ zero_bits (propagate_until fuel i d s) /\
                latest (propagate_until fuel i d s) !! i = None).
Proof.
  revert s. induction fuel as [|fuel IH]; intros s Hfuel; simpl;
    destruct (Store.propagate block_size md5 max_retries i d s) as [[u|e] s1] eqn:Hp;
    apply propagate_effect in Hp as (Hun & [(Hr & Hc & Hz)|(e' & He & Hc & Hlt)]);
    try discriminate; try (split; [exact Hun|split; [exact Hc|exact Hz]]);
    try lia.
  destruct (IH s1) as (Hun' & Hc' & Hz'); [lia|].
  split; [|split; assumption].
  intros j Hj. eapply untouched_trans; [apply Hun|apply Hun']; assumption.
Qed.

Lemma zero_known_untouched i s s' :
  untouched i s s' -> zero_known block_size i s -> zero_known block_size i s'.
Proof.
  intros (Hc & Hb & Hl) (Hentry & Hbit & Hlat). unfold zero_known.
  rewrite Hc, Hl. split; [exact Hentry|]. split; [now apply Hb|exact Hlat].
Qed.

Lemma zero_written_untouched i s s' :
  untouched i s s' -> zero_written block_size i s -> zero_written block_size i s'.
Proof.
  intros Hun H. pose proof Hun as (Hc & _). unfold zero_written in *.
  rewrite Hc. destruct H as [H|[H|[H|[H|H]]]]; auto.
  right; right; right; right. now apply (zero_known_untouched i s).
Qed.

(** A read of a block to which zeros were written returns zeros. *)
Lemma zero_read i s :
  zero_written block_size i s ->
  fst (bc_read i s) = Ok zeros /\ zero_written block_size i (snd (bc_read i s)).
Proof.
  intros H. pose proof H as H0. unfold bc_read, Store.bc_read.
  destruct H as [H|[H|[(a & H)|[H|(H & Hbit & Hlat)]]]];
    try (rewrite H; split; [reflexivity|exact H0]).
  - rewrite H. unfold Store.complete_read. simpl. split; [reflexivity|].
    left. simpl. apply lookup_insert_eq.
  - assert (Hz : forall s0, zero_bits s0 = zero_bits s ->
                   zc_read i s0 = (Ok zeros, s0)).
    { intros s0 Hs0. unfold zc_read, Store.zc_read.
      destruct (decide (i ∈ zero_bits s0)) as [|Hn]; [reflexivity|].
      rewrite Hs0 in Hn. contradiction. }
    assert (Hk : forall s0, zero_bits s0 = zero_bits s -> latest s0 = latest s ->
                   zero_written block_size i
                     (set_cache (insert i (Clean zeros)) s0)).
    { intros s0 Hb Hl. right; right; right; right. split; [|split].
      - right; right. simpl. apply lookup_insert_eq.
      - simpl. now rewrite Hb.
      - simpl. now rewrite Hl. }
    destruct H as [H|[H|H]]; rewrite H; unfold Store.complete_read.
    + rewrite Hz by reflexivity. split; [reflexivity|].
      simpl. right; right; right; right. split; [|split; assumption].
      right; right. simpl. rewrite insert_insert_eq. apply lookup_insert_eq.
    + rewrite Hz by reflexivity. split; [reflexivity|]. now apply Hk.
    + split; [reflexivity|exact H0].
Qed.

(** A step that is not a write of block [i] leaves it zero. *)
Lemma do_step_zero st s i :
  allowed block_size i st -> zero_written block_size i s ->
  zero_written block_size i (do_step st s).
Proof.
  intros Hal H.
  assert (Hkeep : forall s', untouched i s s' -> zero_written block_size i s').
  { intros s' Hun. now apply (zero_written_untouched i s). }
  destruct st as [j|j|j|j|j|j|j|t|j|j y];
    cbv beta iota delta [Store.do_step];
    try (destruct (decide (j = i)) as [->|Hne]).
  - (* StartWrite i *)
    destruct H as [H|[H|[(a & H)|[H|([H|[H|H]] & Hbit & Hlat)]]]];
      rewrite H; unfold zero_written, zero_known; simpl;
      rewrite ?lookup_insert_eq; try rewrite H; eauto 10.
  - apply Hkeep. destruct (cache s !! j) as [[]|];
      try apply untouched_refl; apply untouched_insert;
      auto using untouched_refl.
  - (* CompleteWrite i *)
    destruct H as [H|[H|[(a & H)|[H|([H|[H|H]] & Hbit & Hlat)]]]];
      rewrite H; unfold zero_written, zero_known; simpl;
      rewrite ?lookup_insert_eq; try rewrite H; eauto 10.
    destruct (Store.propagate block_size md5 max_retries i zeros s)
      as [r s1] eqn:Hp.
    apply propagate_effect in Hp as (_ & [(_ & Hc & Hz)|(e & _ & Hc & _)]);
      simpl; rewrite Hc; [|now left].
    destruct (Hz eq_refl) as [Hb Hl]. right; right; right; right. auto.
  - apply Hkeep. destruct (cache s !! j) as [[d|d|d|a d| |d]|];
      try apply untouched_refl.
    + destruct (Store.propagate block_size md5 max_retries j d s)
        as [r s1] eqn:Hp.
      apply propagate_effect in Hp as (Hun & _). simpl. now apply Hun.
    + apply untouched_insert; [assumption|now apply zc_write_untouched].
  - (* StartRead i *)
    destruct H as [H|[H|[(a & H)|[H|([H|[H|H]] & Hbit & Hlat)]]]];
      rewrite H; unfold zero_written, zero_known; simpl;
      rewrite ?lookup_insert_eq; try rewrite H; eauto 10.
  - apply Hkeep. destruct (cache s !! j) as [[]|];
      try apply untouched_refl; apply untouched_insert;
      auto using untouched_refl.
  - (* CompleteRead i *)
    pose proof (zero_read i s H) as [_ Hr]. unfold Store.bc_read in Hr.
    destruct (cache s !! i) as [[d|d|d|a d| |d]|] eqn:Hentry;
      try exact H; exact Hr.
  - apply Hkeep. destruct (cache s !! j) as [[d|d|d|a d| |d]|];
      try apply untouched_refl; now apply complete_read_untouched.
  - (* Evict i *)
    destruct H as [H|[H|[(a & H)|[H|([H|[H|H]] & Hbit & Hlat)]]]];
      rewrite H; unfold zero_written, zero_known; simpl;
      rewrite ?lookup_delete_eq; try rewrite H; eauto 10.
  - apply Hkeep. destruct (cache s !! j) as [[]|];
      try apply untouched_refl; apply untouched_delete;
      auto using untouched_refl.
  - apply Hkeep. repeat split; auto.
  - apply Hkeep. repeat split; auto.
  - apply Hkeep. repeat split; auto.
  - apply Hkeep. repeat split; auto.
  - apply Hkeep. repeat split; auto.
  - (* ReadOp i *) now apply zero_read.
  - apply Hkeep. unfold Store.bc_read.
    destruct (cache s !! j) as [[d|d|d|a d| |d]|];
      try apply untouched_refl; try now apply complete_read_untouched.
    eapply untouched_trans; [|now apply complete_read_untouched].
    apply untouched_insert; auto using untouched_refl.
  - destruct Hal as [Hal _]. contradiction.
  - apply Hkeep. simpl. apply untouched_insert; auto using untouched_refl.
Qed.

Lemma run_zero steps s i :
  Forall (allowed block_size i) steps -> zero_written block_size i s ->
  zero_written block_size i (run steps s).
Proof.
  intros Hall. revert s.
  induction Hall as [|st steps Hst Hall IH]; intros s H; [exact H|].
  apply IH. now apply do_step_zero.
Qed.

Lemma flush_entry_untouched i j s : j <> i -> untouched i s (flush_entry j s).
Proof.
  intros Hne. unfold flush_entry, Store.flush_entry.
  destruct (cache s !! j) as [[d|d|d|a d| |d]|]; try apply untouched_refl.
  - now apply propagate_until_effect.
  - now apply propagate_until_effect.
  - eapply untouched_trans; [now apply (zc_write_untouched i j a)|].
    now apply propagate_until_effect.
  - eapply untouched_trans; [apply (zc_read_untouched i j)|].
    now apply propagate_until_effect.
Qed.

(** [flush()] propagates the zeros of the entry of [i]. *)
Lemma flush_entry_zero i s :
  zero_written block_size i s -> zero_known block_size i (flush_entry i s).
Proof.
  intros H. unfold flush_entry, Store.flush_entry.
  assert (Hdone : forall s0 : store,
            zero_known block_size i
              (propagate_until (length (net s0)) i zeros s0)).
  { intros s0.
    destruct (propagate_until_effect (length (net s0)) i zeros s0)
      as (_ & Hc & Hz); [lia|].
    destruct (Hz eq_refl) as [Hb Hl]. split; [|split; assumption].
    right; right. exact Hc. }
  destruct H as [H|[H|[(a & H)|[H|H]]]]; rewrite ?H; try apply Hdone.
  destruct H as ([H|[H|H]] & Hbit & Hlat); rewrite H;
    (split; [|split; assumption]); auto.
Qed.

Lemma flush_list_zero l i s :
  zero_written block_size i s -> i ∈ l \/ zero_known block_size i s ->
  zero_known block_size i (foldl (fun s j => flush_entry j s) s l).
Proof.
  revert s. induction l as [|j l IH]; intros s H Hin; simpl.
  - destruct Hin as [Hin|Hk]; [inversion Hin|exact Hk].
  - destruct (decide (j = i)) as [->|Hne].
    + pose proof (flush_entry_zero i s H) as Hk.
      apply IH; [|now right]. right; right; right; right. exact Hk.
    + pose proof (flush_entry_untouched i j s Hne) as Hun.
      apply IH; [now apply (zero_written_untouched i s)|].
      destruct Hin as [Hin|Hk].
      * apply elem_of_cons in Hin as [->|Hin]; [contradiction|now left].
      * right. now apply (zero_known_untouched i s).
Qed.

Lemma bc_flush_zero i s :
  zero_written block_size i s -> zero_known block_size i (snd (bc_flush s)).
Proof.
  intros H. unfold bc_flush, Store.bc_flush. simpl.
  apply flush_list_zero; [exact H|].
  destruct (cache s !! i) as [e|] eqn:Hentry.
  - left. apply elem_of_elements, elem_of_dom. eauto.
  - right. unfold zero_written in H. rewrite Hentry in H.
    destruct H as [H|[H|[(a & H)|[H|H]]]]; try discriminate. exact H.
Qed.

Lemma bc_write_zero i s : zero_written block_size i (snd (bc_write i zeros s)).
Proof.
  unfold bc_write, zero_written. simpl. rewrite lookup_insert_eq.
  destruct (cache s !! i) as [[d|d|d|a d| |d]|]; eauto 10.
Qed.


(** ** Errors *)

Lemma http_read_errors i s e :
  fst (http_read i s) = Err e -> read_error_below e.
Proof.
  destruct (http_read_cases i s) as [n' [H|(e' & He & H)]]; rewrite H.
  - unfold get_object, Store.get_object.
    destruct (observed i (set_net n' s)) as [o|]; simpl.
    + destruct (intact o); simpl; [discriminate|].
      intros [= <-]. right. now left.
    + intros [= <-]. now left.
  - simpl. intros [= <-]. right. now right.
Qed.

Lemma http_write_errors i x s e :
  fst (http_write i x s) = Err e -> transport_failure e.
Proof.
  unfold http_write, Store.http_write.
  destruct (http_retry_cases max_retries
              (if is_zero x then delete_object i else put_object md5 i x) s)
    as [n' [H|(e' & He & H)]]; [apply write_object_not_transient| |];
    rewrite H.
  - destruct (is_zero x); discriminate.
  - simpl. now intros [= <-].
Qed.

Lemma ec_read_errors i s e :
  fst (ec_read i s) = Err e -> read_error_below e.
Proof.
  unfold ec_read, Store.ec_read. destruct (ec s !! i); [discriminate|].
  apply http_read_errors.
Qed.

Lemma ec_write_errors i x s e :
  fst (ec_write i x s) = Err e -> transport_failure e.
Proof.
  unfold ec_write, Store.ec_write.
  pose proof (http_write_errors i x s) as H.
  destruct (http_write i x s) as [[u|e'] s1]; simpl in *; [discriminate|].
  intros [= <-]. now apply H.
Qed.

Lemma zc_read_errors i s e :
  fst (zc_read i s) = Err e -> read_error_above e.
Proof.
  unfold zc_read, Store.zc_read.
  destruct (decide (i ∈ zero_bits s)); [discriminate|].
  pose proof (ec_read_errors i s) as H.
  destruct (ec_read i s) as [[d|e'] s1]; simpl in *; [discriminate|].
  destruct (H e' eq_refl) as [->|[->|Ht]]; [discriminate| |].
  - intros [= <-]. now left.
  - destruct e'; simpl; intros [= <-]; try (now right);
      destruct Ht; discriminate.
Qed.

Lemma zc_write_errors i x s e :
  fst (zc_write i x s) = Err e -> transport_failure e.
Proof.
  unfold zc_write, Store.zc_write. destruct (is_zero x).
  - pose proof (ec_write_errors i x s) as H.
    destruct (ec_write i x s) as [[u|e'] s1]; simpl in *; [discriminate|].
    intros [= <-]. now apply H.
  - apply ec_write_errors.
Qed.

Lemma complete_read_errors i newer s e :
  fst (complete_read i newer s) = Err e -> read_error_above e.
Proof.
  unfold complete_read, Store.complete_read. destruct newer; [discriminate|].
  pose proof (zc_read_errors i s) as H.
  destruct (zc_read i s) as [[d|e'] s1]; simpl in *; [discriminate|].
  intros [= <-]. now apply H.
Qed.

Lemma bc_read_errors i s e :
  fst (bc_read i s) = Err e -> read_error_above e.
Proof.
  unfold bc_read, Store.bc_read.
  destruct (cache s !! i) as [[]|]; try discriminate;
    apply complete_read_errors.
Qed.

Lemma propagate_errors i d s e :
  fst (propagate i d s) = Err e -> transport_failure e.
Proof.
  unfold propagate, Store.propagate.
  pose proof (zc_write_errors i d s) as H.
  destruct (zc_write i d s) as [[u|e'] s1]; simpl in *; [discriminate|].
  intros [= <-]. now apply H.
Qed.

(** What does not touch the cache does the same under any cache. *)
Lemma http_retry_set_cache {A} f n (perform : store -> result A * store) s :
  (forall s, perform (set_cache f s)
             = (fst (perform s), set_cache f (snd (perform s)))) ->
  http_retry n perform (set_cache f s)
  = (fst (http_retry n perform s), set_cache f (snd (http_retry n perform s))).
Proof.
  intros Hp.
  revert s. induction n as [|n IH]; intros s; simpl; unfold http_once; simpl.
  - destruct (net s) as [|[] rest]; simpl; try reflexivity.
    + change (set_net [] (set_cache f s)) with (set_cache f (set_net [] s)).
      rewrite Hp. now destruct (perform (set_net [] s)) as [[a|[]] s2].
    + change (set_net rest (set_cache f s)) with (set_cache f (set_net rest s)).
      rewrite Hp. now destruct (perform (set_net rest s)) as [[a|[]] s2].
  - destruct (net s) as [|[] rest]; simpl; try reflexivity.
    + change (set_net [] (set_cache f s)) with (set_cache f (set_net [] s)).
      rewrite Hp. destruct (perform (set_net [] s)) as [[a|[]] s2]; simpl;
        try reflexivity.
      apply IH.
    + change (set_net rest (set_cache f s)) with (set_cache f (set_net rest s)).
      rewrite Hp. destruct (perform (set_net rest s)) as [[a|[]] s2]; simpl;
        try reflexivity.
      apply IH.
    + apply (IH (set_net rest s)).
Qed.

Lemma zc_read_set_cache f i s :
  zc_read i (set_cache f s)
  = (fst (zc_read i s), set_cache f (snd (zc_read i s))).
Proof.
  unfold zc_read, Store.zc_read. simpl.
  destruct (decide (i ∈ zero_bits s)); [reflexivity|].
  unfold Store.ec_read. simpl. destruct (ec s !! i); [reflexivity|].
  unfold Store.http_read. rewrite http_retry_set_cache.
  - destruct (http_retry max_retries (get_object i) s) as [[d|[]] s1]; reflexivity.
  - intros s0. unfold get_object, Store.get_object, observed. simpl.
    destruct (stale s0 !! i) as [[o|]|]; [| |destruct (latest s0 !! i) as [o|]];
      try reflexivity; destruct (intact o); reflexivity.
Qed.


Lemma wf_empty_store : wf empty_store.
Proof.
  constructor; simpl; intros *; rewrite ?lookup_empty; try discriminate;
    try reflexivity.
Qed.

(** Every state the store reaches from the empty one by steps that come
    in time is well formed. *)
Lemma wf_reachable steps :
  Forall (well_sized block_size) steps -> timely steps empty_store ->
  wf (run steps empty_store).
Proof.
  intros Hall. pose proof wf_empty_store as Hwf. revert Hwf.
  generalize empty_store.
  induction Hall as [|st steps Hst Hall IH]; intros s Hwf Htime; [exact Hwf|].
  destruct Htime as [Ht Htime]. simpl. apply IH; [|exact Htime].
  assert (Hal : exists i, allowed block_size i st).
  { destruct st as [j|j|j|j|j|j|j|t|j|j y]; try (now exists 0).
    exists (S j). split; [lia|exact Hst]. }
  destruct Hal as [i Hal]. now apply (do_step_spec st s i).
Qed.

End Proofs.

(** ** The statements at sample inputs: blocks of two bytes, the
    identity as content hash, three retries *)

Lemma wf_stored_store : wf 2 id stored_store.
Proof.
  constructor; simpl; intros *; rewrite ?lookup_empty; try discriminate;
    try reflexivity;
    intros H; apply lookup_singleton_Some in H as [_ <-];
    try reflexivity; discriminate.
Qed.


(** What [timely] is for: when EC protect forgets the write before the
    bucket has converged, the [read] after the eviction returns the
    object the bucket still shows. *)
Lemma early_expiry_reads_old_data :
  fst (bc_read 2 id 3 5
         (run 2 id 3 [StartWrite 5; CompleteWrite 5; Evict 5; Expire 5]
            (snd (bc_write 5 [Byte.x01; Byte.x02] stored_store))))
  = Ok [Byte.x09; Byte.x09].
Proof. vm_compute. reflexivity. Qed.





End StoreProofs.
